(** * TigVCS plumbing layer: content store, diff engine, staging

    A shallow embedding of the Go sources
      - [internal/safe/safe.go]         (content-addressed blob store),
      - [internal/diff/diff.go]         (line diff engine),
      - [internal/workspace/local.go]   (gating / ungating / cleanup),
      - [internal/change/auto_tracker.go] (tracking and file states),
    followed by the properties of the specification, each stated over
    these definitions.

    Conventions of the embedding.
      - A Go [[]byte] is a [list byte]; a Go [string] is a [string].
      - Go [int] values stay far from the 64-bit range in this code and
        are [Z] or [nat]; [uint32] (the reference count) is a [Z] whose
        increment and decrement wrap modulo 2^32.
      - The filesystem, the Badger database and the clock are explicit
        state; every operation returns its result together with the
        state it leaves behind, also when it fails. *)

From Stdlib Require Import ZArith NArith Lia List Ascii String Bool.
From Stdlib.Strings Require Import Byte.
From stdpp Require Import gmap strings list fin_maps sorting.

Local Open Scope string_scope.
Local Open Scope Z_scope.

(* ===================================================================== *)
(** * Errors and results *)
(* ===================================================================== *)

(** Errors of the [os] package that the code distinguishes. *)
Inductive oserr : Type :=
  | ENOENT      (* os.IsNotExist *)
  | EISDIR
  | ENOTDIR
  | ENOTEMPTY.

(** Go [error] values.  [Wrapped msg e] is [fmt.Errorf("msg: %w", e)];
    [StoringContent i e] is [fmt.Errorf("storing content %d: %w", i, e)]. *)
Inductive error : Type :=
  | ErrContentNotFound                       (* safe.ErrContentNotFound *)
  | ErrInvalidHash                           (* safe.ErrInvalidHash *)
  | ErrHashMismatch                          (* "content hash mismatch" *)
  | ErrKeyNotFound                           (* badger.ErrKeyNotFound *)
  | ErrUnmarshal                             (* json.Unmarshal failure *)
  | ErrNilFunc                               (* call through a nil func field *)
  | ErrMsg (msg : string)                    (* errors.New / fmt.Errorf without %w *)
  | ErrOS (e : oserr)
  | ErrHexInvalidByte (c : ascii)            (* hex.InvalidByteError *)
  | ErrHexLength                             (* hex.ErrLength *)
  | Wrapped (msg : string) (e : error)
  | StoringContent (i : nat) (e : error)
  | GettingContent (hash : string) (e : error).

Inductive result (A : Type) : Type :=
  | Ok (a : A)
  | Err (e : error).
Arguments Ok {A} a.
Arguments Err {A} e.

Definition is_ok {A} (r : result A) : bool :=
  match r with Ok _ => true | Err _ => false end.

(** State-and-error monad: the state survives a failure, as the side
    effects of a Go function survive its returning an error. *)
Definition M (S A : Type) : Type := S -> result A * S.

Definition ret {S A} (a : A) : M S A := fun s => (Ok a, s).
Definition fail {S A} (e : error) : M S A := fun s => (Err e, s).
Definition bind {S A B} (m : M S A) (k : A -> M S B) : M S B :=
  fun s => match m s with
           | (Ok a, s') => k a s'
           | (Err e, s') => (Err e, s')
           end.
(** [if err := m; err != nil { return fmt.Errorf("msg: %w", err) }] *)
Definition wrap {S A} (msg : string) (m : M S A) : M S A :=
  fun s => match m s with
           | (Ok a, s') => (Ok a, s')
           | (Err e, s') => (Err (Wrapped msg e), s')
           end.
(** A call whose error is dropped: [s.Delete(h)] as a statement. *)
Definition ignore_err {S A} (m : M S A) : M S unit :=
  fun s => (Ok tt, snd (m s)).
Definition gets {S A} (f : S -> A) : M S A := fun s => (Ok (f s), s).
Definition modify {S} (f : S -> S) : M S unit := fun s => (Ok tt, f s).

Declare Scope go_scope.
Delimit Scope go_scope with go.
Notation "x <- m ;; k" := (bind m (fun x => k))
  (at level 100, m at next level, right associativity) : go_scope.
Notation "m ;;; k" := (bind m (fun _ => k))
  (at level 100, right associativity) : go_scope.

(* ===================================================================== *)
(** * Byte and string helpers *)
(* ===================================================================== *)

Definition byte_of_Z (z : Z) : byte :=
  match Byte.of_N (Z.to_N (z mod 256)) with
  | Some b => b
  | None => x00
  end.
Definition Z_of_byte (b : byte) : Z := Z.of_N (Byte.to_N b).

(** [s[i:j]] on a string (total here; Go panics out of range). *)
Definition slice (i j : nat) (s : string) : string := substring i (j - i) s.
(** [s[i:]] *)
Definition slice_from (i : nat) (s : string) : string :=
  substring i (String.length s - i) s.

(** [filepath.Join] on elements that are already clean: empty elements
    are dropped, the others are joined with the separator. *)
Definition filepath_Join (elems : list string) : string :=
  String.concat "/" (List.filter (fun e => negb (String.eqb e "")) elems).

(** [filepath.Dir]: everything before the last separator; [.] when the
    path has no separator, [/] when only the root remains. *)
Fixpoint drop_last_elem (p : list ascii) : option (list ascii) :=
  match p with
  | [] => None
  | c :: q =>
      match drop_last_elem q with
      | Some d => Some (c :: d)
      | None => if Ascii.eqb c "/" then Some [] else None
      end
  end.
Definition filepath_Dir (p : string) : string :=
  match drop_last_elem (list_ascii_of_string p) with
  | None => "."
  | Some [] => "/"
  | Some d => string_of_list_ascii d
  end.

(* ===================================================================== *)
(** * encoding/hex *)
(* ===================================================================== *)

Module Hex.

Definition hextable : string := "0123456789abcdef".

Definition digit (n : Z) : ascii :=
  match String.get (Z.to_nat n) hextable with
  | Some c => c
  | None => "0"%char
  end.

(** [hex.EncodeToString] *)
Fixpoint EncodeToString (src : list byte) : string :=
  match src with
  | [] => ""
  | b :: rest =>
      String (digit (Z.shiftr (Z_of_byte b) 4))
        (String (digit (Z.land (Z_of_byte b) 15)) (EncodeToString rest))
  end.

(** The reverse table of the package: both cases of a-f are accepted. *)
Definition fromHexChar (c : ascii) : option Z :=
  let n := Z.of_N (N_of_ascii c) in
  if (48 <=? n) && (n <=? 57) then Some (n - 48)
  else if (97 <=? n) && (n <=? 102) then Some (n - 87)
  else if (65 <=? n) && (n <=? 70) then Some (n - 55)
  else None.

(** [hex.Decode]: pairs are decoded left to right; an odd trailing
    character is checked before the length error is reported. *)
Fixpoint Decode (src : list ascii) : result (list byte) :=
  match src with
  | [] => Ok []
  | [p] =>
      match fromHexChar p with
      | None => Err (ErrHexInvalidByte p)
      | Some _ => Err ErrHexLength
      end
  | p :: q :: rest =>
      match fromHexChar p, fromHexChar q with
      | None, _ => Err (ErrHexInvalidByte p)
      | Some _, None => Err (ErrHexInvalidByte q)
      | Some a, Some b =>
          match Decode rest with
          | Ok bs => Ok (byte_of_Z (Z.lor (Z.shiftl a 4) b) :: bs)
          | Err e => Err e
          end
      end
  end.

Definition DecodeString (s : string) : result (list byte) :=
  Decode (list_ascii_of_string s).

End Hex.

(* ===================================================================== *)
(** * crypto/sha256 *)
(* ===================================================================== *)

(** The digest of the Go standard library (FIPS 180-4), on 32-bit words
    held in [Z]. *)
Module Sha256.

Definition mask32 : Z := 0xffffffff.
Definition add32 (x y : Z) : Z := Z.land (x + y) mask32.
Definition rotr (n x : Z) : Z :=
  Z.lor (Z.shiftr x n) (Z.land (Z.shiftl x (32 - n)) mask32).
Definition Ch (x y z : Z) : Z :=
  Z.lxor (Z.land x y) (Z.land (Z.lxor x mask32) z).
Definition Maj (x y z : Z) : Z :=
  Z.lxor (Z.lxor (Z.land x y) (Z.land x z)) (Z.land y z).
Definition bsig0 x := Z.lxor (Z.lxor (rotr 2 x) (rotr 13 x)) (rotr 22 x).
Definition bsig1 x := Z.lxor (Z.lxor (rotr 6 x) (rotr 11 x)) (rotr 25 x).
Definition ssig0 x := Z.lxor (Z.lxor (rotr 7 x) (rotr 18 x)) (Z.shiftr x 3).
Definition ssig1 x := Z.lxor (Z.lxor (rotr 17 x) (rotr 19 x)) (Z.shiftr x 10).

(** The constants of the standard are the first 32 bits of the
    fractional parts of the square roots (initial state) and of the cube
    roots (round constants) of the first primes; they are computed here
    from that definition. *)
Definition is_prime (n : Z) : bool :=
  forallb (fun d => negb (n mod d =? 0)) (seqZ 2 (n - 2)).

Definition primes (count : nat) : list Z :=
  take count (List.filter is_prime (seqZ 2 400)).

(** The largest [r] below [2 ^ bits] with [r ^ k <= n], bit by bit. *)
Fixpoint iroot (k : Z) (bits : nat) (n r : Z) : Z :=
  match bits with
  | O => r
  | S b =>
      let r' := r + 2 ^ Z.of_nat b in
      iroot k b n (if r' ^ k <=? n then r' else r)
  end.

Definition frac_root (k p : Z) : Z :=
  Z.land (iroot k 40 (p * 2 ^ (32 * k)) 0) mask32.

Definition K : list Z := List.map (frac_root 3) (primes 64).

Definition state : Type := (Z * Z * Z * Z * Z * Z * Z * Z)%type.

Definition init : state :=
  match List.map (frac_root 2) (primes 8) with
  | [a; b; c; d; e; f; g; h] => (a, b, c, d, e, f, g, h)
  | _ => (0, 0, 0, 0, 0, 0, 0, 0)
  end.

(** Padding: a 1 bit, zeros up to 56 mod 64, the bit length on 8 bytes. *)
Definition be_bytes (n : nat) (x : Z) : list Z :=
  List.map (fun i => Z.land (Z.shiftr x (8 * Z.of_nat i)) 255) (List.rev (List.seq 0 n)).

Definition pad (msg : list Z) : list Z :=
  let len := Z.of_nat (List.length msg) in
  msg ++ [128] ++ List.repeat 0 (Z.to_nat ((55 - len) mod 64))
      ++ be_bytes 8 (8 * len).

Definition be_word (bs : list Z) : Z :=
  List.fold_left (fun acc b => Z.lor (Z.shiftl acc 8) b) bs 0.

Fixpoint words (n : nat) (bs : list Z) : list Z :=
  match n with
  | O => []
  | S n' => be_word (List.firstn 4 bs) :: words n' (List.skipn 4 bs)
  end.

Fixpoint blocks (fuel : nat) (bs : list Z) : list (list Z) :=
  match fuel, bs with
  | O, _ => []
  | _, [] => []
  | S f, _ => words 16 (List.firstn 64 bs) :: blocks f (List.skipn 64 bs)
  end.

(** Message schedule: the 16 block words extended to 64. *)
Fixpoint extend (n : nat) (w : list Z) : list Z :=
  match n with
  | O => w
  | S n' =>
      let t := List.length w in
      let at_ i := List.nth (t - i) w 0 in
      extend n' (w ++ [add32 (add32 (ssig1 (at_ 2%nat)) (at_ 7%nat))
                             (add32 (ssig0 (at_ 15%nat)) (at_ 16%nat))])
  end.

Definition round (st : state) (kw : Z * Z) : state :=
  let '(a, b, c, d, e, f, g, h) := st in
  let t1 := add32 (add32 (add32 h (bsig1 e)) (add32 (Ch e f g) (fst kw))) (snd kw) in
  let t2 := add32 (bsig0 a) (Maj a b c) in
  (add32 t1 t2, a, b, c, add32 d t1, e, f, g).

Definition compress (st : state) (block : list Z) : state :=
  let '(a, b, c, d, e, f, g, h) := st in
  let '(a', b', c', d', e', f', g', h') :=
    List.fold_left round (List.combine K (extend 48 block)) st in
  (add32 a a', add32 b b', add32 c c', add32 d d',
   add32 e e', add32 f f', add32 g g', add32 h h').

Definition digest (st : state) : list byte :=
  let '(a, b, c, d, e, f, g, h) := st in
  List.map byte_of_Z (List.flat_map (be_bytes 4) [a; b; c; d; e; f; g; h]).

(** [sha256.Sum256] *)
Definition Sum256 (data : list byte) : list byte :=
  let bs := pad (List.map Z_of_byte data) in
  digest (List.fold_left compress (blocks (List.length bs) bs) init).

End Sha256.

(* ===================================================================== *)
(** * The LRU cache (hashicorp/golang-lru/v2) *)
(* ===================================================================== *)

(** Entries are kept most recently used first.  [Add] refreshes or
    inserts at the front and evicts the oldest entry once the size is
    exceeded; [Get] moves a hit to the front; [Contains] does not touch
    recency; [Remove] drops the key. *)
Module Lru.

Record t : Type := mk { size : nat; items : list (string * list byte) }.

Fixpoint assoc (k : string) (l : list (string * list byte)) : option (list byte) :=
  match l with
  | [] => None
  | (k', v) :: r => if String.eqb k' k then Some v else assoc k r
  end.

Fixpoint remove_key (k : string) (l : list (string * list byte))
  : list (string * list byte) :=
  match l with
  | [] => []
  | (k', v) :: r =>
      if String.eqb k' k then remove_key k r else (k', v) :: remove_key k r
  end.

Definition New (n : nat) : t := mk n [].

Definition Contains (k : string) (c : t) : bool :=
  match assoc k (items c) with Some _ => true | None => false end.

Definition Add (k : string) (v : list byte) (c : t) : t :=
  if Contains k c then mk (size c) ((k, v) :: remove_key k (items c))
  else
    let l := (k, v) :: items c in
    if (size c <? List.length l)%nat then mk (size c) (List.removelast l)
    else mk (size c) l.

Definition Get (k : string) (c : t) : option (list byte) * t :=
  match assoc k (items c) with
  | Some v => (Some v, mk (size c) ((k, v) :: remove_key k (items c)))
  | None => (None, c)
  end.

Definition Remove (k : string) (c : t) : t :=
  mk (size c) (remove_key k (items c)).

End Lru.

(* ===================================================================== *)
(** * The environment: filesystem, Badger database, clock *)
(* ===================================================================== *)

(** A filesystem entry.  A regular file carries what [os.FileInfo]
    reports about it besides its bytes. *)
Inductive node : Type :=
  | File (data : list byte) (mode : Z) (mtime : Z)
  | Dir.

(** [safe.ContentMeta] *)
Record ContentMeta : Type := mkMeta {
  Hash : string;
  Size : Z;
  RefCount : Z;          (* uint32 *)
  Compressed : bool;
  CreatedAt : Z;
  AccessedAt : Z
}.

(** [shared.DiffHunk] and [shared.Change] *)
Record DiffHunk : Type := mkDiffHunk {
  dh_OldStart : Z; dh_OldLines : Z; dh_NewStart : Z; dh_NewLines : Z;
  dh_Lines : list string
}.

Record Change : Type := mkChange {
  Path : string;
  Type_ : string;        (* the Go field is named Type *)
  OldPath : string;
  OldHash : string;
  NewHash : string;
  Mode : Z;
  ChSize : Z;            (* the Go field is named Size *)
  ModTime : Z;
  Diff_ : string;
  DiffHunks : list DiffHunk;
  Gated : bool;
  Content : string
}.

(** [FileState] of the tracker and of the workspace *)
Record FileState : Type := mkFileState {
  fs_Hash : string; fs_ModTime : Z; fs_Size : Z
}.

(** A value of the key-value store.  The store holds JSON documents;
    the model keeps the struct that was marshalled, and decoding a
    document into another struct counts as a decoding error.  [VNil] is
    the empty value written by [txn.Set(key, nil)]. *)
Inductive dbval : Type :=
  | VMeta (m : ContentMeta)
  | VChange (c : Change)
  | VFileState (f : FileState)
  | VNil.

Record Env : Type := mkEnv {
  fs : gmap string node;
  db : gmap string dbval;
  clock : Z
}.

Definition uint32_wrap (x : Z) : Z := x mod 2 ^ 32.

(* ===================================================================== *)
(** * internal/safe/safe.go *)
(* ===================================================================== *)

Module Safe.

(** The receiver.  [env] is the state behind the [db] pointer together
    with the disk and the clock; [decompress] is the func field, which
    [New] leaves nil. *)
Record t : Type := mk {
  root : string;
  cache : Lru.t;
  batchSize : Z;
  decompress : option (list byte -> result (list byte));
  env : Env
}.

Definition set_env (f : Env -> Env) (s : t) : t :=
  mk (root s) (cache s) (batchSize s) (decompress s) (f (env s)).
Definition set_fs (f : gmap string node -> gmap string node) : t -> t :=
  set_env (fun e => mkEnv (f (fs e)) (db e) (clock e)).
Definition set_db (f : gmap string dbval -> gmap string dbval) : t -> t :=
  set_env (fun e => mkEnv (fs e) (f (db e)) (clock e)).
Definition set_cache (f : Lru.t -> Lru.t) (s : t) : t :=
  mk (root s) (f (cache s)) (batchSize s) (decompress s) (env s).

(** ** The operating system calls the package makes *)

(** [time.Now()]: the clock is read and moves on. *)
Definition time_Now : M t Z :=
  fun s => (Ok (clock (env s)),
            set_env (fun e => mkEnv (fs e) (db e) (clock e + 1)) s).

(** [os.MkdirAll]: fails when the path is a regular file, is a no-op
    on a directory, creates it otherwise. *)
Definition os_MkdirAll (p : string) : M t unit :=
  fun s => match fs (env s) !! p with
           | Some (File _ _ _) => (Err (ErrOS ENOTDIR), s)
           | _ => (Ok tt, set_fs (insert p Dir) s)
           end.

(** [os.WriteFile]: truncates an existing file (its mode is kept),
    creates the file with [perm] otherwise, fails on a directory. *)
Definition os_WriteFile (p : string) (data : list byte) (perm : Z) : M t unit :=
  fun s => match fs (env s) !! p with
           | Some Dir => (Err (ErrOS EISDIR), s)
           | Some (File _ mode _) =>
               (Ok tt, set_fs (insert p (File data mode (clock (env s)))) s)
           | None =>
               (Ok tt, set_fs (insert p (File data perm (clock (env s)))) s)
           end.

Definition os_ReadFile (p : string) : M t (list byte) :=
  fun s => match fs (env s) !! p with
           | Some (File data _ _) => (Ok data, s)
           | Some Dir => (Err (ErrOS EISDIR), s)
           | None => (Err (ErrOS ENOENT), s)
           end.

Definition has_child (p : string) (m : gmap string node) : bool :=
  bool_decide (map_Exists (fun k _ => String.prefix (p +:+ "/") k = true) m).

(** [os.Remove]: removes a file or an empty directory. *)
Definition os_Remove (p : string) : M t unit :=
  fun s => match fs (env s) !! p with
           | None => (Err (ErrOS ENOENT), s)
           | Some (File _ _ _) => (Ok tt, set_fs (delete p) s)
           | Some Dir =>
               if has_child p (fs (env s)) then (Err (ErrOS ENOTEMPTY), s)
               else (Ok tt, set_fs (delete p) s)
           end.

Definition os_Stat (p : string) : M t node :=
  fun s => match fs (env s) !! p with
           | Some n => (Ok n, s)
           | None => (Err (ErrOS ENOENT), s)
           end.

Definition os_IsNotExist (e : error) : bool :=
  match e with ErrOS ENOENT => true | _ => false end.

(** ** Internal helper functions *)

Definition hashContent (content : list byte) : string :=
  Hex.EncodeToString (Sha256.Sum256 content).

Definition contentPath (s : t) (hash : string) : string :=
  filepath_Join [root s; slice 0 2 hash; slice_from 2 hash].

Definition isValidHash (hash : string) : bool :=
  if negb (String.length hash =? 64)%nat then false
  else is_ok (Hex.DecodeString hash).

Definition metaKey (hash : string) : string := "content:" +:+ hash.

Definition storeMeta (meta : ContentMeta) : M t unit :=
  modify (set_db (insert (metaKey (Hash meta)) (VMeta meta))).

Definition getMeta (hash : string) : M t ContentMeta :=
  fun s => match db (env s) !! metaKey hash with
           | None => (Err ErrContentNotFound, s)
           | Some (VMeta m) => (Ok m, s)
           | Some _ => (Err ErrUnmarshal, s)
           end.

Definition deleteMeta (hash : string) : M t unit :=
  modify (set_db (delete (metaKey hash))).

Definition with_RefCount (meta : ContentMeta) (rc : Z) : ContentMeta :=
  mkMeta (Hash meta) (Size meta) rc (Compressed meta)
         (CreatedAt meta) (AccessedAt meta).
Definition with_AccessedAt (meta : ContentMeta) (ts : Z) : ContentMeta :=
  mkMeta (Hash meta) (Size meta) (RefCount meta) (Compressed meta)
         (CreatedAt meta) ts.

Definition incrementRefCount (hash : string) : M t unit :=
  (meta <- getMeta hash ;;
   storeMeta (with_RefCount meta (uint32_wrap (RefCount meta + 1))))%go.

(** ** The exported operations *)

Definition Exists (hash : string) : M t bool :=
  if negb (isValidHash hash) then fail ErrInvalidHash
  else fun s =>
    if Lru.Contains hash (cache s) then (Ok true, s)
    else match getMeta hash s with
         | (Ok _, s') => (Ok true, s')
         | (Err ErrContentNotFound, s') => (Ok false, s')
         | (Err e, s') => (Err e, s')
         end.

Definition Store (content : list byte) : M t string :=
  let hash := hashContent content in
  (exists_ <- wrap "checking existence" (Exists hash) ;;
   if (exists_ : bool) then
     wrap "incrementing ref count" (incrementRefCount hash) ;;;
     ret hash
   else
     s0 <- gets id ;;
     let path := contentPath s0 hash in
     wrap "creating content directory" (os_MkdirAll (filepath_Dir path)) ;;;
     wrap "writing content file" (os_WriteFile path content 420 (* 0644 *)) ;;;
     created <- time_Now ;;
     accessed <- time_Now ;;
     let meta := mkMeta hash (Z.of_nat (List.length content)) 1 false
                        created accessed in
     (fun s => match storeMeta meta s with
               | (Ok _, s') => (Ok tt, s')
               | (Err e, s') =>
                   (Err (Wrapped "storing metadata" e),
                    snd (os_Remove path s'))
               end) ;;;
     modify (set_cache (Lru.Add hash content)) ;;;
     ret hash)%go.

Definition Get (hash : string) : M t (list byte) :=
  if negb (isValidHash hash) then fail ErrInvalidHash
  else fun s =>
    match Lru.Get hash (cache s) with
    | (Some content, c') => (Ok content, set_cache (fun _ => c') s)
    | (None, _) =>
        (meta <- wrap "getting metadata" (getMeta hash) ;;
         s0 <- gets id ;;
         raw <- (fun s1 => match os_ReadFile (contentPath s0 hash) s1 with
                           | (Ok c, s2) => (Ok c, s2)
                           | (Err e, s2) =>
                               if os_IsNotExist e
                               then (Err ErrContentNotFound, s2)
                               else (Err (Wrapped "reading content" e), s2)
                           end) ;;
         content <- (if Compressed meta then
                       match decompress s0 with
                       | None => fail ErrNilFunc
                       | Some f =>
                           match f raw with
                           | Ok c => ret c
                           | Err e => fail (Wrapped "decompressing content" e)
                           end
                       end
                     else ret raw) ;;
         if negb (String.eqb (hashContent content) hash)
         then fail ErrHashMismatch
         else
           modify (set_cache (Lru.Add hash content)) ;;;
           accessed <- time_Now ;;
           wrap "updating metadata" (storeMeta (with_AccessedAt meta accessed)) ;;;
           ret content)%go s
    end.

Definition Delete (hash : string) : M t unit :=
  if negb (isValidHash hash) then fail ErrInvalidHash
  else
    (meta <- wrap "getting metadata" (getMeta hash) ;;
     let rc := uint32_wrap (RefCount meta - 1) in
     if rc =? 0 then
       s0 <- gets id ;;
       (fun s => match os_Remove (contentPath s0 hash) s with
                 | (Ok _, s') => (Ok tt, s')
                 | (Err e, s') =>
                     if os_IsNotExist e then (Ok tt, s')
                     else (Err (Wrapped "removing content file" e), s')
                 end) ;;;
       wrap "deleting metadata" (deleteMeta hash) ;;;
       modify (set_cache (Lru.Remove hash))
     else
       wrap "updating metadata" (storeMeta (with_RefCount meta rc)))%go.

Definition Verify (hash : string) : M t unit :=
  (content <- Get hash ;;
   if negb (String.eqb (hashContent content) hash)
   then fail ErrHashMismatch
   else ret tt)%go.

(** The cleanup loop of [StoreBatch]: [s.Delete(hashes[j])] for the
    given prefix of [hashes], every error dropped. *)
Fixpoint rollback (hashes : list string) : M t unit :=
  match hashes with
  | [] => ret tt
  | h :: rest => (ignore_err (Delete h) ;;; rollback rest)%go
  end.

(** The loop of [StoreBatch] from index [i] on; [hashes] is the slice
    allocated with [len(contents)] entries. *)
Fixpoint StoreBatch_from (i : nat) (hashes : list string)
         (contents : list (list byte)) : M t (list string) :=
  match contents with
  | [] => ret hashes
  | content :: rest =>
      fun s => match Store content s with
               | (Ok hash, s') =>
                   StoreBatch_from (S i) (<[i := hash]> hashes) rest s'
               | (Err e, s') =>
                   (Err (StoringContent i e),
                    snd (rollback (take i hashes) s'))
               end
  end.

Definition StoreBatch (contents : list (list byte)) : M t (list string) :=
  StoreBatch_from 0 (replicate (List.length contents) "") contents.

Fixpoint GetBatch_from (i : nat) (contents : list (list byte))
         (hashes : list string) : M t (list (list byte)) :=
  match hashes with
  | [] => ret contents
  | hash :: rest =>
      fun s => match Get hash s with
               | (Ok content, s') =>
                   GetBatch_from (S i) (<[i := content]> contents) rest s'
               | (Err e, s') => (Err (GettingContent hash e), s')
               end
  end.

Definition GetBatch (hashes : list string) : M t (list (list byte)) :=
  GetBatch_from 0 (replicate (List.length hashes) []) hashes.

(** [New]: the root directory is created, the cache is empty.  The
    cache constructor refuses a size that is not positive. *)
Definition New (e : Env) (Root : string) (CacheSize : nat) (BatchSize : Z)
  : result t :=
  if String.eqb Root "" then Err (ErrMsg "root directory is required")
  else match fs e !! Root with
       | Some (File _ _ _) => Err (Wrapped "creating root directory" (ErrOS ENOTDIR))
       | _ =>
           if (CacheSize =? 0)%nat
           then Err (Wrapped "creating cache" (ErrMsg "must provide a positive size"))
           else Ok (mk Root (Lru.New CacheSize)
                       (if BatchSize =? 0 then 1000 else BatchSize) None
                       (mkEnv (<[Root := Dir]> (fs e)) (db e) (clock e)))
       end.

End Safe.

(* ===================================================================== *)
(** * internal/diff/diff.go *)
(* ===================================================================== *)

Module Diff.

Inductive LineType : Type := Context | Addition | Deletion.

Record Line : Type := mkLine {
  Type_ : LineType; Content : string; OldNum : Z; NewNum : Z
}.

Record Hunk : Type := mkHunk {
  OldStart : Z; OldLines : Z; NewStart : Z; NewLines : Z;
  Lines : list Line
}.

Record Stats : Type := mkStats {
  Additions : Z; Deletions : Z; Changes : Z
}.

Record DiffResult : Type := mkResult { Hunks : list Hunk; Stats_ : Stats }.

Record Engine : Type := NewEngine { contextLines : Z }.

Definition newline : byte := x0a.

Fixpoint bytes_Equal (a b : list byte) : bool :=
  match a, b with
  | [], [] => true
  | x :: a', y :: b' => Byte.eqb x y && bytes_Equal a' b'
  | _, _ => false
  end.

(** [bytes.TrimSuffix(s, "\n")] *)
Fixpoint TrimSuffix_nl (s : list byte) : list byte :=
  match s with
  | [] => []
  | [c] => if Byte.eqb c newline then [] else [c]
  | c :: r => c :: TrimSuffix_nl r
  end.

(** [bytes.Split(s, "\n")]: always at least one piece. *)
Fixpoint Split_nl (s : list byte) : list (list byte) :=
  match s with
  | [] => [[]]
  | c :: r =>
      if Byte.eqb c newline then [] :: Split_nl r
      else match Split_nl r with
           | l :: ls => (c :: l) :: ls
           | [] => [[c]]
           end
  end.

Definition line_at (lines : list (list byte)) (i : Z) : list byte :=
  List.nth (Z.to_nat i) lines [].

Definition mget (m : list (list Z)) (i j : Z) : Z :=
  List.nth (Z.to_nat j) (List.nth (Z.to_nat i) m []) 0.
Definition mset (m : list (list Z)) (i j : Z) (v : Z) : list (list Z) :=
  <[Z.to_nat i := <[Z.to_nat j := v]> (List.nth (Z.to_nat i) m [])]> m.

Definition len {A} (l : list A) : Z := Z.of_nat (List.length l).

(** [computeLCS]: the matrix is filled row by row, in place. *)
Definition computeLCS (oldLines newLines : list (list byte)) : list (list Z) :=
  let matrix :=
    replicate (List.length oldLines + 1) (replicate (List.length newLines + 1) 0) in
  foldl (fun m i =>
           foldl (fun m j =>
                    if bytes_Equal (line_at oldLines (i - 1)) (line_at newLines (j - 1))
                    then mset m i j (mget m (i - 1) (j - 1) + 1)
                    else mset m i j (Z.max (mget m (i - 1) j) (mget m i (j - 1))))
                 m (seqZ 1 (len newLines)))
        matrix (seqZ 1 (len oldLines)).

Definition prepend (ty : LineType) (content : list byte) (h : Hunk) : Hunk :=
  mkHunk (OldStart h) (OldLines h) (NewStart h) (NewLines h)
         (mkLine ty (string_of_list_byte content) 0 0 :: Lines h).
Definition append (ty : LineType) (content : list byte) (h : Hunk) : Hunk :=
  mkHunk (OldStart h) (OldLines h) (NewStart h) (NewLines h)
         (Lines h ++ [mkLine ty (string_of_list_byte content) 0 0]).
Definition incNewLines (h : Hunk) : Hunk :=
  mkHunk (OldStart h) (OldLines h) (NewStart h) (NewLines h + 1) (Lines h).
Definition incOldLines (h : Hunk) : Hunk :=
  mkHunk (OldStart h) (OldLines h + 1) (NewStart h) (NewLines h) (Lines h).

(** The loop variables of [extractHunks]. *)
Record walk : Type := mkWalk {
  wi : Z; wj : Z; currentHunk : option Hunk; hunks : list Hunk
}.

Definition orNew (cur : option Hunk) (i j : Z) : Hunk :=
  match cur with
  | None => mkHunk i 0 j 0 []
  | Some h => h
  end.

(** One iteration of the loop body, the closing test at its end
    included. *)
Definition walk_step (oldLines newLines : list (list byte)) (lcs : list (list Z))
           (w : walk) : walk :=
  let i := wi w in
  let j := wj w in
  let cur := currentHunk w in
  let '(i', j', cur') :=
    if (0 <? i) && (0 <? j)
       && bytes_Equal (line_at oldLines (i - 1)) (line_at newLines (j - 1))
    then (i - 1, j - 1, option_map (prepend Context (line_at oldLines (i - 1))) cur)
    else if (0 <? j) && ((i =? 0) || (mget lcs i (j - 1) >=? mget lcs (i - 1) j))
    then (i, j - 1,
          Some (incNewLines (prepend Addition (line_at newLines (j - 1)) (orNew cur i j))))
    else if (0 <? i) && ((j =? 0) || (mget lcs i (j - 1) <? mget lcs (i - 1) j))
    then (i - 1, j,
          Some (incOldLines (prepend Deletion (line_at oldLines (i - 1)) (orNew cur i j))))
    else (i, j, cur) in
  match cur' with
  | Some h =>
      if (0 <? len (Lines h)) then mkWalk i' j' None (h :: hunks w)
      else mkWalk i' j' cur' (hunks w)
  | None => mkWalk i' j' None (hunks w)
  end.

(** [for i > 0 || j > 0 { ... }]; every iteration lowers [i + j], so
    [len(old) + len(new)] rounds of fuel are enough. *)
Fixpoint walk_loop (fuel : nat) (oldLines newLines : list (list byte))
         (lcs : list (list Z)) (w : walk) : walk :=
  match fuel with
  | O => w
  | S fuel' =>
      if (0 <? wi w) || (0 <? wj w)
      then walk_loop fuel' oldLines newLines lcs (walk_step oldLines newLines lcs w)
      else w
  end.

Definition extractHunks (oldLines newLines : list (list byte)) (lcs : list (list Z))
  : list Hunk :=
  hunks (walk_loop (List.length oldLines + List.length newLines) oldLines newLines lcs
                   (mkWalk (len oldLines) (len newLines) None [])).

(** [addContextLines]; [idx] is the index of the hunk in [hunks]. *)
Definition addContext (e : Engine) (oldLines : list (list byte)) (count : Z)
           (idx : Z) (hunk : Hunk) : Hunk :=
  let contextStart := Z.max 0 (OldStart hunk - contextLines e) in
  let hunk :=
    foldl (fun h j => prepend Context (line_at oldLines j) h) hunk
          (seqZ contextStart (OldStart hunk - contextStart)) in
  if idx <? count - 1 then
    let contextEnd :=
      Z.min (len oldLines) (OldStart hunk + OldLines hunk + contextLines e) in
    foldl (fun h j => append Context (line_at oldLines j) h) hunk
          (seqZ (OldStart hunk + OldLines hunk)
                (contextEnd - (OldStart hunk + OldLines hunk)))
  else hunk.

Definition addContextLines (e : Engine) (hs : list Hunk)
           (oldLines : list (list byte)) : list Hunk :=
  if contextLines e =? 0 then hs
  else imap (fun idx h => addContext e oldLines (len hs) (Z.of_nat idx) h) hs.

Definition count_type (ty : LineType) (hs : list Hunk) : Z :=
  foldl (fun n h =>
           foldl (fun n l =>
                    match Type_ l, ty with
                    | Addition, Addition | Deletion, Deletion => n + 1
                    | _, _ => n
                    end) n (Lines h)) 0 hs.

Definition Diff (e : Engine) (oldContent newContent : list byte) : result DiffResult :=
  let oldLines := Split_nl (TrimSuffix_nl oldContent) in
  let newLines := Split_nl (TrimSuffix_nl newContent) in
  let lcs := computeLCS oldLines newLines in
  let hs := extractHunks oldLines newLines lcs in
  let hs := addContextLines e hs oldLines in
  let additions := count_type Addition hs in
  let deletions := count_type Deletion hs in
  Ok (mkResult hs (mkStats additions deletions (additions + deletions))).

End Diff.

(* ===================================================================== *)
(** * The key-value store as the workspace and the tracker use it *)
(* ===================================================================== *)

(** [bytes.TrimPrefix(key, prefix)] on a key that has the prefix. *)
Definition TrimPrefix (pre key : string) : string :=
  if String.prefix pre key then slice_from (String.length pre) key else key.

Definition key_le (a b : string * dbval) : Prop := String.le a.1 b.1.

#[global] Instance key_le_dec : RelDecision key_le :=
  fun a b => String.le_dec a.1 b.1.

(** A Badger iterator with [opts.Prefix]: the entries whose key starts
    with the prefix, in key order. *)
Definition db_iterate (pre : string) (d : gmap string dbval)
  : list (string * dbval) :=
  merge_sort key_le (List.filter (fun kv => String.prefix pre kv.1) (map_to_list d)).

(** [utils.HashContent] *)
Definition HashContent (content : list byte) : string :=
  Hex.EncodeToString (Sha256.Sum256 content).

(** The fields of [os.FileInfo] the code reads. *)
Definition info_Size (n : node) : Z :=
  match n with File data _ _ => Z.of_nat (List.length data) | Dir => 4096 end.
Definition info_Mode (n : node) : Z :=
  match n with File _ mode _ => mode | Dir => 2147484141 (* ModeDir|0755 *) end.
Definition info_ModTime (n : node) : Z :=
  match n with File _ _ mtime => mtime | Dir => 0 end.

(** [strings.Split(s, "/")] *)
Fixpoint split_sep (s : string) : list string :=
  match s with
  | EmptyString => [""]
  | String c r =>
      if Ascii.eqb c "/" then "" :: split_sep r
      else match split_sep r with
           | p :: ps => String c p :: ps
           | [] => [String c ""]
           end
  end.

(* ===================================================================== *)
(** * path/filepath with cleaning *)
(* ===================================================================== *)

(** [filepath.Clean] on Unix paths, as the standard library computes it:
    the characters are read left to right into an output buffer;
    [dotdot] is the length below which the buffer may not be cut back. *)
Definition is_sep (c : ascii) : bool := Ascii.eqb c "/".

(** [for out.w > dotdot && !os.IsPathSeparator(out.index(out.w)) { out.w-- }] *)
Fixpoint backtrack (fuel : nat) (out : list ascii) (dotdot w : nat) : nat :=
  match fuel with
  | O => w
  | S fuel' =>
      if (dotdot <? w)%nat && negb (is_sep (List.nth w out "/"%char))
      then backtrack fuel' out dotdot (w - 1)
      else w
  end.

Fixpoint take_elem (p : list ascii) : list ascii * list ascii :=
  match p with
  | [] => ([], [])
  | c :: rest =>
      if is_sep c then ([], p)
      else let '(e, r) := take_elem rest in (c :: e, r)
  end.

Fixpoint clean_loop (fuel : nat) (rooted : bool) (rest out : list ascii)
         (dotdot : nat) : list ascii :=
  match fuel with
  | O => out
  | S fuel' =>
      match rest with
      | [] => out
      | c :: rest1 =>
          let at_end_or_sep (l : list ascii) :=
            match l with [] => true | d :: _ => is_sep d end in
          if is_sep c then
            (* empty path element *)
            clean_loop fuel' rooted rest1 out dotdot
          else if Ascii.eqb c "." && at_end_or_sep rest1 then
            (* . element *)
            clean_loop fuel' rooted rest1 out dotdot
          else if Ascii.eqb c "."
                  && match rest1 with
                     | d :: rest2 => Ascii.eqb d "." && at_end_or_sep rest2
                     | [] => false
                     end then
            (* .. element: remove to last separator *)
            let rest2 := List.tl rest1 in
            if (dotdot <? List.length out)%nat then
              let w := backtrack (List.length out) out dotdot (List.length out - 1) in
              clean_loop fuel' rooted rest2 (take w out) dotdot
            else if negb rooted then
              let out1 := if (0 <? List.length out)%nat then (out ++ ["/"%char])%list
                          else out in
              let out2 := (out1 ++ ["."%char; "."%char])%list in
              clean_loop fuel' rooted rest2 out2 (List.length out2)
            else clean_loop fuel' rooted rest2 out dotdot
          else
            (* real path element: add slash if needed, copy element *)
            let out1 :=
              if (rooted && negb (List.length out =? 1)%nat)
                 || (negb rooted && negb (List.length out =? 0)%nat)
              then (out ++ ["/"%char])%list else out in
            let '(elem, rest') := take_elem rest in
            clean_loop fuel' rooted rest' (out1 ++ elem)%list dotdot
      end
  end.

Definition filepath_Clean (path : string) : string :=
  match list_ascii_of_string path with
  | [] => "."
  | (c :: rest) as p =>
      let rooted := is_sep c in
      let out :=
        if rooted then clean_loop (List.length p) true rest ["/"%char] 1
        else clean_loop (List.length p) false p [] 0 in
      match out with
      | [] => "."
      | _ => string_of_list_ascii out
      end
  end.

(** [filepath.Join]: the elements from the first non-empty one on are
    joined with the separator and the result is cleaned; the empty
    string when every element is empty. *)
Fixpoint join_from (elems : list string) : string :=
  match elems with
  | [] => ""
  | e :: rest =>
      if String.eqb e "" then join_from rest
      else filepath_Clean (String.concat "/" elems)
  end.
Definition filepath_Join_clean (elems : list string) : string := join_from elems.

(** The loop over the path components shared, line for line, by
    [LocalWorkspace.shouldIgnore] and by [shouldIgnorePath] of the
    parcel: empty parts are skipped, a part that starts with a dot or
    that names one of the listed directories ends the loop. *)
Fixpoint ignored_part (parts : list string) : bool :=
  match parts with
  | [] => false
  | part :: rest =>
      if String.eqb part "" then ignored_part rest
      else if String.prefix "." part then true
      else if existsb (String.eqb part)
                ["node_modules"; "vendor"; "dist"; "build"; ".git"; ".tig"]
      then true
      else ignored_part rest
  end.

(* ===================================================================== *)
(** * internal/workspace/local.go *)
(* ===================================================================== *)

Module LocalWorkspace.

(** [w.DB] and the database of [w.ContentSafe] are one Badger store;
    the model reaches it, the disk and the clock through the Safe. *)
Record t : Type := mk {
  Root : string;
  ContentSafe : Safe.t;
  GatedChanges : gmap string Change;
  Tracked : gmap string bool
}.

Definition DB (w : t) : gmap string dbval := db (Safe.env (ContentSafe w)).
Definition FS (w : t) : gmap string node := fs (Safe.env (ContentSafe w)).

Definition set_safe (f : Safe.t -> Safe.t) (w : t) : t :=
  mk (Root w) (f (ContentSafe w)) (GatedChanges w) (Tracked w).
Definition set_gated (f : gmap string Change -> gmap string Change) (w : t) : t :=
  mk (Root w) (ContentSafe w) (f (GatedChanges w)) (Tracked w).
Definition set_DB (f : gmap string dbval -> gmap string dbval) : t -> t :=
  set_safe (Safe.set_db f).

(** A call into the Safe (or into the OS) from a workspace method. *)
Definition lift {A} (m : M Safe.t A) : M t A :=
  fun w => let '(r, s') := m (ContentSafe w) in (r, set_safe (fun _ => s') w).

Definition gatedChangePrefix : string := "gated/".

(** [CleanupGatedChanges]: the test made on one entry of the map. *)
Definition orphaned (w : t) (path : string) (changeObj : Change) : bool :=
  let absPath := filepath_Join [Root w; path] in
  match fst (Safe.os_Stat absPath (ContentSafe w)) with
  | Ok _ => false                                   (* file exists: continue *)
  | Err e =>
      if negb (Safe.os_IsNotExist e) then false     (* warn and continue *)
      else
        let newHash := NewHash changeObj in
        let newHash := if String.eqb newHash "" then OldHash changeObj else newHash in
        if String.eqb newHash "" then false
        else if (String.length newHash <? 2)%nat then false
        else
          let contentDir := slice 0 2 newHash in
          let contentPath :=
            filepath_Join [Root w; ".tig"; "content"; contentDir; newHash] in
          match fst (Safe.os_Stat contentPath (ContentSafe w)) with
          | Ok _ => false
          | Err e' => Safe.os_IsNotExist e'
          end
  end.

Definition CleanupGatedChanges : M t unit :=
  fun w =>
    let toRemove :=
      List.map fst
        (List.filter (fun pc => orphaned w pc.1 pc.2) (map_to_list (GatedChanges w))) in
    (Ok tt, set_gated (fun g => foldl (fun g path => delete path g) g toRemove) w).

(** [Ungate] *)
Fixpoint Ungate (paths : list string) : M t unit :=
  match paths with
  | [] => ret tt
  | path :: rest =>
      (modify (set_gated (delete path)) ;;;
       wrap ("deleting gated change for " +:+ path)
            (modify (set_DB (delete (gatedChangePrefix +:+ path)))) ;;;
       Ungate rest)%go
  end.

(** The iterator loop of [LoadGatedChanges]. *)
Fixpoint load_loop (items : list (string * dbval)) : M t unit :=
  match items with
  | [] => ret tt
  | (key, val) :: rest =>
      let path := TrimPrefix "gated:" key in
      match val with
      | VChange change =>
          (modify (set_gated (insert path change)) ;;; load_loop rest)%go
      | _ => fail ErrUnmarshal
      end
  end.

Definition LoadGatedChanges : M t unit :=
  (modify (set_gated (fun _ => ∅)) ;;;
   w <- gets id ;;
   load_loop (db_iterate "gated:" (DB w)))%go.

(** [saveGatedChanges]: one [txn.Set] per entry of the map. *)
Definition saveGatedChanges : M t unit :=
  fun w =>
    (Ok tt,
     set_DB (fun d => map_fold (fun path change d =>
                                 <["gated:" +:+ path := VChange change]> d)
                               d (GatedChanges w)) w).

Definition storeFileState (path : string) (state : FileState) : M t unit :=
  modify (set_DB (insert ("file_state:" +:+ path) (VFileState state))).

Definition deleteFileState (path : string) : M t unit :=
  modify (set_DB (delete ("file_state:" +:+ path))).

Definition getFileState (path : string) : M t FileState :=
  fun w => match DB w !! ("file_state:" +:+ path) with
           | None => (Err ErrKeyNotFound, w)
           | Some (VFileState st) => (Ok st, w)
           | Some _ => (Err (Wrapped "retrieving file state" ErrUnmarshal), w)
           end.

(** [gateFile] *)
Definition gateFile (relPath : string) : M t unit :=
  (w0 <- gets id ;;
   let absPath := filepath_Join [Root w0; relPath] in
   content <- wrap "reading file" (lift (Safe.os_ReadFile absPath)) ;;
   let currentHash := HashContent content in
   wrap "storing content" (lift (Safe.Store content)) ;;;
   info <- wrap "getting file info" (lift (Safe.os_Stat absPath)) ;;
   w1 <- gets id ;;
   let changeType :=
     match GatedChanges w1 !! relPath with
     | Some _ => "modify"
     | None => "add"
     end in
   modify (set_gated (insert relPath
     (mkChange relPath changeType "" "" currentHash (info_Mode info)
               (info_Size info) (info_ModTime info) "" [] true ""))))%go.

(** [NewLocalWorkspace] *)
Definition NewLocalWorkspace (Root : string) (ContentSafe : Safe.t) : result t :=
  match LoadGatedChanges (mk Root ContentSafe ∅ ∅) with
  | (Ok _, ws) => Ok ws
  | (Err e, _) => Err e
  end.

(** [shouldIgnore] *)
Definition shouldIgnore (w : t) (path : string) : bool :=
  if String.eqb path "" then true
  else
    let absPath := filepath_Join_clean [Root w; path] in
    if String.eqb absPath (Root w) then false
    else ignored_part (split_sep path).

(** [ShowFileDiff]: the previous state is looked up; without one the
    old content stays nil, and a failing [Get] gives the empty slice. *)
Definition ShowFileDiff (path : string) : M t Diff.DiffResult :=
  (w0 <- gets id ;;
   let absPath := filepath_Join [Root w0; path] in
   currentContent <- wrap "reading file" (lift (Safe.os_ReadFile absPath)) ;;
   fun w =>
     match getFileState path w with
     | (Ok prevState, w1) =>
         match lift (Safe.Get (fs_Hash prevState)) w1 with
         | (Ok oldContent, w2) =>
             (Diff.Diff (Diff.NewEngine 3) oldContent currentContent, w2)
         | (Err _, w2) => (Diff.Diff (Diff.NewEngine 3) [] currentContent, w2)
         end
     | (Err ErrKeyNotFound, w1) =>
         (Diff.Diff (Diff.NewEngine 3) [] currentContent, w1)
     | (Err e, w1) => (Err e, w1)
     end)%go.




End LocalWorkspace.

(* ===================================================================== *)
(** * internal/change/auto_tracker.go *)
(* ===================================================================== *)

Module LocalTracker.

Record t : Type := mk {
  Root : string;
  ContentSafe : Safe.t;
  Tracked : gmap string bool;
  GatedChanges : gmap string Change
}.

Definition DB (lt : t) : gmap string dbval := db (Safe.env (ContentSafe lt)).

Definition set_safe (f : Safe.t -> Safe.t) (lt : t) : t :=
  mk (Root lt) (f (ContentSafe lt)) (Tracked lt) (GatedChanges lt).
Definition set_tracked (f : gmap string bool -> gmap string bool) (lt : t) : t :=
  mk (Root lt) (ContentSafe lt) (f (Tracked lt)) (GatedChanges lt).
Definition set_gated (f : gmap string Change -> gmap string Change) (lt : t) : t :=
  mk (Root lt) (ContentSafe lt) (Tracked lt) (f (GatedChanges lt)).
Definition set_DB (f : gmap string dbval -> gmap string dbval) : t -> t :=
  set_safe (Safe.set_db f).

Definition lift {A} (m : M Safe.t A) : M t A :=
  fun lt => let '(r, s') := m (ContentSafe lt) in (r, set_safe (fun _ => s') lt).

(** [saveTrackedFiles]: every [tracked:] key is deleted, then one key
    per entry of the map is written with an empty value. *)
Definition saveTrackedFiles : M t unit :=
  fun lt =>
    let cleared :=
      foldl (fun d kv => delete kv.1 d) (DB lt) (db_iterate "tracked:" (DB lt)) in
    (Ok tt,
     set_DB (fun _ => map_fold (fun path (_ : bool) d => <["tracked:" +:+ path := VNil]> d)
                               cleared (Tracked lt)) lt).

Definition storeFileState (path : string) (state : FileState) : M t unit :=
  modify (set_DB (insert ("file_state:" +:+ path) (VFileState state))).

Definition updateFileState (change : Change) : M t unit :=
  modify (set_DB (insert ("file_state:" +:+ Path change)
                         (VFileState (mkFileState (NewHash change) (ModTime change)
                                                  (ChSize change))))).

Definition deleteFileState (path : string) : M t unit :=
  modify (set_DB (delete ("file_state:" +:+ path))).

Definition getFileState (path : string) : M t FileState :=
  fun lt => match DB lt !! ("file_state:" +:+ path) with
            | None => (Err ErrKeyNotFound, lt)
            | Some (VFileState st) => (Ok st, lt)
            | Some _ => (Err (Wrapped "retrieving file state" ErrUnmarshal), lt)
            end.

(** [Untrack] *)
Fixpoint Untrack_loop (paths : list string) : M t unit :=
  match paths with
  | [] => ret tt
  | path :: rest =>
      fun lt =>
        let lt1 := set_tracked (delete path) lt in
        match deleteFileState path lt1 with
        | (Ok _, lt2) => Untrack_loop rest lt2
        | (Err ErrKeyNotFound, lt2) => Untrack_loop rest lt2
        | (Err e, lt2) =>
            (Err (Wrapped ("deleting file state for " +:+ path) e), lt2)
        end
  end.

Definition Untrack (paths : list string) : M t unit :=
  (Untrack_loop paths ;;; saveTrackedFiles)%go.

(** [LocalTracker.Gate] *)
Definition Gate (path : string) : M t unit :=
  (lt0 <- gets id ;;
   let absPath := filepath_Join [Root lt0; path] in
   info <- wrap ("accessing file " +:+ path) (lift (Safe.os_Stat absPath)) ;;
   content <- wrap ("reading file " +:+ path) (lift (Safe.os_ReadFile absPath)) ;;
   let currentHash := HashContent content in
   wrap "storing content" (lift (Safe.Store content)) ;;;
   let change :=
     mkChange path "modify" "" "" currentHash (info_Mode info)
              (info_Size info) (info_ModTime info) "" [] true "" in
   modify (set_gated (insert path change)) ;;;
   modify (set_DB (insert ("gated:" +:+ path) (VChange change))))%go.

(** [hashChangeSet]: the four fields of each change are written to
    the hash one after the other. *)
Definition hashChangeSet (changes : list Change) : string :=
  Hex.EncodeToString
    (Sha256.Sum256
       (List.flat_map
          (fun change =>
             list_byte_of_string (Path change) ++ list_byte_of_string (Type_ change)
             ++ list_byte_of_string (NewHash change)
             ++ list_byte_of_string (OldHash change))%list
          changes)).

(** [LocalTracker.ShowFileDiff]; [DiffEngine] is the field of that name,
    which [NewLocalTracker] sets to [diff.NewEngine(3)]. *)
Definition ShowFileDiff (DiffEngine : Diff.Engine) (path : string)
  : M t Diff.DiffResult :=
  (lt0 <- gets id ;;
   let absPath := filepath_Join [Root lt0; path] in
   currentContent <- wrap "reading file" (lift (Safe.os_ReadFile absPath)) ;;
   prevState <- (fun lt => match getFileState path lt with
                           | (Ok st, lt1) => (Ok st, lt1)
                           | (Err ErrKeyNotFound, lt1) =>
                               (Err (ErrMsg "file not previously tracked"), lt1)
                           | (Err e, lt1) => (Err e, lt1)
                           end) ;;
   oldContent <- wrap "getting previous content"
                      (lift (Safe.Get (fs_Hash prevState))) ;;
   fun lt => (Diff.Diff DiffEngine oldContent currentContent, lt))%go.

End LocalTracker.

Module AutoTracker.

(** The embedded [*LocalTracker] with the ignore table. *)
Definition ignoreDirs : list string :=
  [".git"; ".tig"; "node_modules"; "vendor"; "dist"; "build"].

Definition ShouldIgnore (path : string) : bool :=
  if String.eqb path "" then true
  else existsb (fun part => existsb (String.eqb part) ignoreDirs) (split_sep path).

(** [AutoTracker.gateFile] *)
Definition gateFile (relPath : string) : M LocalTracker.t unit :=
  if ShouldIgnore relPath then ret tt
  else
    (at0 <- gets id ;;
     let absPath := filepath_Join [LocalTracker.Root at0; relPath] in
     content <- wrap "reading file" (LocalTracker.lift (Safe.os_ReadFile absPath)) ;;
     let currentHash := HashContent content in
     wrap "storing content" (LocalTracker.lift (Safe.Store content)) ;;;
     info <- wrap "getting file info" (LocalTracker.lift (Safe.os_Stat absPath)) ;;
     at1 <- gets id ;;
     let changeType :=
       if default false (LocalTracker.Tracked at1 !! relPath) then "modify" else "add" in
     modify (LocalTracker.set_gated (insert relPath
       (mkChange relPath changeType "" "" currentHash (info_Mode info)
                 (info_Size info) (info_ModTime info) "" [] true ""))) ;;;
     modify (LocalTracker.set_tracked (insert relPath true)))%go.

(** [AutoTracker.Untrack]: the file state is left alone. *)
Definition Untrack (paths : list string) : M LocalTracker.t unit :=
  (modify (LocalTracker.set_tracked
             (fun tr => foldl (fun tr path => delete path tr) tr paths)) ;;;
   LocalTracker.saveTrackedFiles)%go.

(** [AutoTracker.ShowFileDiff]: the old content is fetched under the
    hash of the current content. *)
Definition ShowFileDiff (DiffEngine : Diff.Engine) (path : string)
  : M LocalTracker.t Diff.DiffResult :=
  (at0 <- gets id ;;
   let absPath := filepath_Join [LocalTracker.Root at0; path] in
   currentContent <- wrap "reading current file"
                          (LocalTracker.lift (Safe.os_ReadFile absPath)) ;;
   fun lt =>
     match LocalTracker.lift (Safe.Get (HashContent currentContent)) lt with
     | (Ok oldContent, lt1) => (Diff.Diff DiffEngine oldContent currentContent, lt1)
     | (Err _, lt1) => (Diff.Diff DiffEngine [] currentContent, lt1)
     end)%go.

End AutoTracker.

(* ===================================================================== *)
(** * internal/parcel/parcel.go *)
(* ===================================================================== *)

Module Parcel.

(** [shouldIgnorePath] *)
Definition shouldIgnorePath (path : string) : bool :=
  if String.eqb path "" then true
  else ignored_part (split_sep path).

End Parcel.

(* ===================================================================== *)
(** * internal/content/store.go *)
(* ===================================================================== *)

(** The file store of the [content] package.  Its methods slice the
    hash they are given without checking its length: a result [None]
    is the run-time panic of an out-of-range slice. *)
Module FileStore.

Record t : Type := mk {
  root : string;
  cache : gmap string (list byte);
  disk : gmap string node;
  now : Z
}.

Definition set_disk (f : gmap string node -> gmap string node) (s : t) : t :=
  mk (root s) (cache s) (f (disk s)) (now s).
Definition set_cache (f : gmap string (list byte) -> gmap string (list byte))
           (s : t) : t :=
  mk (root s) (f (cache s)) (disk s) (now s).

(** [os.MkdirAll], [os.WriteFile] and [os.Stat] on this state, as for
    the Safe. *)
Definition os_MkdirAll (p : string) : M t unit :=
  fun s => match disk s !! p with
           | Some (File _ _ _) => (Err (ErrOS ENOTDIR), s)
           | _ => (Ok tt, set_disk (insert p Dir) s)
           end.

Definition os_WriteFile (p : string) (data : list byte) (perm : Z) : M t unit :=
  fun s => match disk s !! p with
           | Some Dir => (Err (ErrOS EISDIR), s)
           | Some (File _ mode _) => (Ok tt, set_disk (insert p (File data mode (now s))) s)
           | None => (Ok tt, set_disk (insert p (File data perm (now s))) s)
           end.

(** [Store] *)
Definition Store (content : list byte) : M t string :=
  let hash := Hex.EncodeToString (Sha256.Sum256 content) in
  (s0 <- gets id ;;
   let path := filepath_Join [root s0; slice 0 2 hash; slice_from 2 hash] in
   wrap "creating content directory" (os_MkdirAll (filepath_Dir path)) ;;;
   s1 <- gets id ;;
   (match disk s1 !! path with
    | None => wrap "writing content" (os_WriteFile path content 420 (* 0644 *))
    | Some _ => ret tt
    end) ;;;
   modify (set_cache (insert hash content)) ;;;
   ret hash)%go.

(** [Get]; the error is the [ErrContentNotFound] of this package. *)
Definition Get (hash : string) (s : t) : option (result (list byte)) :=
  if (String.length hash <? 2)%nat then None
  else
    let hashPrefix := slice 0 2 hash in
    let contentPath := filepath_Join [root s; ".tig"; "content"; hashPrefix; hash] in
    Some (match disk s !! contentPath with
          | Some (File data _ _) => Ok data
          | Some Dir => Err (Wrapped "reading content" (ErrOS EISDIR))
          | None => Err (ErrMsg "content not found")
          end).

(** [Exists] *)
Definition Exists (hash : string) (s : t) : option bool :=
  if String.eqb hash "" then Some false
  else match cache s !! hash with
       | Some _ => Some true
       | None =>
           if (String.length hash <? 2)%nat then None
           else
             let path := filepath_Join [root s; slice 0 2 hash; slice_from 2 hash] in
             Some (match disk s !! path with Some _ => true | None => false end)
       end.

End FileStore.

(* ===================================================================== *)
(** * Vocabulary of the specification *)
(* ===================================================================== *)

(** The characters a hash may be made of. *)
Definition is_hex_char (c : ascii) : bool :=
  existsb (Ascii.eqb c) (list_ascii_of_string "0123456789abcdefABCDEF").
Definition is_lower_hex_char (c : ascii) : bool :=
  existsb (Ascii.eqb c) (list_ascii_of_string "0123456789abcdef").

(** 64 hexadecimal characters, of either case. *)
Definition hex64 (h : string) : Prop :=
  String.length h = 64%nat /\
  Forall (fun c => is_hex_char c = true) (list_ascii_of_string h).
(** 64 lowercase hexadecimal characters. *)
Definition lower_hex64 (h : string) : Prop :=
  String.length h = 64%nat /\
  Forall (fun c => is_lower_hex_char c = true) (list_ascii_of_string h).

(** The shard directory of a hash: [<root>/<hash[:2]>]. *)
Definition shardDir (s : Safe.t) (h : string) : string :=
  Safe.root s +:+ "/" +:+ substring 0 2 h.

(** The blob file of [h] holds the bytes [c]. *)
Definition blob_at (s : Safe.t) (h : string) (c : list byte) : Prop :=
  exists mode mtime,
    fs (Safe.env s) !! Safe.contentPath s h = Some (File c mode mtime).

(** The persisted reference count of [h], when it has metadata. *)
Definition refcount (s : Safe.t) (h : string) : option Z :=
  match db (Safe.env s) !! Safe.metaKey h with
  | Some (VMeta m) => Some (RefCount m)
  | _ => None
  end.

(** Metadata, blob files and cache agree: every metadata record under a
    [content:] key is a well-formed, uncompressed record of its own hash
    whose blob file is on disk and hashes to it, and every cached hash
    has metadata and caches the bytes of its blob file. *)
Record consistent (s : Safe.t) : Prop := mkConsistent {
  cons_root : Safe.root s <> "";
  cons_size : (0 < Lru.size (Safe.cache s))%nat;
  cons_meta : forall h v,
    db (Safe.env s) !! Safe.metaKey h = Some v ->
    exists m c, v = VMeta m /\ Hash m = h /\ Compressed m = false /\ hex64 h /\
                blob_at s h c /\ Safe.hashContent c = h;
  cons_cache : forall h c,
    Lru.assoc h (Lru.items (Safe.cache s)) = Some c ->
    is_Some (db (Safe.env s) !! Safe.metaKey h) /\ blob_at s h c
}.

(** Nothing but the root, shard directories and blob files is on disk. *)
Definition fs_shape (s : Safe.t) : Prop :=
  forall p n, fs (Safe.env s) !! p = Some n ->
    (p = Safe.root s /\ n = Dir) \/
    (exists h, hex64 h /\ p = shardDir s h /\ n = Dir) \/
    (exists h c mode mtime,
        hex64 h /\ p = Safe.contentPath s h /\ n = File c mode mtime).

(** A store as [New] makes it on an empty disk and an empty database. *)
Definition fresh (s : Safe.t) : Prop :=
  exists e Root CacheSize BatchSize,
    fs e = ∅ /\ db e = ∅ /\ Safe.New e Root CacheSize BatchSize = Ok s.

(** Sequences of calls. *)
Inductive op : Type :=
  | OpStore (content : list byte)
  | OpGet (hash : string)
  | OpDelete (hash : string).

Definition run_op (s : Safe.t) (o : op) : Safe.t :=
  match o with
  | OpStore content => snd (Safe.Store content s)
  | OpGet hash => snd (Safe.Get hash s)
  | OpDelete hash => snd (Safe.Delete hash s)
  end.

Definition run (ops : list op) (s : Safe.t) : Safe.t := foldl run_op s ops.

Definition is_store (o : op) : bool :=
  match o with OpStore _ => true | _ => false end.

Definition stores (ops : list op) : Z :=
  Z.of_nat (List.length (List.filter is_store ops)).

(** [n] calls of [Store content], then [j] calls of [Delete hash]. *)
Definition store_n (content : list byte) (n : nat) (s : Safe.t) : Safe.t :=
  Nat.iter n (fun s => snd (Safe.Store content s)) s.
Definition delete_n (hash : string) (j : nat) (s : Safe.t) : Safe.t :=
  Nat.iter j (fun s => snd (Safe.Delete hash s)) s.

(** States that the operations of the Safe produce. *)

Definition bumped (m : ContentMeta) : ContentMeta :=
  Safe.with_RefCount m (uint32_wrap (RefCount m + 1)).

Definition stored_state (content : list byte) (mode : Z) (s : Safe.t) : Safe.t :=
  let h := Safe.hashContent content in
  let path := Safe.contentPath s h in
  let e := Safe.env s in
  Safe.mk (Safe.root s) (Lru.Add h content (Safe.cache s)) (Safe.batchSize s)
          (Safe.decompress s)
          (mkEnv (<[path := File content mode (clock e)]>
                    (<[filepath_Dir path := Dir]> (fs e)))
                 (<[Safe.metaKey h :=
                      VMeta (mkMeta h (Z.of_nat (List.length content)) 1 false
                                    (clock e) (clock e + 1))]> (db e))
                 (clock e + 1 + 1)).

(** What [Get] does with the bytes read from disk. *)
Definition decoded (s : Safe.t) (m : ContentMeta) (raw : list byte)
  : result (list byte) :=
  if Compressed m then
    match Safe.decompress s with
    | None => Err ErrNilFunc
    | Some f =>
        match f raw with
        | Ok c => Ok c
        | Err e => Err (Wrapped "decompressing content" e)
        end
    end
  else Ok raw.

Definition fetched_state (h : string) (m : ContentMeta) (content : list byte)
           (s : Safe.t) : Safe.t :=
  let e := Safe.env s in
  Safe.mk (Safe.root s) (Lru.Add h content (Safe.cache s)) (Safe.batchSize s)
          (Safe.decompress s)
          (mkEnv (fs e)
                 (<[Safe.metaKey (Hash m) :=
                      VMeta (Safe.with_AccessedAt m (clock e))]> (db e))
                 (clock e + 1)).

Definition removed_state (h : string) (s : Safe.t) : Safe.t :=
  let e := Safe.env s in
  Safe.mk (Safe.root s) (Lru.Remove h (Safe.cache s)) (Safe.batchSize s)
          (Safe.decompress s)
          (mkEnv (delete (Safe.contentPath s h) (fs e))
                 (delete (Safe.metaKey h) (db e)) (clock e)).

Definition dropped (m : ContentMeta) : ContentMeta :=
  Safe.with_RefCount m (uint32_wrap (RefCount m - 1)).

(** The store [s] with the metadata of [h] set to [m] at count [r]. *)
Definition with_count (h : string) (m : ContentMeta) (r : Z) (s : Safe.t) : Safe.t :=
  Safe.set_db (insert (Safe.metaKey h) (VMeta (Safe.with_RefCount m r))) s.

(** Every persisted metadata record counts between 1 and [n]. *)
Definition counts_between (s : Safe.t) (n : Z) : Prop :=
  forall k m, db (Safe.env s) !! k = Some (VMeta m) -> 1 <= RefCount m <= n.

(** The metadata record [Store] creates. *)
Definition first_meta (content : list byte) (s : Safe.t) : ContentMeta :=
  mkMeta (Safe.hashContent content) (Z.of_nat (List.length content)) 1 false
         (clock (Safe.env s)) (clock (Safe.env s) + 1).

(** The effect of a successful [Store], and of a [Delete], on the count
    of the hash they name. *)
Definition inc_count (x : option Z) : option Z :=
  Some (match x with Some r => uint32_wrap (r + 1) | None => 1 end).
Definition dec_count (x : option Z) : option Z :=
  match x with
  | Some r => if uint32_wrap (r - 1) =? 0 then None else Some (uint32_wrap (r - 1))
  | None => None
  end.

(** How often [h] occurs in a list of hashes. *)
Definition occurrences (h : string) (hs : list string) : nat :=
  List.length (List.filter (String.eqb h) hs).

(** Every count is at least 1 and leaves room for [n] more references. *)
Definition room_for (s : Safe.t) (n : nat) : Prop :=
  Z.of_nat n < 2 ^ 32 /\
  forall h r, refcount s h = Some r -> 1 <= r /\ r + Z.of_nat n < 2 ^ 32.

(** The two buffers of the diff scenario, ["a\nb\nc\n"] and
    ["a\nx\nc\n"]. *)
Definition scenario_old : list byte := ["a"; x0a; "b"; x0a; "c"; x0a]%byte.
Definition scenario_new : list byte := ["a"; x0a; "x"; x0a; "c"; x0a]%byte.

(** The workspace of the staging scenarios: repository [/repo] with one
    file [file.txt] holding ["hello"], its content store under
    [/repo/.tig/content], nothing gated, an empty database. *)
Definition scenario_ws : LocalWorkspace.t :=
  LocalWorkspace.mk "/repo"
    (Safe.mk "/repo/.tig/content" (Lru.New 2) 1000 None
       (mkEnv {[ "/repo/.tig/content" := Dir;
                 "/repo/file.txt" := File (list_byte_of_string "hello") 420 7 ]}
              ∅ 1000))
    ∅ ∅.

(** The same workspace after [Gate(["file.txt"])] has done its work on
    the file: [gateFile], then [saveGatedChanges]. *)
Definition scenario_gated : LocalWorkspace.t :=
  snd (LocalWorkspace.saveGatedChanges
         (snd (LocalWorkspace.gateFile "file.txt" scenario_ws))).

(** The gated change of [file.txt] in that scenario. *)
Definition scenario_change : Change :=
  mkChange "file.txt" "add" "" ""
           "2cf24dba5fb0a30e26e83b2ac5b9e29e1b161e5c1fa7425e73043362938b9824"
           420 5 7 "" [] true "".

(** The tracker of the untracking scenario: [file.txt] is tracked and
    has a recorded file state. *)
Definition scenario_tracker : LocalTracker.t :=
  LocalTracker.mk "/repo"
    (Safe.mk "/repo/.tig/content" (Lru.New 2) 1000 None
       (mkEnv {[ "/repo/.tig/content" := Dir ]}
              {[ "file_state:file.txt" :=
                   VFileState (mkFileState
                     "2cf24dba5fb0a30e26e83b2ac5b9e29e1b161e5c1fa7425e73043362938b9824"
                     7 5);
                 "tracked:file.txt" := VNil ]}
              1000))
    {[ "file.txt" := true ]} ∅.

(** Every blob file on disk belongs to a hash that has metadata. *)
Definition no_orphans (s : Safe.t) : Prop :=
  forall h c mode mtime,
    hex64 h ->
    fs (Safe.env s) !! Safe.contentPath s h = Some (File c mode mtime) ->
    is_Some (refcount s h).

(** The number of lines of type [ty] (an addition or a deletion) among
    the lines of one hunk, counted as the statistics loop of [Diff]
    counts them. *)
Definition changed (ty : Diff.LineType) (ls : list Diff.Line) : Z :=
  foldl (fun n l =>
           match Diff.Type_ l, ty with
           | Diff.Addition, Diff.Addition | Diff.Deletion, Diff.Deletion => n + 1
           | _, _ => n
           end) 0 ls.








(* ==== PROPERTIES ==== *)

(* ===================================================================== *)
(** * Properties *)
(* ===================================================================== *)

Arguments Safe.hashContent : simpl never.
Arguments Safe.contentPath : simpl never.
Arguments Safe.isValidHash : simpl never.
Arguments Safe.metaKey : simpl never.
Arguments filepath_Dir : simpl never.
Arguments uint32_wrap : simpl never.

(** Closed equations are decided by evaluating their left-hand side. *)
Ltac vm_refl :=
  intros;
  lazymatch goal with
  | |- ?l = _ => vm_cast_no_check (@eq_refl _ l)
  end.

(** ** The digest and the hex codec *)

Example sha_empty :
  Hex.EncodeToString (Sha256.Sum256 []) =
  "e3b0c44298fc1c149afbf4c8996fb92427ae41e4649b934ca495991b7852b855".
Proof. vm_refl. Qed.

Example sha_abc :
  Hex.EncodeToString (Sha256.Sum256 (list_byte_of_string "abc")) =
  "ba7816bf8f01cfea414140de5dae2223b00361a396177a9cb410ff61f20015ad".
Proof. vm_refl. Qed.

(* ---- strings ---- *)
Lemma string_length_app (s1 s2 : string) :
  String.length (s1 +:+ s2) = (String.length s1 + String.length s2)%nat.
Proof. induction s1 as [|c s1 IH]; simpl; [reflexivity | now rewrite IH]. Qed.

Lemma list_ascii_app (s1 s2 : string) :
  list_ascii_of_string (s1 +:+ s2) = (list_ascii_of_string s1 ++ list_ascii_of_string s2)%list.
Proof. induction s1 as [|c s1 IH]; simpl; [reflexivity | now rewrite IH]. Qed.

Lemma list_ascii_length (s : string) :
  List.length (list_ascii_of_string s) = String.length s.
Proof. induction s as [|c s IH]; simpl; [reflexivity | now rewrite IH]. Qed.

(* ---- hex ---- *)
Lemma fromHexChar_is_hex (c : ascii) :
  match Hex.fromHexChar c with Some _ => true | None => false end = is_hex_char c.
Proof.
  destruct c as [[] [] [] [] [] [] [] []]; vm_refl.
Qed.

Lemma lower_hex_is_hex (c : ascii) :
  is_lower_hex_char c = true -> is_hex_char c = true.
Proof.
  destruct c as [[] [] [] [] [] [] [] []]; vm_compute; congruence.
Qed.

Lemma digit_hi_lower (b : byte) :
  is_lower_hex_char (Hex.digit (Z.shiftr (Z_of_byte b) 4)) = true.
Proof. destruct b; vm_refl. Qed.

Lemma digit_lo_lower (b : byte) :
  is_lower_hex_char (Hex.digit (Z.land (Z_of_byte b) 15)) = true.
Proof. destruct b; vm_refl. Qed.

Lemma EncodeToString_length (l : list byte) :
  String.length (Hex.EncodeToString l) = (2 * List.length l)%nat.
Proof. induction l as [|b l IH]; simpl; [reflexivity | rewrite IH; lia]. Qed.

Lemma EncodeToString_lower (l : list byte) :
  Forall (fun c => is_lower_hex_char c = true)
         (list_ascii_of_string (Hex.EncodeToString l)).
Proof.
  induction l as [|b l IH]; simpl; [constructor|].
  constructor; [apply digit_hi_lower|].
  constructor; [apply digit_lo_lower | exact IH].
Qed.

Lemma Decode_ok_iff (n : nat) : forall l : list ascii,
  List.length l = n ->
  (is_ok (Hex.Decode l) = true <->
   Nat.Even n /\ Forall (fun c => is_hex_char c = true) l).
Proof.
  induction n as [n IH] using lt_wf_ind. intros l Hl.
  destruct l as [|p [|q rest]].
  - simpl in Hl; subst n. simpl. split; [intros _|reflexivity].
    split; [exists 0%nat; reflexivity | constructor].
  - simpl in Hl; subst n. simpl.
    split.
    + destruct (Hex.fromHexChar p); simpl; discriminate.
    + intros [[k Hk] _]. lia.
  - simpl in Hl. subst n.
    change (Hex.Decode (p :: q :: rest)) with
      (match Hex.fromHexChar p, Hex.fromHexChar q with
       | None, _ => Err (ErrHexInvalidByte p)
       | Some _, None => Err (ErrHexInvalidByte q)
       | Some a, Some b =>
           match Hex.Decode rest with
           | Ok bs => Ok (byte_of_Z (Z.lor (Z.shiftl a 4) b) :: bs)
           | Err e => Err e
           end
       end).
    pose proof (fromHexChar_is_hex p) as Hp.
    pose proof (fromHexChar_is_hex q) as Hq.
    specialize (IH (List.length rest) ltac:(lia) rest eq_refl).
    destruct (Hex.fromHexChar p) as [a|], (Hex.fromHexChar q) as [b|]; simpl.
    + assert (is_ok (match Hex.Decode rest with
                     | Ok bs => Ok (byte_of_Z (Z.lor (Z.shiftl a 4) b) :: bs)
                     | Err e => Err e end) = is_ok (Hex.Decode rest)) as ->
        by (destruct (Hex.Decode rest); reflexivity).
      rewrite IH. split.
      * intros [[k Hk] HF]. split; [exists (S k); lia|].
        constructor; [congruence|]. constructor; [congruence| exact HF].
      * intros [[k Hk] HF]. inversion HF as [|? ? _ HF']; subst.
        inversion HF' as [|? ? _ HF'']; subst.
        split; [exists (k - 1)%nat; lia | exact HF''].
    + split; [discriminate|]. intros [_ HF].
      inversion HF as [|? ? _ HF']; subst. inversion HF' as [|? ? Hq' _]; subst.
      congruence.
    + split; [discriminate|]. intros [_ HF].
      inversion HF as [|? ? Hp' _]; subst. congruence.
    + split; [discriminate|]. intros [_ HF].
      inversion HF as [|? ? Hp' _]; subst. congruence.
Qed.

Lemma isValidHash_iff (h : string) : Safe.isValidHash h = true <-> hex64 h.
Proof.
  unfold Safe.isValidHash, hex64, Hex.DecodeString.
  destruct (Nat.eqb_spec (String.length h) 64) as [Hlen|Hlen]; simpl.
  - rewrite (Decode_ok_iff 64 (list_ascii_of_string h))
      by (rewrite list_ascii_length; exact Hlen).
    split.
    + intros [_ HF]. split; [exact Hlen | exact HF].
    + intros [_ HF]. split; [exists 32%nat; reflexivity | exact HF].
  - split; [discriminate | intros [Hl _]; contradiction].
Qed.

Lemma Sum256_length (data : list byte) : List.length (Sha256.Sum256 data) = 32%nat.
Proof.
  unfold Sha256.Sum256.
  destruct (List.fold_left _ _ _) as [[[[[[[a b] c] d] e] f] g] h].
  reflexivity.
Qed.

Lemma hashContent_lower_hex64 (content : list byte) :
  lower_hex64 (Safe.hashContent content).
Proof.
  unfold lower_hex64, Safe.hashContent. split.
  - rewrite EncodeToString_length, Sum256_length. reflexivity.
  - apply EncodeToString_lower.
Qed.

Lemma lower_hex64_hex64 (h : string) : lower_hex64 h -> hex64 h.
Proof.
  intros [Hl HF]. split; [exact Hl|].
  eapply Forall_impl; [exact HF|]. intros c. apply lower_hex_is_hex.
Qed.

Lemma isValidHash_hashContent (content : list byte) :
  Safe.isValidHash (Safe.hashContent content) = true.
Proof. apply isValidHash_iff, lower_hex64_hex64, hashContent_lower_hex64. Qed.

(** From here on the digest is only ever evaluated by the virtual
    machine; no proof step unfolds it. *)
Opaque Sha256.Sum256 Safe.hashContent HashContent.

(** ** The cache and the paths *)

(* ---- LRU ---- *)
Lemma assoc_remove_key_eq k l : Lru.assoc k (Lru.remove_key k l) = None.
Proof.
  induction l as [|[k' v] l IH]; simpl; [reflexivity|].
  destruct (String.eqb_spec k' k) as [->|Hne]; [exact IH|].
  simpl. destruct (String.eqb_spec k' k); [contradiction | exact IH].
Qed.

Lemma assoc_remove_key_ne k k' l :
  k <> k' -> Lru.assoc k' (Lru.remove_key k l) = Lru.assoc k' l.
Proof.
  intros Hne. induction l as [|[k0 v] l IH]; simpl; [reflexivity|].
  destruct (String.eqb_spec k0 k) as [->|Hk0].
  - destruct (String.eqb_spec k k'); [contradiction | exact IH].
  - simpl. destruct (String.eqb_spec k0 k'); [reflexivity | exact IH].
Qed.

Lemma assoc_removelast k v l :
  Lru.assoc k (List.removelast l) = Some v -> Lru.assoc k l = Some v.
Proof.
  induction l as [|[k0 v0] l IH]; simpl; [discriminate|].
  destruct l as [|e l']; [simpl; discriminate|].
  change (Lru.assoc k ((k0, v0) :: List.removelast (e :: l')) = Some v ->
          (if String.eqb k0 k then Some v0 else Lru.assoc k (e :: l')) = Some v).
  simpl Lru.assoc at 1.
  destruct (String.eqb k0 k); [trivial | exact IH].
Qed.

Lemma Contains_assoc k c :
  Lru.Contains k c = true <-> is_Some (Lru.assoc k (Lru.items c)).
Proof.
  unfold Lru.Contains. destruct (Lru.assoc k (Lru.items c)).
  - split; [eauto | reflexivity].
  - split; [discriminate | intros [? ?]; discriminate].
Qed.

Lemma Contains_false_assoc k c :
  Lru.Contains k c = false <-> Lru.assoc k (Lru.items c) = None.
Proof.
  unfold Lru.Contains. destruct (Lru.assoc k (Lru.items c));
    split; congruence.
Qed.

Lemma Add_size k v c : Lru.size (Lru.Add k v c) = Lru.size c.
Proof.
  unfold Lru.Add. destruct (Lru.Contains k c); [reflexivity|].
  destruct (_ <? _)%nat; reflexivity.
Qed.

Lemma Add_assoc_inv k v c k' v' :
  Lru.assoc k' (Lru.items (Lru.Add k v c)) = Some v' ->
  (k' = k /\ v' = v) \/ (k' <> k /\ Lru.assoc k' (Lru.items c) = Some v').
Proof.
  unfold Lru.Add. destruct (Lru.Contains k c).
  - simpl. destruct (String.eqb_spec k k') as [->|Hne].
    + intros [= ->]. now left.
    + rewrite assoc_remove_key_ne by exact Hne. intros H. right. split; congruence.
  - destruct (_ <? _)%nat; cbn [Lru.items]; intros H.
    + apply assoc_removelast in H. simpl in H.
      destruct (String.eqb_spec k k') as [->|Hne].
      * injection H as ->. now left.
      * right. split; congruence.
    + simpl in H. destruct (String.eqb_spec k k') as [->|Hne].
      * injection H as ->. now left.
      * right. split; congruence.
Qed.

Lemma Add_assoc_eq k v c :
  (0 < Lru.size c)%nat -> Lru.assoc k (Lru.items (Lru.Add k v c)) = Some v.
Proof.
  intros Hsz. unfold Lru.Add. destruct (Lru.Contains k c).
  - simpl. now rewrite String.eqb_refl.
  - destruct (Nat.ltb_spec (Lru.size c) (List.length ((k, v) :: Lru.items c)));
      cbn [Lru.items].
    + destruct (Lru.items c) as [|e l].
      * simpl in *. lia.
      * change (List.removelast ((k, v) :: e :: l))
          with ((k, v) :: List.removelast (e :: l)).
        simpl. now rewrite String.eqb_refl.
    + simpl. now rewrite String.eqb_refl.
Qed.

Lemma Get_fst k c : fst (Lru.Get k c) = Lru.assoc k (Lru.items c).
Proof. unfold Lru.Get. destruct (Lru.assoc k (Lru.items c)); reflexivity. Qed.

Lemma Get_assoc k c k' :
  Lru.assoc k' (Lru.items (snd (Lru.Get k c))) = Lru.assoc k' (Lru.items c).
Proof.
  unfold Lru.Get. destruct (Lru.assoc k (Lru.items c)) eqn:Hk; [|reflexivity].
  simpl. destruct (String.eqb_spec k k') as [->|Hne]; [now rewrite Hk|].
  now apply assoc_remove_key_ne.
Qed.

Lemma Get_size k c : Lru.size (snd (Lru.Get k c)) = Lru.size c.
Proof. unfold Lru.Get. destruct (Lru.assoc k (Lru.items c)); reflexivity. Qed.

Lemma Remove_assoc_eq k c : Lru.assoc k (Lru.items (Lru.Remove k c)) = None.
Proof. apply assoc_remove_key_eq. Qed.

Lemma Remove_assoc_ne k k' c :
  k <> k' -> Lru.assoc k' (Lru.items (Lru.Remove k c)) = Lru.assoc k' (Lru.items c).
Proof. apply assoc_remove_key_ne. Qed.

(* ---- paths ---- *)
Lemma substring_length (s : string) : forall n m,
  (n + m <= String.length s)%nat -> String.length (substring n m s) = m.
Proof.
  induction s as [|c s IH]; intros n m H; simpl in *.
  - destruct n, m; simpl; lia.
  - destruct n as [|n].
    + destruct m as [|m]; simpl; [reflexivity|]. rewrite (IH 0%nat m); lia.
    + apply IH. lia.
Qed.

Lemma substring_full (s : string) : substring 0 (String.length s) s = s.
Proof. induction s as [|c s IH]; simpl; [reflexivity | now rewrite IH]. Qed.

Lemma substring_split (s : string) : forall n,
  (n <= String.length s)%nat ->
  substring 0 n s +:+ substring n (String.length s - n) s = s.
Proof.
  induction s as [|c s IH]; intros n H.
  - destruct n; [reflexivity | simpl in H; lia].
  - destruct n as [|n].
    + rewrite Nat.sub_0_r, substring_full. reflexivity.
    + simpl.
      change (String c (substring 0 n s +:+ substring n (String.length s - n) s)
              = String c s).
      f_equal. apply IH. simpl in H. lia.
Qed.

Lemma substring_Forall (P : ascii -> Prop) (s : string) : forall n m,
  Forall P (list_ascii_of_string s) ->
  Forall P (list_ascii_of_string (substring n m s)).
Proof.
  induction s as [|c s IH]; intros n m H; simpl in *.
  - destruct n, m; simpl; constructor.
  - inversion H as [|? ? Hc Hs]; subst.
    destruct n as [|n].
    + destruct m as [|m]; simpl; [constructor|].
      constructor; [exact Hc | now apply IH].
    + now apply IH.
Qed.

Lemma string_app_assoc (a b c : string) : (a +:+ b) +:+ c = a +:+ b +:+ c.
Proof.
  induction a as [|x a IH]; [reflexivity|].
  change (String x ((a +:+ b) +:+ c) = String x (a +:+ b +:+ c)).
  now rewrite IH.
Qed.

Lemma app_eq_len (a a' x y : string) :
  String.length a = String.length a' -> a +:+ x = a' +:+ y -> a = a' /\ x = y.
Proof.
  revert a'. induction a as [|c a IH]; intros [|c' a'] Hl H; simpl in *;
    try discriminate.
  - now split.
  - injection H as -> H. destruct (IH a' ltac:(lia) H) as [-> ->]. now split.
Qed.

Lemma nonempty_eqb (s : string) :
  String.length s <> 0%nat -> negb (String.eqb s "") = true.
Proof. destruct s; simpl; [congruence | reflexivity]. Qed.

Lemma contentPath_eq (s : Safe.t) (h : string) :
  Safe.root s <> "" -> String.length h = 64%nat ->
  Safe.contentPath s h =
  Safe.root s +:+ "/" +:+ substring 0 2 h +:+ "/" +:+ substring 2 62 h.
Proof.
  intros Hroot Hlen. unfold Safe.contentPath, filepath_Join, slice, slice_from.
  rewrite Hlen. simpl List.filter.
  assert (H1 : negb (String.eqb (Safe.root s) "") = true).
  { destruct (Safe.root s); [congruence | reflexivity]. }
  assert (H2 : negb (String.eqb (substring 0 2 h) "") = true).
  { apply nonempty_eqb. rewrite substring_length; simpl; lia. }
  assert (H3 : negb (String.eqb (substring 2 62 h) "") = true).
  { apply nonempty_eqb. rewrite substring_length; simpl; lia. }
  rewrite H1, H2, H3. reflexivity.
Qed.

Lemma drop_last_no_sep (l : list ascii) :
  Forall (fun c => c <> "/"%char) l -> drop_last_elem l = None.
Proof.
  induction 1 as [|c l Hc _ IH]; simpl; [reflexivity|].
  rewrite IH. destruct (Ascii.eqb_spec c "/"); [contradiction | reflexivity].
Qed.

Lemma drop_last_app (a b : list ascii) :
  Forall (fun c => c <> "/"%char) b ->
  drop_last_elem (a ++ "/"%char :: b) = Some a.
Proof.
  intros Hb. induction a as [|c a IH]; simpl.
  - now rewrite drop_last_no_sep.
  - now rewrite IH.
Qed.

Lemma hex_not_sep (c : ascii) : is_hex_char c = true -> c <> "/"%char.
Proof. intros H ->. vm_compute in H. discriminate. Qed.

Lemma Dir_contentPath (s : Safe.t) (h : string) :
  Safe.root s <> "" -> hex64 h ->
  filepath_Dir (Safe.contentPath s h) = shardDir s h.
Proof.
  intros Hroot [Hlen Hhex]. rewrite contentPath_eq by assumption.
  unfold filepath_Dir, shardDir.
  replace (Safe.root s +:+ "/" +:+ substring 0 2 h +:+ "/" +:+ substring 2 62 h)
    with ((Safe.root s +:+ "/" +:+ substring 0 2 h) +:+ "/" +:+ substring 2 62 h).
  2:{ now rewrite !string_app_assoc. }
  rewrite list_ascii_app. simpl list_ascii_of_string at 2.
  rewrite drop_last_app.
  2:{ eapply Forall_impl; [apply substring_Forall; exact Hhex|].
      intros c. apply hex_not_sep. }
  destruct (list_ascii_of_string (Safe.root s +:+ "/" +:+ substring 0 2 h)) eqn:E.
  - apply (f_equal string_of_list_ascii) in E.
    rewrite string_of_list_ascii_of_string in E.
    destruct (Safe.root s); simpl in E; [congruence | discriminate].
  - rewrite <- E. apply string_of_list_ascii_of_string.
Qed.

Lemma contentPath_inj (s : Safe.t) (h h' : string) :
  Safe.root s <> "" -> String.length h = 64%nat -> String.length h' = 64%nat ->
  Safe.contentPath s h = Safe.contentPath s h' -> h = h'.
Proof.
  intros Hroot Hl Hl' E. rewrite !contentPath_eq in E by assumption.
  apply String.app_inj in E. apply (String.app_inj "/") in E.
  apply app_eq_len in E.
  2:{ rewrite !substring_length; simpl; lia. }
  destruct E as [Ea Eb]. apply (String.app_inj "/") in Eb.
  rewrite <- (substring_split h 2) by lia.
  rewrite <- (substring_split h' 2) by lia.
  rewrite Hl, Hl'. simpl Nat.sub. now rewrite Ea, Eb.
Qed.

Lemma contentPath_length (s : Safe.t) (h : string) :
  Safe.root s <> "" -> String.length h = 64%nat ->
  String.length (Safe.contentPath s h) = (String.length (Safe.root s) + 66)%nat.
Proof.
  intros Hroot Hl. rewrite contentPath_eq by assumption.
  rewrite !string_length_app, !substring_length by (simpl; lia). simpl. lia.
Qed.

Lemma shardDir_length (s : Safe.t) (h : string) :
  String.length h = 64%nat ->
  String.length (shardDir s h) = (String.length (Safe.root s) + 3)%nat.
Proof.
  intros Hl. unfold shardDir.
  rewrite !string_length_app, !substring_length by (simpl; lia). simpl. lia.
Qed.

Lemma contentPath_ne_shardDir (s : Safe.t) (h h' : string) :
  Safe.root s <> "" -> String.length h = 64%nat -> String.length h' = 64%nat ->
  Safe.contentPath s h <> shardDir s h'.
Proof.
  intros Hroot Hl Hl' E. apply (f_equal String.length) in E.
  rewrite contentPath_length, shardDir_length in E by assumption. lia.
Qed.

Lemma metaKey_inj (h h' : string) : Safe.metaKey h = Safe.metaKey h' -> h = h'.
Proof. unfold Safe.metaKey. apply String.app_inj. Qed.

(** ** The operations of the Safe, case by case *)

Lemma contentPath_root (s s' : Safe.t) (h : string) :
  Safe.root s' = Safe.root s -> Safe.contentPath s' h = Safe.contentPath s h.
Proof. intros H. unfold Safe.contentPath. now rewrite H. Qed.

Lemma Exists_eq (h : string) (s : Safe.t) :
  Safe.isValidHash h = true ->
  Safe.Exists h s =
  (if Lru.Contains h (Safe.cache s) then Ok true
   else match db (Safe.env s) !! Safe.metaKey h with
        | None => Ok false
        | Some (VMeta _) => Ok true
        | Some _ => Err ErrUnmarshal
        end, s).
Proof.
  intros Hv. unfold Safe.Exists. rewrite Hv. simpl.
  destruct (Lru.Contains h (Safe.cache s)); [reflexivity|].
  unfold Safe.getMeta. destruct (db (Safe.env s) !! Safe.metaKey h) as [[]|]; reflexivity.
Qed.

Lemma Exists_invalid (h : string) (s : Safe.t) :
  Safe.isValidHash h = false -> Safe.Exists h s = (Err ErrInvalidHash, s).
Proof. intros Hv. unfold Safe.Exists. now rewrite Hv. Qed.


Lemma Store_existing (content : list byte) (s : Safe.t) (m : ContentMeta) :
  db (Safe.env s) !! Safe.metaKey (Safe.hashContent content) = Some (VMeta m) ->
  Safe.Store content s =
  (Ok (Safe.hashContent content),
   Safe.set_db (insert (Safe.metaKey (Hash m)) (VMeta (bumped m))) s).
Proof.
  intros Hm. unfold Safe.Store, bind, wrap.
  rewrite Exists_eq by apply isValidHash_hashContent. rewrite Hm.
  assert ((if Lru.Contains (Safe.hashContent content) (Safe.cache s)
           then Ok true else Ok true) = @Ok bool true) as ->
      by (destruct (Lru.Contains _ _); reflexivity).
  unfold Safe.incrementRefCount, bind, Safe.getMeta. rewrite Hm. reflexivity.
Qed.


Lemma Store_new (content : list byte) (s : Safe.t) :
  let h := Safe.hashContent content in
  let path := Safe.contentPath s h in
  let dir := filepath_Dir path in
  Lru.Contains h (Safe.cache s) = false ->
  db (Safe.env s) !! Safe.metaKey h = None ->
  Safe.Store content s =
  match fs (Safe.env s) !! dir with
  | Some (File _ _ _) =>
      (Err (Wrapped "creating content directory" (ErrOS ENOTDIR)), s)
  | _ =>
      match <[dir := Dir]> (fs (Safe.env s)) !! path with
      | Some Dir =>
          (Err (Wrapped "writing content file" (ErrOS EISDIR)),
           Safe.set_fs (insert dir Dir) s)
      | Some (File _ mode _) => (Ok h, stored_state content mode s)
      | None => (Ok h, stored_state content 420 s)
      end
  end.
Proof.
  intros h path dir Hc Hm. unfold Safe.Store, bind, wrap.
  rewrite Exists_eq by apply isValidHash_hashContent.
  fold h. rewrite Hc, Hm. cbn [gets id]. fold path. fold dir.
  unfold Safe.os_MkdirAll.
  destruct s as [root cache bs dec [fs0 db0 clk]]. cbn [Safe.env fs] in *.
  destruct (fs0 !! dir) as [[d mo mt|]|] eqn:Hdir; [reflexivity| |].
  all: unfold Safe.os_WriteFile, Safe.set_fs, Safe.set_env;
       cbn [Safe.env fs db clock Safe.root Safe.cache Safe.batchSize Safe.decompress];
       destruct (<[dir:=Dir]> fs0 !! path) as [[d' mo' mt'|]|] eqn:Hpath;
       reflexivity.
Qed.

Lemma Get_invalid (h : string) (s : Safe.t) :
  Safe.isValidHash h = false -> Safe.Get h s = (Err ErrInvalidHash, s).
Proof. intros Hv. unfold Safe.Get. now rewrite Hv. Qed.

Lemma Get_hit (h : string) (s : Safe.t) (c : list byte) :
  Safe.isValidHash h = true ->
  Lru.assoc h (Lru.items (Safe.cache s)) = Some c ->
  Safe.Get h s =
  (Ok c, Safe.set_cache (fun _ => snd (Lru.Get h (Safe.cache s))) s).
Proof.
  intros Hv Hc. unfold Safe.Get. rewrite Hv. simpl.
  unfold Lru.Get. rewrite Hc. reflexivity.
Qed.



Lemma Get_miss (h : string) (s : Safe.t) :
  Safe.isValidHash h = true ->
  Lru.assoc h (Lru.items (Safe.cache s)) = None ->
  Safe.Get h s =
  match db (Safe.env s) !! Safe.metaKey h with
  | None => (Err (Wrapped "getting metadata" ErrContentNotFound), s)
  | Some (VMeta m) =>
      match fs (Safe.env s) !! Safe.contentPath s h with
      | None => (Err ErrContentNotFound, s)
      | Some Dir => (Err (Wrapped "reading content" (ErrOS EISDIR)), s)
      | Some (File raw _ _) =>
          match decoded s m raw with
          | Err e => (Err e, s)
          | Ok content =>
              if negb (String.eqb (Safe.hashContent content) h)
              then (Err ErrHashMismatch, s)
              else (Ok content, fetched_state h m content s)
          end
      end
  | Some _ => (Err (Wrapped "getting metadata" ErrUnmarshal), s)
  end.
Proof.
  intros Hv Hc. unfold Safe.Get. rewrite Hv. simpl.
  unfold Lru.Get. rewrite Hc.
  unfold bind, wrap, Safe.getMeta.
  destruct (db (Safe.env s) !! Safe.metaKey h) as [[m| | |]|]; try reflexivity.
  cbn [gets id]. unfold Safe.os_ReadFile.
  destruct (fs (Safe.env s) !! Safe.contentPath s h) as [[raw mo mt|]|];
    try reflexivity.
  unfold decoded.
  destruct (Compressed m).
  - destruct (Safe.decompress s) as [f|]; [|reflexivity].
    destruct (f raw) as [c|e]; [|reflexivity].
    cbn [ret]. destruct (negb _); reflexivity.
  - cbn [ret]. destruct (negb _); reflexivity.
Qed.



Lemma Delete_invalid (h : string) (s : Safe.t) :
  Safe.isValidHash h = false -> Safe.Delete h s = (Err ErrInvalidHash, s).
Proof. intros Hv. unfold Safe.Delete. now rewrite Hv. Qed.

Lemma Delete_eq (h : string) (s : Safe.t) :
  Safe.isValidHash h = true ->
  Safe.Delete h s =
  match db (Safe.env s) !! Safe.metaKey h with
  | None => (Err (Wrapped "getting metadata" ErrContentNotFound), s)
  | Some (VMeta m) =>
      if uint32_wrap (RefCount m - 1) =? 0 then
        match fs (Safe.env s) !! Safe.contentPath s h with
        | Some Dir =>
            if Safe.has_child (Safe.contentPath s h) (fs (Safe.env s))
            then (Err (Wrapped "removing content file" (ErrOS ENOTEMPTY)), s)
            else (Ok tt, removed_state h s)
        | _ => (Ok tt, removed_state h s)
        end
      else (Ok tt, Safe.set_db (insert (Safe.metaKey (Hash m)) (VMeta (dropped m))) s)
  | Some _ => (Err (Wrapped "getting metadata" ErrUnmarshal), s)
  end.
Proof.
  intros Hv. unfold Safe.Delete. rewrite Hv. simpl.
  unfold bind, wrap, Safe.getMeta.
  destruct (db (Safe.env s) !! Safe.metaKey h) as [[m| | |]|]; try reflexivity.
  destruct (uint32_wrap (RefCount m - 1) =? 0); [|reflexivity].
  cbn [gets id]. unfold Safe.os_Remove.
  destruct s as [root cache bs dec [fs0 db0 clk]].
  cbn [Safe.env fs db clock] in *.
  destruct (fs0 !! Safe.contentPath _ h) as [[raw mo mt|]|] eqn:Hp.
  - reflexivity.
  - destruct (Safe.has_child _ fs0); reflexivity.
  - unfold removed_state. cbn. rewrite (delete_id fs0) by exact Hp. reflexivity.
Qed.

(** ** Consistency is preserved *)

Ltac meta_intro m c :=
  exists m, c; split; [|split; [|split; [|split; [|split]]]].

Lemma hex64_length (h : string) : hex64 h -> String.length h = 64%nat.
Proof. now intros [H _]. Qed.

Lemma hashContent_hex64 (content : list byte) : hex64 (Safe.hashContent content).
Proof. apply lower_hex64_hex64, hashContent_lower_hex64. Qed.

(** A state with the same root whose disk agrees on the blob file. *)
Lemma blob_at_transfer (s s' : Safe.t) (h : string) (c : list byte) :
  Safe.root s' = Safe.root s ->
  fs (Safe.env s') !! Safe.contentPath s h = fs (Safe.env s) !! Safe.contentPath s h ->
  blob_at s h c -> blob_at s' h c.
Proof.
  intros Hr Hfs (mode & mtime & Hb). exists mode, mtime.
  rewrite (contentPath_root s s') by exact Hr. now rewrite Hfs.
Qed.

Lemma consistent_hex_of_cached (s : Safe.t) (h : string) (c : list byte) :
  consistent s -> Lru.assoc h (Lru.items (Safe.cache s)) = Some c -> hex64 h.
Proof.
  intros Hs Hc. destruct (cons_cache s Hs h c Hc) as [[v Hv] _].
  destruct (cons_meta s Hs h v Hv) as (m & c' & _ & _ & _ & Hhex & _). exact Hhex.
Qed.

(** Rewriting the metadata record of [h] by a record of the same hash
    and compression flag keeps the store consistent. *)
Lemma consistent_set_meta (s : Safe.t) (h : string) (m m' : ContentMeta) :
  consistent s ->
  db (Safe.env s) !! Safe.metaKey h = Some (VMeta m) ->
  Hash m' = Hash m -> Compressed m' = Compressed m ->
  consistent (Safe.set_db (insert (Safe.metaKey (Hash m)) (VMeta m')) s).
Proof.
  intros Hs Hm HH HC.
  destruct (cons_meta s Hs h _ Hm) as (m0 & c0 & [= <-] & Hh & Hcomp & Hhex & Hb & Hc0).
  rewrite Hh.
  constructor.
  - exact (cons_root s Hs).
  - exact (cons_size s Hs).
  - intros h' v'. cbn. intros Hl.
    destruct (decide (h = h')) as [<-|Hne].
    + rewrite lookup_insert_eq in Hl. injection Hl as <-.
      meta_intro m' c0; congruence || assumption.
    + rewrite lookup_insert_ne in Hl by (intros E; apply metaKey_inj in E; congruence).
      destruct (cons_meta s Hs h' v' Hl) as (m1 & c1 & ? & ? & ? & ? & Hb1 & ?).
      meta_intro m1 c1; assumption.
  - intros h' c' Hc'. cbn in Hc'.
    destruct (cons_cache s Hs h' c' Hc') as [Hsome Hb'].
    split.
    + cbn. destruct (decide (h = h')) as [<-|Hne].
      * rewrite lookup_insert_eq. eauto.
      * rewrite lookup_insert_ne by (intros E; apply metaKey_inj in E; congruence).
        exact Hsome.
    + apply (blob_at_transfer s); [reflexivity | reflexivity | exact Hb'].
Qed.

(** Creating a shard directory disturbs no blob file. *)
Lemma consistent_mkdir (s : Safe.t) (h : string) :
  consistent s -> hex64 h ->
  consistent (Safe.set_fs (insert (shardDir s h) Dir) s).
Proof.
  intros Hs Hhex.
  assert (Hkeep : forall h' c, hex64 h' -> blob_at s h' c ->
                    blob_at (Safe.set_fs (insert (shardDir s h) Dir) s) h' c).
  { intros h' c Hh' Hb. apply (blob_at_transfer s); [reflexivity| |exact Hb].
    cbn. apply lookup_insert_ne. intros E. symmetry in E. revert E.
    apply contentPath_ne_shardDir;
      [exact (cons_root s Hs) | now apply hex64_length..]. }
  constructor.
  - exact (cons_root s Hs).
  - exact (cons_size s Hs).
  - intros h' v' Hl. cbn in Hl.
    destruct (cons_meta s Hs h' v' Hl) as (m1 & c1 & ? & ? & ? & ? & Hb1 & ?).
    meta_intro m1 c1; try assumption. now apply Hkeep.
  - intros h' c' Hc'. cbn in Hc'.
    destruct (cons_cache s Hs h' c' Hc') as [Hsome Hb']. split; [exact Hsome|].
    apply Hkeep; [|exact Hb']. eapply consistent_hex_of_cached; eauto.
Qed.

Lemma consistent_stored (s : Safe.t) (content : list byte) (mode : Z) :
  consistent s ->
  db (Safe.env s) !! Safe.metaKey (Safe.hashContent content) = None ->
  consistent (stored_state content mode s).
Proof.
  intros Hs Hnone. set (h := Safe.hashContent content) in *.
  pose proof (hashContent_hex64 content) as Hhex. fold h in Hhex.
  pose proof (cons_root s Hs) as Hroot.
  assert (Hdir : filepath_Dir (Safe.contentPath s h) = shardDir s h)
    by now apply Dir_contentPath.
  assert (Hkeep : forall h' c, hex64 h' -> h' <> h -> blob_at s h' c ->
                    blob_at (stored_state content mode s) h' c).
  { intros h' c Hh' Hne Hb. apply (blob_at_transfer s); [reflexivity| |exact Hb].
    cbn. fold h. rewrite Hdir.
    rewrite lookup_insert_ne.
    2:{ intros E. apply contentPath_inj in E; [congruence|assumption|now apply hex64_length..]. }
    apply lookup_insert_ne. intros E. symmetry in E. revert E.
    apply contentPath_ne_shardDir; [assumption | now apply hex64_length..]. }
  assert (Hnew : blob_at (stored_state content mode s) h content).
  { exists mode, (clock (Safe.env s)).
    rewrite (contentPath_root s) by reflexivity. cbn. fold h.
    apply lookup_insert_eq. }
  constructor.
  - exact Hroot.
  - cbn. rewrite Add_size. exact (cons_size s Hs).
  - intros h' v' Hl. cbn in Hl. fold h in Hl.
    destruct (decide (h = h')) as [<-|Hne].
    + rewrite lookup_insert_eq in Hl. injection Hl as <-.
      meta_intro (mkMeta h (Z.of_nat (List.length content)) 1 false
                         (clock (Safe.env s)) (clock (Safe.env s) + 1)) content;
        try reflexivity; assumption.
    + rewrite lookup_insert_ne in Hl by (intros E; apply metaKey_inj in E; congruence).
      destruct (cons_meta s Hs h' v' Hl) as (m1 & c1 & ? & ? & ? & Hh' & Hb1 & ?).
      meta_intro m1 c1; try assumption.
      apply Hkeep; [exact Hh' | congruence | exact Hb1].
  - intros h' c' Hc'. cbn in Hc'. fold h in Hc'.
    apply Add_assoc_inv in Hc' as [[-> ->]|[Hne Hc']].
    + split; [|exact Hnew]. cbn. fold h. rewrite lookup_insert_eq. eauto.
    + destruct (cons_cache s Hs h' c' Hc') as [Hsome Hb']. split.
      * cbn. fold h.
        rewrite lookup_insert_ne by (intros E; apply metaKey_inj in E; congruence).
        exact Hsome.
      * apply Hkeep; [|exact Hne|exact Hb'].
        eapply consistent_hex_of_cached; eauto.
Qed.

Lemma consistent_not_cached (s : Safe.t) (h : string) :
  consistent s -> db (Safe.env s) !! Safe.metaKey h = None ->
  Lru.Contains h (Safe.cache s) = false.
Proof.
  intros Hs Hnone. apply Contains_false_assoc.
  destruct (Lru.assoc h (Lru.items (Safe.cache s))) as [c|] eqn:Hc; [|reflexivity].
  destruct (cons_cache s Hs h c Hc) as [[v Hv] _]. congruence.
Qed.

Lemma Store_consistent (content : list byte) (s : Safe.t) :
  consistent s -> consistent (snd (Safe.Store content s)).
Proof.
  intros Hs. set (h := Safe.hashContent content).
  destruct (db (Safe.env s) !! Safe.metaKey h) as [v|] eqn:Hl.
  - destruct (cons_meta s Hs h v Hl) as (m & c & -> & Hh & _).
    unfold h in Hl. rewrite (Store_existing content s m Hl). cbn [snd].
    apply (consistent_set_meta s h m); [exact Hs | exact Hl | reflexivity..].
  - pose proof (consistent_not_cached s h Hs Hl) as Hnc.
    unfold h in *. rewrite (Store_new content s Hnc Hl).
    rewrite (Dir_contentPath s _ (cons_root s Hs) (hashContent_hex64 content)).
    destruct (fs (Safe.env s) !! shardDir s (Safe.hashContent content))
      as [[d mo mt|]|]; [exact Hs| |].
    all: destruct (<[_ := Dir]> (fs (Safe.env s)) !! _) as [[d' mo' mt'|]|]; cbn [snd].
    all: first [ now apply consistent_stored
               | apply consistent_mkdir; [exact Hs | apply hashContent_hex64] ].
Qed.

Lemma consistent_set_cache (s : Safe.t) (c' : Lru.t) :
  consistent s ->
  Lru.size c' = Lru.size (Safe.cache s) ->
  (forall k v, Lru.assoc k (Lru.items c') = Some v ->
               Lru.assoc k (Lru.items (Safe.cache s)) = Some v) ->
  consistent (Safe.set_cache (fun _ => c') s).
Proof.
  intros Hs Hsz Hsub. constructor.
  - exact (cons_root s Hs).
  - cbn. rewrite Hsz. exact (cons_size s Hs).
  - exact (cons_meta s Hs).
  - intros h c Hc. cbn in Hc. apply Hsub in Hc.
    exact (cons_cache s Hs h c Hc).
Qed.

Lemma consistent_fetched (s : Safe.t) (h : string) (m : ContentMeta)
      (content : list byte) :
  consistent s ->
  db (Safe.env s) !! Safe.metaKey h = Some (VMeta m) ->
  blob_at s h content ->
  consistent (fetched_state h m content s).
Proof.
  intros Hs Hm Hb.
  pose proof (consistent_set_meta s h m (Safe.with_AccessedAt m (clock (Safe.env s)))
                Hs Hm eq_refl eq_refl) as Hs1.
  destruct (cons_meta s Hs h _ Hm) as (m0 & c0 & [= <-] & Hh & _).
  constructor.
  - exact (cons_root s Hs).
  - cbn. rewrite Add_size. exact (cons_size s Hs).
  - intros h' v' Hl.
    destruct (cons_meta _ Hs1 h' v' Hl) as (m1 & c1 & ? & ? & ? & ? & Hb1 & ?).
    meta_intro m1 c1; assumption.
  - intros h' c' Hc'. cbn in Hc'.
    apply Add_assoc_inv in Hc' as [[-> ->]|[Hne Hc']].
    + split; [|exact Hb]. cbn. rewrite Hh, lookup_insert_eq. eauto.
    + exact (cons_cache _ Hs1 h' c' Hc').
Qed.

Lemma Get_consistent (h : string) (s : Safe.t) :
  consistent s -> consistent (snd (Safe.Get h s)).
Proof.
  intros Hs. destruct (Safe.isValidHash h) eqn:Hv.
  2:{ now rewrite Get_invalid. }
  destruct (Lru.assoc h (Lru.items (Safe.cache s))) as [c|] eqn:Hc.
  - rewrite (Get_hit h s c Hv Hc). cbn [snd].
    apply consistent_set_cache; [exact Hs | apply Get_size |].
    intros k v. now rewrite Get_assoc.
  - rewrite (Get_miss h s Hv Hc).
    destruct (db (Safe.env s) !! Safe.metaKey h) as [[m| | |]|] eqn:Hm; try exact Hs.
    destruct (fs (Safe.env s) !! Safe.contentPath s h) as [[raw mo mt|]|] eqn:Hp;
      try exact Hs.
    destruct (cons_meta s Hs h _ Hm) as (m0 & c0 & [= <-] & Hh & Hcomp & _).
    unfold decoded. rewrite Hcomp.
    destruct (negb _); [exact Hs|]. cbn [snd].
    apply consistent_fetched; [exact Hs | exact Hm |]. now exists mo, mt.
Qed.

Lemma consistent_removed (s : Safe.t) (h : string) :
  consistent s -> hex64 h -> consistent (removed_state h s).
Proof.
  intros Hs Hhex. pose proof (cons_root s Hs) as Hroot.
  assert (Hkeep : forall h' c, hex64 h' -> h' <> h -> blob_at s h' c ->
                    blob_at (removed_state h s) h' c).
  { intros h' c Hh' Hne Hb. apply (blob_at_transfer s); [reflexivity| |exact Hb].
    cbn. apply lookup_delete_ne. intros E.
    apply contentPath_inj in E; [congruence|assumption|now apply hex64_length..]. }
  constructor.
  - exact Hroot.
  - exact (cons_size s Hs).
  - intros h' v' Hl. cbn in Hl.
    destruct (decide (h = h')) as [<-|Hne].
    + rewrite lookup_delete_eq in Hl. discriminate.
    + rewrite lookup_delete_ne in Hl by (intros E; apply metaKey_inj in E; congruence).
      destruct (cons_meta s Hs h' v' Hl) as (m1 & c1 & ? & ? & ? & Hh' & Hb1 & ?).
      meta_intro m1 c1; try assumption.
      apply Hkeep; [exact Hh' | congruence | exact Hb1].
  - intros h' c' Hc'. unfold removed_state in Hc'. cbn [Safe.cache] in Hc'.
    destruct (decide (h = h')) as [<-|Hne].
    + rewrite Remove_assoc_eq in Hc'. discriminate.
    + rewrite Remove_assoc_ne in Hc' by exact Hne.
      destruct (cons_cache s Hs h' c' Hc') as [Hsome Hb']. split.
      * cbn.
        rewrite lookup_delete_ne by (intros E; apply metaKey_inj in E; congruence).
        exact Hsome.
      * apply Hkeep; [|congruence|exact Hb'].
        eapply consistent_hex_of_cached; eauto.
Qed.

Lemma Delete_consistent (h : string) (s : Safe.t) :
  consistent s -> consistent (snd (Safe.Delete h s)).
Proof.
  intros Hs. destruct (Safe.isValidHash h) eqn:Hv.
  2:{ now rewrite Delete_invalid. }
  rewrite (Delete_eq h s Hv).
  destruct (db (Safe.env s) !! Safe.metaKey h) as [[m| | |]|] eqn:Hm; try exact Hs.
  destruct (uint32_wrap (RefCount m - 1) =? 0).
  - assert (consistent (removed_state h s))
      by (apply consistent_removed; [exact Hs | now apply isValidHash_iff]).
    destruct (fs (Safe.env s) !! Safe.contentPath s h) as [[raw mo mt|]|];
      try assumption.
    destruct (Safe.has_child _ _); assumption.
  - cbn [snd]. apply (consistent_set_meta s h m); [exact Hs | exact Hm | reflexivity..].
Qed.

Lemma run_op_consistent (s : Safe.t) (o : op) :
  consistent s -> consistent (run_op s o).
Proof.
  destruct o; cbn [run_op];
    [apply Store_consistent | apply Get_consistent | apply Delete_consistent].
Qed.

Lemma run_consistent (ops : list op) : forall s,
  consistent s -> consistent (run ops s).
Proof.
  unfold run. induction ops as [|o ops IH]; intros s Hs; [exact Hs|].
  cbn [foldl]. apply IH, run_op_consistent, Hs.
Qed.

Lemma fresh_inv (s : Safe.t) :
  fresh s ->
  exists Root CacheSize BatchSize clk,
    Root <> "" /\ (0 < CacheSize)%nat /\
    s = Safe.mk Root (Lru.New CacheSize) BatchSize None
                (mkEnv {[Root := Dir]} ∅ clk).
Proof.
  intros (e & Root & n & bs & Hfs & Hdb & HN). unfold Safe.New in HN.
  destruct (String.eqb_spec Root ""); [discriminate|].
  rewrite Hfs, lookup_empty in HN.
  destruct (Nat.eqb_spec n 0); [discriminate|].
  injection HN as <-. rewrite Hdb.
  exists Root, n, (if bs =? 0 then 1000 else bs), (clock e).
  split; [assumption|]. split; [lia|]. reflexivity.
Qed.

Lemma fresh_consistent (s : Safe.t) : fresh s -> consistent s.
Proof.
  intros Hf. destruct (fresh_inv s Hf) as (Root & n & bs & clk & Hr & Hn & ->).
  constructor; cbn.
  - exact Hr.
  - exact Hn.
  - intros h v Hl. rewrite lookup_empty in Hl. discriminate.
  - intros h c Hc. discriminate.
Qed.

(** ** The shape of the disk *)

(** The shape of the disk only depends on the root and on the disk. *)
Lemma fs_shape_transfer (s s' : Safe.t) :
  Safe.root s' = Safe.root s ->
  (forall p n, fs (Safe.env s') !! p = Some n ->
     fs (Safe.env s) !! p = Some n \/
     (exists h, hex64 h /\ p = shardDir s h /\ n = Dir) \/
     (exists h c mode mtime,
         hex64 h /\ p = Safe.contentPath s h /\ n = File c mode mtime)) ->
  fs_shape s -> fs_shape s'.
Proof.
  intros Hr Hsub Hs p n Hp.
  assert (Hsd : forall h, shardDir s' h = shardDir s h)
    by (intros h; unfold shardDir; now rewrite Hr).
  rewrite Hr. setoid_rewrite Hsd. setoid_rewrite (contentPath_root s s' _ Hr).
  destruct (Hsub p n Hp) as [Hold|[Hd|Hf]]; [exact (Hs p n Hold) | auto | auto].
Qed.

Lemma fs_shape_mkdir (s : Safe.t) (h : string) :
  hex64 h -> fs_shape s -> fs_shape (Safe.set_fs (insert (shardDir s h) Dir) s).
Proof.
  intros Hhex. apply fs_shape_transfer; [reflexivity|].
  intros p n. cbn. intros Hp.
  destruct (decide (shardDir s h = p)) as [<-|Hne].
  - rewrite lookup_insert_eq in Hp. injection Hp as <-. right. left. eauto.
  - rewrite lookup_insert_ne in Hp by exact Hne. now left.
Qed.

Lemma fs_shape_stored (s : Safe.t) (content : list byte) (mode : Z) :
  Safe.root s <> "" -> fs_shape s -> fs_shape (stored_state content mode s).
Proof.
  intros Hroot. apply fs_shape_transfer; [reflexivity|].
  intros p n. cbn.
  rewrite (Dir_contentPath s _ Hroot (hashContent_hex64 content)). intros Hp.
  destruct (decide (Safe.contentPath s (Safe.hashContent content) = p)) as [<-|Hne].
  - rewrite lookup_insert_eq in Hp. injection Hp as <-. right. right.
    exists (Safe.hashContent content), content, mode, (clock (Safe.env s)).
    split; [apply hashContent_hex64 | now split].
  - rewrite lookup_insert_ne in Hp by exact Hne.
    destruct (decide (shardDir s (Safe.hashContent content) = p)) as [<-|Hne'].
    + rewrite lookup_insert_eq in Hp. injection Hp as <-. right. left.
      exists (Safe.hashContent content). split; [apply hashContent_hex64 | now split].
    + rewrite lookup_insert_ne in Hp by exact Hne'. now left.
Qed.

Lemma fs_shape_removed (s : Safe.t) (h : string) :
  fs_shape s -> fs_shape (removed_state h s).
Proof.
  apply fs_shape_transfer; [reflexivity|].
  intros p n. cbn. intros Hp. left.
  destruct (decide (Safe.contentPath s h = p)) as [<-|Hne].
  - rewrite lookup_delete_eq in Hp. discriminate.
  - now rewrite lookup_delete_ne in Hp by exact Hne.
Qed.

Lemma fs_shape_same_fs (s s' : Safe.t) :
  Safe.root s' = Safe.root s -> fs (Safe.env s') = fs (Safe.env s) ->
  fs_shape s -> fs_shape s'.
Proof.
  intros Hr Hfs. apply fs_shape_transfer; [exact Hr|].
  intros p n Hp. left. now rewrite <- Hfs.
Qed.

Lemma Store_fs_shape (content : list byte) (s : Safe.t) :
  consistent s -> fs_shape s -> fs_shape (snd (Safe.Store content s)).
Proof.
  intros Hs Hsh. set (h := Safe.hashContent content).
  destruct (db (Safe.env s) !! Safe.metaKey h) as [v|] eqn:Hl.
  - destruct (cons_meta s Hs h v Hl) as (m & c & -> & Hh & _).
    unfold h in Hl. rewrite (Store_existing content s m Hl). cbn [snd].
    now apply (fs_shape_same_fs s).
  - pose proof (consistent_not_cached s h Hs Hl) as Hnc.
    unfold h in *. rewrite (Store_new content s Hnc Hl).
    rewrite (Dir_contentPath s _ (cons_root s Hs) (hashContent_hex64 content)).
    destruct (fs (Safe.env s) !! shardDir s (Safe.hashContent content))
      as [[d mo mt|]|]; [exact Hsh| |].
    all: destruct (<[_ := Dir]> (fs (Safe.env s)) !! _) as [[d' mo' mt'|]|]; cbn [snd].
    all: first [ apply fs_shape_stored; [exact (cons_root s Hs) | exact Hsh]
               | apply fs_shape_mkdir; [apply hashContent_hex64 | exact Hsh] ].
Qed.

Lemma Get_fs_shape (h : string) (s : Safe.t) :
  fs_shape s -> fs_shape (snd (Safe.Get h s)).
Proof.
  intros Hsh. destruct (Safe.isValidHash h) eqn:Hv.
  2:{ now rewrite Get_invalid. }
  destruct (Lru.assoc h (Lru.items (Safe.cache s))) as [c|] eqn:Hc.
  - rewrite (Get_hit h s c Hv Hc). now apply (fs_shape_same_fs s).
  - rewrite (Get_miss h s Hv Hc).
    destruct (db (Safe.env s) !! Safe.metaKey h) as [[m| | |]|]; try exact Hsh.
    destruct (fs (Safe.env s) !! Safe.contentPath s h) as [[raw mo mt|]|];
      try exact Hsh.
    destruct (decoded s m raw); [|exact Hsh].
    destruct (negb _); [exact Hsh|]. now apply (fs_shape_same_fs s).
Qed.

Lemma Delete_fs_shape (h : string) (s : Safe.t) :
  fs_shape s -> fs_shape (snd (Safe.Delete h s)).
Proof.
  intros Hsh. destruct (Safe.isValidHash h) eqn:Hv.
  2:{ now rewrite Delete_invalid. }
  rewrite (Delete_eq h s Hv).
  destruct (db (Safe.env s) !! Safe.metaKey h) as [[m| | |]|]; try exact Hsh.
  destruct (uint32_wrap (RefCount m - 1) =? 0).
  - pose proof (fs_shape_removed s h Hsh).
    destruct (fs (Safe.env s) !! Safe.contentPath s h) as [[raw mo mt|]|];
      try assumption.
    destruct (Safe.has_child _ _); assumption.
  - now apply (fs_shape_same_fs s).
Qed.

Lemma fresh_fs_shape (s : Safe.t) : fresh s -> fs_shape s.
Proof.
  intros Hf. destruct (fresh_inv s Hf) as (Root & n & bs & clk & Hr & Hn & ->).
  intros p nd. cbn. intros Hp. left.
  apply lookup_singleton_Some in Hp as [<- <-]. now split.
Qed.

Lemma run_well_formed (ops : list op) : forall s,
  consistent s -> fs_shape s -> consistent (run ops s) /\ fs_shape (run ops s).
Proof.
  unfold run. induction ops as [|o ops IH]; intros s Hs Hsh; [now split|].
  cbn [foldl]. apply IH; [apply run_op_consistent, Hs|].
  destruct o; cbn [run_op];
    [now apply Store_fs_shape | now apply Get_fs_shape | now apply Delete_fs_shape].
Qed.

(** In a consistent store whose disk holds nothing foreign, [Store]
    cannot fail. *)
Lemma Store_succeeds (content : list byte) (s : Safe.t) :
  consistent s -> fs_shape s ->
  exists s', Safe.Store content s = (Ok (Safe.hashContent content), s').
Proof.
  intros Hs Hsh. set (h := Safe.hashContent content).
  pose proof (cons_root s Hs) as Hroot.
  pose proof (hashContent_hex64 content) as Hhex. fold h in Hhex.
  destruct (db (Safe.env s) !! Safe.metaKey h) as [v|] eqn:Hl.
  - destruct (cons_meta s Hs h v Hl) as (m & c & -> & Hh & _).
    unfold h in Hl. rewrite (Store_existing content s m Hl). eauto.
  - pose proof (consistent_not_cached s h Hs Hl) as Hnc.
    unfold h in Hl, Hnc. rewrite (Store_new content s Hnc Hl). fold h.
    rewrite (Dir_contentPath s _ Hroot Hhex).
    assert (Hdir : forall d mo mt,
               fs (Safe.env s) !! shardDir s h <> Some (File d mo mt)).
    { intros d mo mt Hp. destruct (Hsh _ _ Hp) as [[_ ?]|[(h' & _ & _ & ?)|(h' & c' & mo' & mt' & Hh' & E & _)]];
        try discriminate.
      symmetry in E. revert E. apply contentPath_ne_shardDir;
        [assumption | now apply hex64_length..]. }
    assert (Hpath : <[shardDir s h := Dir]> (fs (Safe.env s)) !! Safe.contentPath s h
                    <> Some Dir).
    { rewrite lookup_insert_ne.
      2:{ intros E. symmetry in E. revert E. apply contentPath_ne_shardDir;
            [assumption | now apply hex64_length..]. }
      intros Hp. destruct (Hsh _ _ Hp) as [[E _]|[(h' & Hh' & E & _)|(h' & c' & mo' & mt' & _ & _ & ?)]];
        try discriminate.
      - apply (f_equal String.length) in E.
        rewrite contentPath_length in E by (try assumption; now apply hex64_length). lia.
      - revert E. apply contentPath_ne_shardDir;
          [assumption | now apply hex64_length..]. }
    destruct (fs (Safe.env s) !! shardDir s h) as [[d mo mt|]|] eqn:Hd.
    + now destruct (Hdir d mo mt).
    + destruct (<[_ := Dir]> (fs (Safe.env s)) !! _) as [[d' mo' mt'|]|];
        [eauto | congruence | eauto].
    + destruct (<[_ := Dir]> (fs (Safe.env s)) !! _) as [[d' mo' mt'|]|];
        [eauto | congruence | eauto].
Qed.

(** ** Claim C7: which hashes [Get] refuses *)

Lemma Get_valid_not_InvalidHash (h : string) (s : Safe.t) :
  Safe.isValidHash h = true -> fst (Safe.Get h s) <> Err ErrInvalidHash.
Proof.
  intros Hv. destruct (Lru.assoc h (Lru.items (Safe.cache s))) as [c|] eqn:Hc.
  - rewrite (Get_hit h s c Hv Hc). discriminate.
  - rewrite (Get_miss h s Hv Hc).
    destruct (db (Safe.env s) !! Safe.metaKey h) as [[m| | |]|]; try discriminate.
    destruct (fs (Safe.env s) !! Safe.contentPath s h) as [[raw mo mt|]|];
      try discriminate.
    unfold decoded. destruct (Compressed m).
    + destruct (Safe.decompress s) as [f|]; [|discriminate].
      destruct (f raw); [|discriminate]. destruct (negb _); discriminate.
    + destruct (negb _); discriminate.
Qed.

(** C7, as the code has it: [Get h] fails with [ErrInvalidHash], leaving
    the store untouched, exactly when [h] is not made of 64 hexadecimal
    characters; the digits a-f are accepted in either case. *)
Theorem Get_InvalidHash_iff (h : string) (s : Safe.t) :
  (fst (Safe.Get h s) = Err ErrInvalidHash <-> ~ hex64 h) /\
  (~ hex64 h -> snd (Safe.Get h s) = s).
Proof.
  destruct (Safe.isValidHash h) eqn:Hv.
  - assert (Hh : hex64 h) by now apply isValidHash_iff.
    split; [split|]; intros H.
    + now apply Get_valid_not_InvalidHash in H.
    + contradiction.
    + contradiction.
  - assert (Hh : ~ hex64 h).
    { intros Hh. apply isValidHash_iff in Hh. congruence. }
    rewrite (Get_invalid h s Hv). split; [split|]; auto.
Qed.

(** The store used in the concrete scenarios: root [/r], two cache
    slots, empty disk and database, the clock at 1000. *)
Lemma scenario_store_fresh :
  fresh (Safe.mk "/r" (Lru.New 2) 1000 None (mkEnv {[ "/r" := Dir ]} ∅ 1000)).
Proof. exists (mkEnv ∅ ∅ 1000), "/r", 2%nat, 0. repeat split. Qed.

(** C7 as stated fails: a hash of 64 uppercase hexadecimal digits is not
    64 lowercase hexadecimal characters, yet [Get] looks it up and
    reports missing metadata instead of [ErrInvalidHash]. *)
Lemma Get_uppercase_hash_is_looked_up :
  let h := "AAAAAAAAAAAAAAAAAAAAAAAAAAAAAAAAAAAAAAAAAAAAAAAAAAAAAAAAAAAAAAAA" in
  let s := Safe.mk "/r" (Lru.New 2) 1000 None (mkEnv {[ "/r" := Dir ]} ∅ 1000) in
  ~ lower_hex64 h /\
  fst (Safe.Get h s) = Err (Wrapped "getting metadata" ErrContentNotFound) /\
  fst (Safe.Get h s) <> Err ErrInvalidHash.
Proof.
  intros h s. split; [|split].
  - intros [_ HF]. inversion HF as [|c l Hc _]; subst. vm_compute in Hc. discriminate.
  - vm_refl.
  - vm_compute. discriminate.
Qed.

(** ** Claim C1: round trip *)

Lemma blob_at_functional (s : Safe.t) (h : string) (c c' : list byte) :
  blob_at s h c -> blob_at s h c' -> c = c'.
Proof. intros (mo & mt & H) (mo' & mt' & H'). congruence. Qed.

(** In a consistent store, a hash that has metadata is served. *)
Lemma Get_present (h : string) (s : Safe.t) (v : dbval) :
  consistent s -> db (Safe.env s) !! Safe.metaKey h = Some v ->
  exists c, blob_at s h c /\ Safe.hashContent c = h /\ fst (Safe.Get h s) = Ok c.
Proof.
  intros Hs Hv.
  destruct (cons_meta s Hs h v Hv) as (m & c & -> & Hh & Hcomp & Hhex & Hb & Hc).
  assert (Hvalid : Safe.isValidHash h = true) by now apply isValidHash_iff.
  exists c. split; [exact Hb|]. split; [exact Hc|].
  destruct (Lru.assoc h (Lru.items (Safe.cache s))) as [c'|] eqn:Hcache.
  - rewrite (Get_hit h s c' Hvalid Hcache). cbn [fst]. f_equal.
    destruct (cons_cache s Hs h c' Hcache) as [_ Hb'].
    exact (blob_at_functional s h c' c Hb' Hb).
  - rewrite (Get_miss h s Hvalid Hcache), Hv.
    destruct Hb as (mo & mt & ->). unfold decoded. rewrite Hcomp, Hc.
    now rewrite String.eqb_refl.
Qed.

Lemma Store_then_Get (content : list byte) (s : Safe.t) :
  consistent s -> fs_shape s ->
  (forall c, blob_at s (Safe.hashContent content) c -> c = content) ->
  exists s',
    Safe.Store content s = (Ok (Safe.hashContent content), s') /\
    fst (Safe.Get (Safe.hashContent content) s') = Ok content.
Proof.
  intros Hs Hsh Huniq. set (h := Safe.hashContent content) in *.
  destruct (Store_succeeds content s Hs Hsh) as [s' Hst]. fold h in Hst.
  exists s'. split; [exact Hst|].
  pose proof (Store_consistent content s Hs) as Hs'. rewrite Hst in Hs'. cbn [snd] in Hs'.
  assert (Hblob : blob_at s' h content /\ is_Some (db (Safe.env s') !! Safe.metaKey h)).
  { destruct (db (Safe.env s) !! Safe.metaKey h) as [v|] eqn:Hl.
    - destruct (cons_meta s Hs h v Hl) as (m & c & -> & Hh & _ & _ & Hb & _).
      unfold h in Hl. rewrite (Store_existing content s m Hl) in Hst.
      injection Hst as <-. fold h. split.
      + rewrite <- (Huniq c Hb). exact Hb.
      + cbn. rewrite Hh, lookup_insert_eq. eauto.
    - pose proof (consistent_not_cached s h Hs Hl) as Hnc.
      unfold h in Hl, Hnc. rewrite (Store_new content s Hnc Hl) in Hst. fold h in Hst.
      assert (Hnew : forall mode,
                 blob_at (stored_state content mode s) h content /\
                 is_Some (db (Safe.env (stored_state content mode s)) !! Safe.metaKey h)).
      { intros mode. split.
        - exists mode, (clock (Safe.env s)).
          rewrite (contentPath_root s) by reflexivity. cbn. apply lookup_insert_eq.
        - cbn. fold h. rewrite lookup_insert_eq. eauto. }
      destruct (fs (Safe.env s) !! _) as [[d mo mt|]|]; [discriminate| |].
      all: destruct (<[_ := Dir]> (fs (Safe.env s)) !! _) as [[d' mo' mt'|]|];
        try discriminate; injection Hst as <-; apply Hnew. }
  destruct Hblob as [Hb [v Hv]].
  destruct (Get_present h s' v Hs' Hv) as (c & Hb' & _ & Hget).
  rewrite Hget. f_equal. exact (blob_at_functional s' h c content Hb' Hb).
Qed.

(** C1: in every store reached from a fresh one by calls of [Store],
    [Get] and [Delete], [Store b] succeeds and [Get] of the hash it
    returns gives back exactly [b], the empty sequence included, as long
    as the blob already filed under the SHA-256 of [b], if any, is [b]
    itself (no collision of the digest). *)
Theorem Get_Store_roundtrip (s0 : Safe.t) (ops : list op) (b : list byte) :
  fresh s0 ->
  (forall c, blob_at (run ops s0) (Safe.hashContent b) c -> c = b) ->
  exists h s',
    Safe.Store b (run ops s0) = (Ok h, s') /\ fst (Safe.Get h s') = Ok b.
Proof.
  intros Hf Huniq.
  destruct (run_well_formed ops s0 (fresh_consistent s0 Hf) (fresh_fs_shape s0 Hf))
    as [Hs Hsh].
  destruct (Store_then_Get b (run ops s0) Hs Hsh Huniq) as (s' & Hst & Hget).
  eauto.
Qed.

Lemma Get_Store_roundtrip_witness :
  let s0 := Safe.mk "/r" (Lru.New 2) 1000 None (mkEnv {[ "/r" := Dir ]} ∅ 1000) in
  let ops := [OpStore (list_byte_of_string "hello"); OpStore []] in
  exists h s', Safe.Store [] (run ops s0) = (Ok h, s') /\ fst (Safe.Get h s') = Ok [].
Proof.
  intros s0 ops.
  apply (Get_Store_roundtrip s0 ops [] scenario_store_fresh).
  intros c (mode & mtime & H). vm_compute in H. congruence.
Defined.
(** ** Claim C3: corrupted blobs *)

Lemma Verify_eq (h : string) (s : Safe.t) :
  Safe.Verify h s =
  match Safe.Get h s with
  | (Ok content, s') =>
      if negb (String.eqb (Safe.hashContent content) h)
      then (Err ErrHashMismatch, s') else (Ok tt, s')
  | (Err e, s') => (Err e, s')
  end.
Proof.
  unfold Safe.Verify, bind. destruct (Safe.Get h s) as [[c|e] s']; [|reflexivity].
  destruct (negb _); reflexivity.
Qed.

(** Whatever [Get] returns hashes to the key it was asked for, provided
    the cache entry of that key, if any, does. *)
Lemma Get_returns_matching (h : string) (s : Safe.t) (c : list byte) :
  (forall v, Lru.assoc h (Lru.items (Safe.cache s)) = Some v ->
             Safe.hashContent v = h) ->
  fst (Safe.Get h s) = Ok c -> Safe.hashContent c = h.
Proof.
  intros Hsound. destruct (Safe.isValidHash h) eqn:Hv.
  2:{ rewrite (Get_invalid h s Hv). discriminate. }
  destruct (Lru.assoc h (Lru.items (Safe.cache s))) as [c'|] eqn:Hc.
  - rewrite (Get_hit h s c' Hv Hc). intros [= <-]. now apply Hsound.
  - rewrite (Get_miss h s Hv Hc).
    destruct (db (Safe.env s) !! Safe.metaKey h) as [[m| | |]|]; try discriminate.
    destruct (fs (Safe.env s) !! Safe.contentPath s h) as [[raw mo mt|]|];
      try discriminate.
    destruct (decoded s m raw) as [content|]; [|discriminate].
    destruct (String.eqb_spec (Safe.hashContent content) h) as [E|]; [|discriminate].
    cbn. now intros [= <-].
Qed.

(** C3, as the code has it: when the bytes on disk for a hash that has
    (uncompressed) metadata no longer hash to it and the hash is not in
    the cache, [Get] and [Verify] both fail with the hash-mismatch
    error, return nothing and leave the store as it was; and whenever
    [Get] does return bytes, they hash to the key asked for. *)
Theorem Get_detects_corruption_on_miss
        (s : Safe.t) (h : string) (m : ContentMeta) (raw : list byte) (mode mtime : Z) :
  hex64 h ->
  Lru.assoc h (Lru.items (Safe.cache s)) = None ->
  db (Safe.env s) !! Safe.metaKey h = Some (VMeta m) ->
  Compressed m = false ->
  fs (Safe.env s) !! Safe.contentPath s h = Some (File raw mode mtime) ->
  Safe.hashContent raw <> h ->
  Safe.Get h s = (Err ErrHashMismatch, s) /\
  Safe.Verify h s = (Err ErrHashMismatch, s) /\
  (forall h' s' c,
      (forall v, Lru.assoc h' (Lru.items (Safe.cache s')) = Some v ->
                 Safe.hashContent v = h') ->
      fst (Safe.Get h' s') = Ok c -> Safe.hashContent c = h').
Proof.
  intros Hhex Hmiss Hm Hcomp Hfile Hbad.
  assert (Hv : Safe.isValidHash h = true) by now apply isValidHash_iff.
  assert (Hget : Safe.Get h s = (Err ErrHashMismatch, s)).
  { rewrite (Get_miss h s Hv Hmiss), Hm, Hfile. unfold decoded. rewrite Hcomp.
    destruct (String.eqb_spec (Safe.hashContent raw) h); [contradiction | reflexivity]. }
  split; [exact Hget|]. split.
  - now rewrite Verify_eq, Hget.
  - intros h' s' c. apply Get_returns_matching.
Qed.

(** C3 as stated fails: right after [Store "hello"] the bytes are in the
    cache; overwriting the blob file with other bytes (the metadata is
    not touched) is not noticed by [Get], which answers from the cache,
    nor by [Verify], which checks what [Get] returned. *)
Lemma Get_cached_serves_despite_corruption :
  let s0 := Safe.mk "/r" (Lru.New 2) 1000 None (mkEnv {[ "/r" := Dir ]} ∅ 1000) in
  let b := list_byte_of_string "hello" in
  let bad := list_byte_of_string "jello" in
  let h := Safe.hashContent b in
  let s1 := snd (Safe.Store b s0) in
  let s2 := Safe.set_fs (insert (Safe.contentPath s1 h) (File bad 420 2000)) s1 in
  fst (Safe.Store b s0) = Ok h /\
  db (Safe.env s2) = db (Safe.env s1) /\
  fs (Safe.env s2) !! Safe.contentPath s2 h = Some (File bad 420 2000) /\
  Safe.hashContent bad <> h /\
  fst (Safe.Get h s2) = Ok b /\
  fst (Safe.Verify h s2) = Ok tt.
Proof.
  intros s0 b bad h s1 s2.
  split; [|split; [|split; [|split; [|split]]]].
  - vm_refl.
  - vm_refl.
  - vm_refl.
  - vm_compute. discriminate.
  - vm_refl.
  - vm_refl.
Qed.

Lemma Get_detects_corruption_on_miss_witness :
  let s0 := Safe.mk "/r" (Lru.New 2) 1000 None (mkEnv {[ "/r" := Dir ]} ∅ 1000) in
  let b := list_byte_of_string "hello" in
  let bad := list_byte_of_string "jello" in
  let h := Safe.hashContent b in
  let s1 := snd (Safe.Store b s0) in
  let s2 := Safe.set_cache (Lru.Remove h)
              (Safe.set_fs (insert (Safe.contentPath s1 h) (File bad 420 2000)) s1) in
  Safe.Get h s2 = (Err ErrHashMismatch, s2) /\
  Safe.Verify h s2 = (Err ErrHashMismatch, s2).
Proof.
  intros s0 b bad h s1 s2.
  destruct (Get_detects_corruption_on_miss s2 h
              (mkMeta h 5 1 false 1000 1001) bad 420 2000) as (H1 & H2 & _).
  - apply hashContent_hex64.
  - vm_refl.
  - vm_refl.
  - reflexivity.
  - vm_refl.
  - vm_compute. discriminate.
  - split; assumption.
Defined.
(** ** Reference counts along sequences of calls *)

Lemma with_count_refcount (h : string) (m : ContentMeta) (r : Z) (s : Safe.t) :
  refcount (with_count h m r s) h = Some r.
Proof. unfold refcount, with_count. cbn. now rewrite lookup_insert_eq. Qed.

Lemma with_count_twice (h : string) (m : ContentMeta) (r r' : Z) (s : Safe.t) :
  with_count h m r' (with_count h m r s) = with_count h m r' s.
Proof. unfold with_count, Safe.set_db, Safe.set_env. cbn. now rewrite insert_insert_eq. Qed.

Lemma stored_state_with_count (content : list byte) (mode : Z) (s : Safe.t) :
  stored_state content mode s =
  with_count (Safe.hashContent content) (first_meta content s) 1
             (stored_state content mode s).
Proof.
  unfold with_count, stored_state, first_meta, Safe.set_db, Safe.set_env. cbn.
  now rewrite insert_insert_eq.
Qed.

Lemma with_count_Store (content : list byte) (m : ContentMeta) (r : Z) (s : Safe.t) :
  Hash m = Safe.hashContent content ->
  Safe.Store content (with_count (Safe.hashContent content) m r s) =
  (Ok (Safe.hashContent content),
   with_count (Safe.hashContent content) m (uint32_wrap (r + 1)) s).
Proof.
  intros Hh.
  rewrite (Store_existing content _ (Safe.with_RefCount m r)).
  2:{ unfold with_count. cbn. apply lookup_insert_eq. }
  f_equal. cbn [Safe.with_RefCount Hash]. rewrite Hh.
  unfold with_count, Safe.set_db, Safe.set_env. cbn. now rewrite insert_insert_eq.
Qed.

Lemma store_n_S (content : list byte) (n : nat) (s : Safe.t) :
  store_n content (S n) s = snd (Safe.Store content (store_n content n s)).
Proof. reflexivity. Qed.

Lemma delete_n_S (h : string) (j : nat) (s : Safe.t) :
  delete_n h (S j) s = snd (Safe.Delete h (delete_n h j s)).
Proof. reflexivity. Qed.

Lemma store_n_with_count (content : list byte) (m : ContentMeta) (s : Safe.t) (n : nat) :
  Hash m = Safe.hashContent content ->
  forall r, 0 <= r < 2 ^ 32 ->
  store_n content n (with_count (Safe.hashContent content) m r s) =
  with_count (Safe.hashContent content) m (uint32_wrap (r + Z.of_nat n)) s.
Proof.
  intros Hh r Hr. induction n as [|n IH].
  - change (store_n content 0 ?x) with x. rewrite Z.add_0_r. unfold uint32_wrap.
    now rewrite Z.mod_small.
  - rewrite store_n_S, IH.
    rewrite (with_count_Store content m _ s Hh). cbn [snd]. f_equal.
    unfold uint32_wrap. rewrite Zplus_mod_idemp_l. f_equal. lia.
Qed.

Lemma store_n_succ_r (content : list byte) (n : nat) (s : Safe.t) :
  store_n content (S n) s = store_n content n (snd (Safe.Store content s)).
Proof.
  unfold store_n.
  exact (Nat.iter_succ_r n (fun s => snd (Safe.Store content s)) s).
Qed.

Lemma run_repeat_store (content : list byte) (n : nat) : forall s,
  run (List.repeat (OpStore content) n) s = store_n content n s.
Proof.
  induction n as [|n IH]; intros s; [reflexivity|].
  rewrite store_n_succ_r. cbn [List.repeat]. unfold run in *. cbn [foldl run_op].
  apply IH.
Qed.

(** Once the first [Store] has filed the content, [n >= 1] calls leave
    the count at [n] modulo 2^32. *)
Lemma store_n_from_absent (content : list byte) (mode : Z) (s : Safe.t) (n : nat) :
  Safe.Store content s = (Ok (Safe.hashContent content), stored_state content mode s) ->
  (1 <= n)%nat ->
  store_n content n s =
  with_count (Safe.hashContent content) (first_meta content s)
             (uint32_wrap (Z.of_nat n)) (stored_state content mode s).
Proof.
  intros Hst Hn. destruct n as [|n]; [lia|].
  rewrite store_n_succ_r, Hst. cbn [snd].
  rewrite (stored_state_with_count content mode s) at 1.
  rewrite store_n_with_count by (reflexivity || lia).
  f_equal. f_equal. lia.
Qed.

Lemma with_count_Delete_keep (h : string) (m : ContentMeta) (r : Z) (s : Safe.t) :
  hex64 h -> uint32_wrap (r - 1) <> 0 ->
  Safe.Delete h (with_count h m r s) =
  (Ok tt, with_count (Hash m) m (uint32_wrap (r - 1)) (with_count h m r s)).
Proof.
  intros Hhex Hnz. rewrite Delete_eq by now apply isValidHash_iff.
  unfold with_count at 1. cbn [Safe.env Safe.set_db Safe.set_env db].
  rewrite lookup_insert_eq. cbn [Safe.with_RefCount RefCount].
  destruct (Z.eqb_spec (uint32_wrap (r - 1)) 0); [contradiction|].
  reflexivity.
Qed.

Lemma delete_n_with_count (h : string) (m : ContentMeta) (s : Safe.t) (N : Z) (j : nat) :
  hex64 h -> Hash m = h ->
  (forall i, 1 <= i <= Z.of_nat j -> uint32_wrap (N - i) <> 0) ->
  delete_n h j (with_count h m (uint32_wrap N) s) =
  with_count h m (uint32_wrap (N - Z.of_nat j)) s.
Proof.
  intros Hhex Hh. induction j as [|j IH]; intros Hnz.
  - change (delete_n h 0 ?x) with x. now rewrite Z.sub_0_r.
  - rewrite delete_n_S, IH by (intros i Hi; apply Hnz; lia).
    assert (E : uint32_wrap (uint32_wrap (N - Z.of_nat j) - 1)
                = uint32_wrap (N - Z.of_nat (S j))).
    { unfold uint32_wrap. rewrite Zminus_mod_idemp_l. f_equal. lia. }
    rewrite with_count_Delete_keep; [|exact Hhex|rewrite E; apply Hnz; lia].
    cbn [snd]. rewrite Hh, with_count_twice, E. reflexivity.
Qed.

Lemma with_count_Delete_last (h : string) (m : ContentMeta) (r : Z) (s : Safe.t)
      (c : list byte) :
  hex64 h -> uint32_wrap (r - 1) = 0 -> blob_at s h c ->
  Safe.Delete h (with_count h m r s) = (Ok tt, removed_state h (with_count h m r s)).
Proof.
  intros Hhex Hz (mo & mt & Hb). rewrite Delete_eq by now apply isValidHash_iff.
  unfold with_count at 1. cbn [Safe.env Safe.set_db Safe.set_env db].
  rewrite lookup_insert_eq. cbn [Safe.with_RefCount RefCount]. rewrite Hz. cbn [Z.eqb].
  rewrite (contentPath_root s) by reflexivity.
  unfold with_count at 1. cbn [Safe.env Safe.set_db Safe.set_env fs].
  now rewrite Hb.
Qed.

Lemma removed_state_gone (h : string) (s : Safe.t) :
  hex64 h ->
  db (Safe.env (removed_state h s)) !! Safe.metaKey h = None /\
  fs (Safe.env (removed_state h s)) !! Safe.contentPath (removed_state h s) h = None /\
  Lru.Contains h (Safe.cache (removed_state h s)) = false /\
  Safe.Exists h (removed_state h s) = (Ok false, removed_state h s).
Proof.
  intros Hhex.
  assert (H1 : db (Safe.env (removed_state h s)) !! Safe.metaKey h = None)
    by (cbn; apply lookup_delete_eq).
  assert (H3 : Lru.Contains h (Safe.cache (removed_state h s)) = false).
  { apply Contains_false_assoc. unfold removed_state. cbn [Safe.cache].
    apply Remove_assoc_eq. }
  split; [exact H1|]. split.
  - rewrite (contentPath_root s) by reflexivity. cbn. apply lookup_delete_eq.
  - split; [exact H3|].
    rewrite Exists_eq by now apply isValidHash_iff. now rewrite H3, H1.
Qed.

(** The first [Store] of a content that has no metadata yet. *)
Lemma Store_absent (content : list byte) (s : Safe.t) :
  consistent s -> fs_shape s ->
  db (Safe.env s) !! Safe.metaKey (Safe.hashContent content) = None ->
  exists mode,
    Safe.Store content s = (Ok (Safe.hashContent content), stored_state content mode s).
Proof.
  intros Hs Hsh Hl.
  destruct (Store_succeeds content s Hs Hsh) as [s' Hst].
  pose proof (consistent_not_cached s _ Hs Hl) as Hnc.
  rewrite (Store_new content s Hnc Hl) in Hst.
  rewrite (Store_new content s Hnc Hl).
  destruct (fs (Safe.env s) !! _) as [[d mo mt|]|]; [discriminate| |].
  all: destruct (<[_ := Dir]> (fs (Safe.env s)) !! _) as [[d' mo' mt'|]|];
    try discriminate; eauto.
Qed.

Lemma refcount_None_consistent (s : Safe.t) (h : string) :
  consistent s -> refcount s h = None -> db (Safe.env s) !! Safe.metaKey h = None.
Proof.
  intros Hs Hr. unfold refcount in Hr.
  destruct (db (Safe.env s) !! Safe.metaKey h) as [v|] eqn:Hl; [|reflexivity].
  destruct (cons_meta s Hs h v Hl) as (m & c & -> & _). discriminate.
Qed.
(** ** Claim C2: deduplication and the life of a reference count *)

Lemma stored_state_blob (content : list byte) (mode : Z) (s : Safe.t) :
  blob_at (stored_state content mode s) (Safe.hashContent content) content.
Proof.
  exists mode, (clock (Safe.env s)).
  rewrite (contentPath_root s) by reflexivity. cbn. apply lookup_insert_eq.
Qed.

Lemma stored_state_cached (content : list byte) (mode : Z) (s : Safe.t) :
  (0 < Lru.size (Safe.cache s))%nat ->
  Lru.Contains (Safe.hashContent content)
               (Safe.cache (stored_state content mode s)) = true.
Proof.
  intros Hsz. apply Contains_assoc. unfold stored_state. cbn [Safe.cache].
  rewrite Add_assoc_eq by exact Hsz. eauto.
Qed.

(** C2, as the code has it.  In a store reached from a fresh one where
    [b] has no metadata: two calls of [Store b] return the same hash,
    write one blob file and leave its count at 2; and for
    [1 <= n <= 2^32], [n] calls of [Store b] all return that hash, the
    first [n - 1] of [n] calls of [Delete] succeed and leave [Exists]
    true, and the last one removes metadata and blob file and makes
    [Exists] false.  (The count is a [uint32]: beyond 2^32 stores it has
    wrapped around.) *)
Theorem Store_Delete_lifecycle (s0 : Safe.t) (ops : list op) (b : list byte) (n : nat) :
  fresh s0 ->
  refcount (run ops s0) (Safe.hashContent b) = None ->
  (1 <= n)%nat -> Z.of_nat n <= 2 ^ 32 ->
  let s := run ops s0 in
  let h := Safe.hashContent b in
  (fst (Safe.Store b s) = Ok h /\
   fst (Safe.Store b (store_n b 1 s)) = Ok h /\
   refcount (store_n b 2 s) h = Some 2 /\
   exists mode,
     fs (Safe.env (store_n b 2 s)) =
     <[Safe.contentPath s h := File b mode (clock (Safe.env s))]>
       (<[shardDir s h := Dir]> (fs (Safe.env s)))) /\
  (forall k, (k < n)%nat -> fst (Safe.Store b (store_n b k s)) = Ok h) /\
  (forall j, (j < n)%nat ->
     fst (Safe.Exists h (delete_n h j (store_n b n s))) = Ok true /\
     fst (Safe.Delete h (delete_n h j (store_n b n s))) = Ok tt) /\
  (let s' := delete_n h n (store_n b n s) in
   db (Safe.env s') !! Safe.metaKey h = None /\
   fs (Safe.env s') !! Safe.contentPath s' h = None /\
   fst (Safe.Exists h s') = Ok false).
Proof.
  intros Hf Hrc Hn1 Hn2 s h.
  destruct (run_well_formed ops s0 (fresh_consistent s0 Hf) (fresh_fs_shape s0 Hf))
    as [Hs Hsh]. fold s in Hs, Hsh, Hrc.
  pose proof (refcount_None_consistent s _ Hs Hrc) as Hl.
  destruct (Store_absent b s Hs Hsh Hl) as [mode Hst]. fold h in Hst.
  pose proof (hashContent_hex64 b) as Hhex. fold h in Hhex.
  set (S1 := stored_state b mode s) in *.
  set (m1 := first_meta b s).
  assert (Hstore : forall k, (1 <= k)%nat ->
            store_n b k s = with_count h m1 (uint32_wrap (Z.of_nat k)) S1).
  { intros k Hk. now apply store_n_from_absent. }
  assert (Hok : forall r, fst (Safe.Store b (with_count h m1 r S1)) = Ok h).
  { intros r. unfold h. now rewrite with_count_Store. }
  assert (Hblob : blob_at S1 h b) by apply stored_state_blob.
  assert (Hcached : forall r, Lru.Contains h (Safe.cache (with_count h m1 r S1)) = true).
  { intros r. apply stored_state_cached, (cons_size s Hs). }
  assert (Hdel : forall j, (j < n)%nat ->
            delete_n h j (store_n b n s) =
            with_count h m1 (uint32_wrap (Z.of_nat n - Z.of_nat j)) S1).
  { intros j Hj. rewrite Hstore by exact Hn1.
    apply delete_n_with_count; [exact Hhex | reflexivity |].
    intros i Hi. unfold uint32_wrap. rewrite Z.mod_small; lia. }
  split; [|split; [|split]].
  - split; [now rewrite Hst|]. split; [rewrite Hstore by lia; apply Hok|].
    split.
    + rewrite Hstore by lia. now rewrite with_count_refcount.
    + exists mode. rewrite Hstore by lia. unfold with_count, S1. cbn. fold h.
      now rewrite (Dir_contentPath s h (cons_root s Hs) Hhex).
  - intros k Hk. destruct k as [|k].
    { change (store_n b 0 s) with s. now rewrite Hst. }
    rewrite Hstore by lia. apply Hok.
  - intros j Hj. rewrite (Hdel j Hj). split.
    + rewrite Exists_eq by now apply isValidHash_iff. now rewrite Hcached.
    + destruct (Z.eq_dec (uint32_wrap (uint32_wrap (Z.of_nat n - Z.of_nat j) - 1)) 0)
        as [Hz|Hnz].
      * now rewrite (with_count_Delete_last h m1 _ S1 b Hhex Hz Hblob).
      * now rewrite (with_count_Delete_keep h m1 _ S1 Hhex Hnz).
  - intros s'. unfold s'. destruct n as [|n']; [lia|].
    rewrite delete_n_S, (Hdel n') by lia.
    replace (Z.of_nat (S n') - Z.of_nat n') with 1 by lia.
    rewrite (with_count_Delete_last h m1 (uint32_wrap 1) S1 b Hhex eq_refl Hblob).
    cbn [snd].
    destruct (removed_state_gone h (with_count h m1 (uint32_wrap 1) S1) Hhex)
      as (H1 & H2 & _ & H4).
    split; [exact H1|]. split; [exact H2|]. now rewrite H4.
Qed.

Lemma Store_Delete_lifecycle_witness :
  let s0 := Safe.mk "/r" (Lru.New 2) 1000 None (mkEnv {[ "/r" := Dir ]} ∅ 1000) in
  let b := list_byte_of_string "abc" in
  let h := Safe.hashContent b in
  refcount (store_n b 2 s0) h = Some 2 /\
  fst (Safe.Exists h (delete_n h 1 (store_n b 2 s0))) = Ok true /\
  fst (Safe.Exists h (delete_n h 2 (store_n b 2 s0))) = Ok false.
Proof.
  intros s0 b h.
  destruct (Store_Delete_lifecycle s0 [] b 2 scenario_store_fresh)
    as ((_ & _ & H2 & _) & _ & Hlive & (_ & _ & Hgone)).
  - vm_refl.
  - lia.
  - vm_compute. discriminate.
  - split; [exact H2|]. split; [|exact Hgone].
    exact (proj1 (Hlive 1%nat ltac:(lia))).
Defined.

(** The first [Store] of the empty content in the scenario store, and
    the state after [n >= 1] such calls. *)
Lemma scenario_first_Store :
  let s0 := Safe.mk "/r" (Lru.New 2) 1000 None (mkEnv {[ "/r" := Dir ]} ∅ 1000) in
  Safe.Store [] s0 = (Ok (Safe.hashContent []), stored_state [] 420 s0).
Proof. vm_refl. Qed.

Lemma scenario_store_n (n : nat) :
  let s0 := Safe.mk "/r" (Lru.New 2) 1000 None (mkEnv {[ "/r" := Dir ]} ∅ 1000) in
  (1 <= n)%nat ->
  store_n [] n s0 =
  with_count (Safe.hashContent []) (first_meta [] s0) (uint32_wrap (Z.of_nat n))
             (stored_state [] 420 s0).
Proof.
  intros s0 Hn. exact (store_n_from_absent [] 420 s0 n scenario_first_Store Hn).
Qed.

(** C2 as stated fails for [n] beyond 2^32: after [2^32 + 1] calls of
    [Store] on the empty content the count has wrapped to 1, and the
    first of the [n] calls of [Delete] already removes the blob, so that
    [Exists] is false with [2^32] calls of [Delete] still to come. *)
Lemma Exists_false_before_last_Delete :
  let s0 := Safe.mk "/r" (Lru.New 2) 1000 None (mkEnv {[ "/r" := Dir ]} ∅ 1000) in
  let h := Safe.hashContent [] in
  let n := Z.to_nat (2 ^ 32 + 1) in
  (1 < n)%nat /\
  fst (Safe.Exists h (delete_n h 1 (store_n [] n s0))) = Ok false.
Proof.
  intros s0 h n.
  assert (Hn : (1 < Z.to_nat (2 ^ 32 + 1))%nat) by lia.
  split; [exact Hn|].
  assert (Hw : uint32_wrap (Z.of_nat (Z.to_nat (2 ^ 32 + 1))) = 1).
  { rewrite Z2Nat.id by lia. reflexivity. }
  pose proof (scenario_store_n (Z.to_nat (2 ^ 32 + 1)) (Nat.lt_le_incl _ _ Hn)) as Hrun.
  cbv zeta in Hrun. rewrite Hw in Hrun.
  subst n h s0. rewrite Hrun.
  change (delete_n ?h 1 ?x) with (snd (Safe.Delete h x)).
  set (S1 := stored_state [] 420 _).
  set (m1 := first_meta [] _).
  pose proof (stored_state_blob [] 420 _ : blob_at S1 (Safe.hashContent []) []) as Hb.
  pose proof (with_count_Delete_last (Safe.hashContent []) m1 1 S1 []
                (hashContent_hex64 []) eq_refl Hb) as Hd.
  rewrite Hd. cbn [snd].
  exact (f_equal fst (proj2 (proj2 (proj2
           (removed_state_gone (Safe.hashContent []) _ (hashContent_hex64 [])))))).
Qed.
(** ** Claim C10: persisted reference counts *)

Lemma counts_between_same_db (s s' : Safe.t) (n n' : Z) :
  db (Safe.env s') = db (Safe.env s) -> n <= n' ->
  counts_between s n -> counts_between s' n'.
Proof.
  intros Hdb Hn Hc k m Hk. rewrite Hdb in Hk. specialize (Hc k m Hk). lia.
Qed.

Lemma counts_between_insert (s s' : Safe.t) (n n' : Z) (key : string) (m' : ContentMeta) :
  db (Safe.env s') = <[key := VMeta m']> (db (Safe.env s)) -> n <= n' ->
  1 <= RefCount m' <= n' ->
  counts_between s n -> counts_between s' n'.
Proof.
  intros Hdb Hn Hm Hc k m Hk. rewrite Hdb in Hk.
  destruct (decide (key = k)) as [<-|Hne].
  - rewrite lookup_insert_eq in Hk. now injection Hk as <-.
  - rewrite lookup_insert_ne in Hk by exact Hne. specialize (Hc k m Hk). lia.
Qed.

Lemma counts_between_delete (s s' : Safe.t) (n : Z) (key : string) :
  db (Safe.env s') = delete key (db (Safe.env s)) ->
  counts_between s n -> counts_between s' n.
Proof.
  intros Hdb Hc k m Hk. rewrite Hdb in Hk.
  apply lookup_delete_Some in Hk as [_ Hk]. exact (Hc k m Hk).
Qed.

Lemma Store_counts (content : list byte) (s : Safe.t) (n : Z) :
  consistent s -> 0 <= n -> n + 1 < 2 ^ 32 ->
  counts_between s n -> counts_between (snd (Safe.Store content s)) (n + 1).
Proof.
  intros Hs Hn0 Hn Hc. set (h := Safe.hashContent content).
  destruct (db (Safe.env s) !! Safe.metaKey h) as [v|] eqn:Hl.
  - destruct (cons_meta s Hs h v Hl) as (m & c & -> & Hh & _).
    unfold h in Hl. rewrite (Store_existing content s m Hl). cbn [snd].
    apply (counts_between_insert s _ n (n + 1) (Safe.metaKey (Hash m)) (bumped m));
      [reflexivity | lia | | exact Hc].
    specialize (Hc _ m Hl). cbn. unfold uint32_wrap. rewrite Z.mod_small; lia.
  - pose proof (consistent_not_cached s h Hs Hl) as Hnc.
    unfold h in *. rewrite (Store_new content s Hnc Hl).
    destruct (fs (Safe.env s) !! _) as [[d mo mt|]|].
    { apply (counts_between_same_db s _ n); [reflexivity | lia | exact Hc]. }
    all: destruct (<[_ := Dir]> (fs (Safe.env s)) !! _) as [[d' mo' mt'|]|]; cbn [snd].
    all: first
      [ apply (counts_between_same_db s _ n); [reflexivity | lia | exact Hc]
      | apply (counts_between_insert s _ n (n + 1)
                 (Safe.metaKey (Safe.hashContent content)) (first_meta content s));
        [reflexivity | lia | cbn; lia | exact Hc] ].
Qed.

Lemma Get_counts (h : string) (s : Safe.t) (n : Z) :
  counts_between s n -> counts_between (snd (Safe.Get h s)) n.
Proof.
  intros Hc. destruct (Safe.isValidHash h) eqn:Hv.
  2:{ now rewrite Get_invalid. }
  destruct (Lru.assoc h (Lru.items (Safe.cache s))) as [c|] eqn:Hcache.
  - rewrite (Get_hit h s c Hv Hcache).
    apply (counts_between_same_db s _ n); [reflexivity | lia | exact Hc].
  - rewrite (Get_miss h s Hv Hcache).
    destruct (db (Safe.env s) !! Safe.metaKey h) as [[m| | |]|] eqn:Hm; try exact Hc.
    destruct (fs (Safe.env s) !! Safe.contentPath s h) as [[raw mo mt|]|];
      try exact Hc.
    destruct (decoded s m raw); [|exact Hc].
    destruct (negb _); [exact Hc|]. cbn [snd].
    apply (counts_between_insert s _ n n (Safe.metaKey (Hash m))
             (Safe.with_AccessedAt m (clock (Safe.env s))));
      [reflexivity | lia | exact (Hc _ m Hm) | exact Hc].
Qed.

Lemma Delete_counts (h : string) (s : Safe.t) (n : Z) :
  n < 2 ^ 32 -> counts_between s n -> counts_between (snd (Safe.Delete h s)) n.
Proof.
  intros Hn Hc. destruct (Safe.isValidHash h) eqn:Hv.
  2:{ now rewrite Delete_invalid. }
  rewrite (Delete_eq h s Hv).
  destruct (db (Safe.env s) !! Safe.metaKey h) as [[m| | |]|] eqn:Hm; try exact Hc.
  destruct (Z.eqb_spec (uint32_wrap (RefCount m - 1)) 0) as [Hz|Hnz].
  - assert (counts_between (removed_state h s) n)
      by (apply (counts_between_delete s _ n (Safe.metaKey h)); [reflexivity | exact Hc]).
    destruct (fs (Safe.env s) !! Safe.contentPath s h) as [[raw mo mt|]|];
      try assumption.
    destruct (Safe.has_child _ _); assumption.
  - cbn [snd].
    apply (counts_between_insert s _ n n (Safe.metaKey (Hash m)) (dropped m));
      [reflexivity | lia | | exact Hc].
    specialize (Hc _ m Hm). cbn. unfold uint32_wrap in *.
    rewrite Z.mod_small in * by lia. lia.
Qed.

Lemma stores_cons (o : op) (ops : list op) :
  stores (o :: ops) = (if is_store o then 1 else 0) + stores ops.
Proof. unfold stores. cbn [List.filter]. destruct (is_store o); cbn [List.length]; lia. Qed.

Lemma stores_nonneg (ops : list op) : 0 <= stores ops.
Proof. unfold stores. lia. Qed.

Lemma run_counts (ops : list op) : forall s n,
  consistent s -> 0 <= n -> counts_between s n -> n + stores ops < 2 ^ 32 ->
  counts_between (run ops s) (n + stores ops).
Proof.
  induction ops as [|o ops IH]; intros s n Hs Hn Hc Hb.
  - unfold stores. cbn. now rewrite Z.add_0_r.
  - rewrite stores_cons in *. pose proof (stores_nonneg ops) as Hp.
    change (run (o :: ops) s) with (run ops (run_op s o)).
    destruct o as [content|hash|hash]; cbn [is_store run_op] in *.
    + rewrite Z.add_assoc. apply IH; [now apply Store_consistent | lia | | lia].
      apply Store_counts; [exact Hs | lia | lia | exact Hc].
    + rewrite Z.add_0_l. apply IH; [now apply Get_consistent | lia | | lia].
      now apply Get_counts.
    + rewrite Z.add_0_l. apply IH; [now apply Delete_consistent | lia | | lia].
      apply Delete_counts; [lia | exact Hc].
Qed.

(** C10, as the code has it: from a fresh store, after any sequence of
    [Store], [Get] and [Delete] calls with fewer than 2^32 calls of
    [Store], every persisted metadata record has a count of at least 1;
    and a [Delete] of a hash whose count is 1 succeeds and removes the
    metadata record, the blob file and the cache entry. *)
Theorem RefCount_at_least_one (s0 : Safe.t) (ops : list op) :
  fresh s0 -> stores ops < 2 ^ 32 ->
  (forall k m, db (Safe.env (run ops s0)) !! k = Some (VMeta m) -> 1 <= RefCount m) /\
  (forall h, refcount (run ops s0) h = Some 1 ->
     let s' := snd (Safe.Delete h (run ops s0)) in
     fst (Safe.Delete h (run ops s0)) = Ok tt /\
     db (Safe.env s') !! Safe.metaKey h = None /\
     fs (Safe.env s') !! Safe.contentPath s' h = None /\
     Lru.Contains h (Safe.cache s') = false).
Proof.
  intros Hf Hb. pose proof (fresh_consistent s0 Hf) as Hs0.
  split.
  - intros k m Hk.
    assert (Hc0 : counts_between s0 0).
    { destruct (fresh_inv s0 Hf) as (Root & n & bs & clk & _ & _ & ->).
      intros k' m' Hk'. cbn in Hk'. rewrite lookup_empty in Hk'. discriminate. }
    pose proof (run_counts ops s0 0 Hs0 ltac:(lia) Hc0 ltac:(lia)) as Hc.
    specialize (Hc k m Hk). lia.
  - intros h Hr s'. pose proof (run_consistent ops s0 Hs0) as Hs.
    unfold s'. clear s'. set (s := run ops s0) in *.
    unfold refcount in Hr.
    destruct (db (Safe.env s) !! Safe.metaKey h) as [[m| | |]|] eqn:Hm; try discriminate.
    injection Hr as Hr.
    destruct (cons_meta s Hs h _ Hm) as (m' & c & [= <-] & _ & _ & Hhex & (mo & mt & Hb') & _).
    rewrite Delete_eq by now apply isValidHash_iff.
    rewrite Hm, Hr, Hb'. cbn [fst snd Z.eqb Z.sub uint32_wrap].
    change (uint32_wrap (1 - 1) =? 0) with true. cbn [fst snd].
    destruct (removed_state_gone h s Hhex) as (H1 & H2 & H3 & _). auto.
Qed.

Lemma RefCount_at_least_one_witness :
  let s0 := Safe.mk "/r" (Lru.New 2) 1000 None (mkEnv {[ "/r" := Dir ]} ∅ 1000) in
  let b := list_byte_of_string "abc" in
  let ops := [OpStore b; OpStore []; OpGet (Safe.hashContent b); OpStore b;
              OpDelete (Safe.hashContent b)] in
  let m := mkMeta (Safe.hashContent []) 0 1 false 1002 1003 in
  stores ops = 3 /\
  db (Safe.env (run ops s0)) !! Safe.metaKey (Safe.hashContent []) = Some (VMeta m) /\
  1 <= RefCount m.
Proof.
  intros s0 b ops m.
  assert (Hdb : db (Safe.env (run ops s0)) !! Safe.metaKey (Safe.hashContent [])
                = Some (VMeta m)) by vm_refl.
  split; [vm_refl|]. split; [exact Hdb|].
  refine (proj1 (RefCount_at_least_one s0 ops scenario_store_fresh _) _ m Hdb).
  unfold Z.lt. vm_refl.
Defined.

(** C10 as stated fails: 2^32 calls of [Store] on the same content wrap
    the [uint32] count around, and the record is persisted with a count
    of 0. *)
Lemma RefCount_wraps_to_zero :
  let s0 := Safe.mk "/r" (Lru.New 2) 1000 None (mkEnv {[ "/r" := Dir ]} ∅ 1000) in
  let ops := List.repeat (OpStore []) (Z.to_nat (2 ^ 32)) in
  fresh s0 /\
  exists k m, db (Safe.env (run ops s0)) !! k = Some (VMeta m) /\ RefCount m = 0.
Proof.
  intros s0 ops. split; [exact scenario_store_fresh|].
  assert (Hn : (1 <= Z.to_nat (2 ^ 32))%nat) by lia.
  assert (Hw : uint32_wrap (Z.of_nat (Z.to_nat (2 ^ 32))) = 0).
  { rewrite Z2Nat.id by lia. reflexivity. }
  pose proof (scenario_store_n (Z.to_nat (2 ^ 32)) Hn) as Hrun.
  cbv zeta in Hrun. rewrite Hw in Hrun.
  exists (Safe.metaKey (Safe.hashContent [])),
         (Safe.with_RefCount (first_meta [] s0) 0).
  split; [|exact eq_refl].
  subst ops s0. rewrite run_repeat_store, Hrun.
  exact (lookup_insert_eq _ _ _).
Qed.
(** ** Claim C8: [StoreBatch] rolls back *)

Lemma Store_refcount (content : list byte) (s : Safe.t) (h' : string) :
  consistent s ->
  match Safe.Store content s with
  | (Ok h, s') =>
      h = Safe.hashContent content /\
      refcount s' h' = if decide (h' = Safe.hashContent content)
                       then inc_count (refcount s h') else refcount s h'
  | (Err _, s') => refcount s' h' = refcount s h'
  end.
Proof.
  intros Hs. set (h := Safe.hashContent content).
  destruct (db (Safe.env s) !! Safe.metaKey h) as [v|] eqn:Hl.
  - destruct (cons_meta s Hs h v Hl) as (m & c & -> & Hh & _).
    unfold h in Hl. rewrite (Store_existing content s m Hl). fold h in Hl |- *.
    split; [reflexivity|]. unfold refcount. cbn. rewrite Hh.
    destruct (decide (h' = h)) as [->|Hne].
    + rewrite lookup_insert_eq, Hl. reflexivity.
    + rewrite lookup_insert_ne by (intros E; apply metaKey_inj in E; congruence).
      reflexivity.
  - pose proof (consistent_not_cached s h Hs Hl) as Hnc.
    unfold h in Hl, Hnc. rewrite (Store_new content s Hnc Hl). fold h in Hl |- *.
    assert (Hnew : forall mode,
               refcount (stored_state content mode s) h' =
               if decide (h' = h) then inc_count (refcount s h') else refcount s h').
    { intros mode. unfold refcount. cbn. fold h.
      destruct (decide (h' = h)) as [->|Hne].
      - rewrite lookup_insert_eq, Hl. reflexivity.
      - rewrite lookup_insert_ne by (intros E; apply metaKey_inj in E; congruence).
        reflexivity. }
    destruct (fs (Safe.env s) !! _) as [[d mo mt|]|]; [reflexivity| |].
    all: destruct (<[_ := Dir]> (fs (Safe.env s)) !! _) as [[d' mo' mt'|]|];
      first [ split; [reflexivity | apply Hnew] | reflexivity ].
Qed.

Lemma Delete_refcount (h : string) (s : Safe.t) (h' : string) :
  consistent s ->
  refcount (snd (Safe.Delete h s)) h' =
  if decide (h' = h) then dec_count (refcount s h') else refcount s h'.
Proof.
  intros Hs. destruct (Safe.isValidHash h) eqn:Hv.
  2:{ rewrite (Delete_invalid h s Hv). cbn [snd].
      destruct (decide (h' = h)) as [->|]; [|reflexivity].
      unfold refcount.
      destruct (db (Safe.env s) !! Safe.metaKey h) as [v|] eqn:Hl; [|reflexivity].
      destruct (cons_meta s Hs h v Hl) as (_ & _ & _ & _ & _ & Hhex & _).
      apply isValidHash_iff in Hhex. congruence. }
  rewrite (Delete_eq h s Hv). unfold refcount at 2 3.
  destruct (db (Safe.env s) !! Safe.metaKey h) as [v|] eqn:Hl.
  2:{ cbn [snd]. destruct (decide (h' = h)) as [->|]; [|reflexivity].
      unfold refcount. now rewrite Hl. }
  destruct (cons_meta s Hs h v Hl) as (m & c & -> & Hh & _ & _ & (mo & mt & Hb) & _).
  rewrite Hb.
  destruct (Z.eqb_spec (uint32_wrap (RefCount m - 1)) 0) as [Hz|Hnz]; cbn [snd].
  - unfold refcount. cbn. destruct (decide (h' = h)) as [->|Hne].
    + rewrite lookup_delete_eq, Hl. cbn. now rewrite Hz.
    + rewrite lookup_delete_ne by (intros E; apply metaKey_inj in E; congruence).
      reflexivity.
  - unfold refcount. cbn. rewrite Hh. destruct (decide (h' = h)) as [->|Hne].
    + rewrite lookup_insert_eq, Hl. cbn.
      destruct (Z.eqb_spec (uint32_wrap (RefCount m - 1)) 0); [contradiction|reflexivity].
    + rewrite lookup_insert_ne by (intros E; apply metaKey_inj in E; congruence).
      reflexivity.
Qed.

Lemma occurrences_cons (h' h : string) (hs : list string) :
  occurrences h' (h :: hs) =
  ((if decide (h' = h) then 1 else 0) + occurrences h' hs)%nat.
Proof.
  unfold occurrences. cbn [List.filter].
  destruct (String.eqb_spec h' h), (decide (h' = h)); try contradiction; reflexivity.
Qed.

Lemma occurrences_app (h' : string) (l1 l2 : list string) :
  occurrences h' (l1 ++ l2)%list = (occurrences h' l1 + occurrences h' l2)%nat.
Proof. unfold occurrences. now rewrite List.filter_app, List.length_app. Qed.

Lemma rollback_cons (h : string) (hs : list string) (s : Safe.t) :
  snd (Safe.rollback (h :: hs) s) = snd (Safe.rollback hs (snd (Safe.Delete h s))).
Proof. reflexivity. Qed.

Lemma rollback_consistent (hs : list string) : forall s,
  consistent s -> consistent (snd (Safe.rollback hs s)).
Proof.
  induction hs as [|h hs IH]; intros s Hs; [exact Hs|].
  rewrite rollback_cons. apply IH, Delete_consistent, Hs.
Qed.

Lemma rollback_refcount (hs : list string) (h' : string) : forall s,
  consistent s ->
  refcount (snd (Safe.rollback hs s)) h' =
  Nat.iter (occurrences h' hs) dec_count (refcount s h').
Proof.
  induction hs as [|h hs IH]; intros s Hs; [reflexivity|].
  rewrite rollback_cons, IH by now apply Delete_consistent.
  rewrite Delete_refcount by exact Hs. rewrite occurrences_cons.
  destruct (decide (h' = h)); [|reflexivity].
  cbn [Nat.add]. now rewrite Nat.iter_succ_r.
Qed.

Lemma dec_inc_count (x : option Z) :
  (forall r, x = Some r -> 1 <= r /\ r + 1 < 2 ^ 32) ->
  dec_count (inc_count x) = x.
Proof.
  intros Hx. destruct x as [r|]; cbn.
  - destruct (Hx r eq_refl) as [H1 H2]. unfold uint32_wrap.
    rewrite (Z.mod_small (r + 1)) by lia.
    replace (r + 1 - 1) with r by lia. rewrite Z.mod_small by lia.
    destruct (Z.eqb_spec r 0); [lia | reflexivity].
  - reflexivity.
Qed.

Lemma room_for_after_Store (content : list byte) (s s' : Safe.t) (h : string) (n : nat) :
  consistent s -> room_for s (S n) ->
  Safe.Store content s = (Ok h, s') -> room_for s' n.
Proof.
  intros Hs [Hn Hroom] Hst. split; [lia|]. intros h' r Hr.
  pose proof (Store_refcount content s h' Hs) as Hrc. rewrite Hst in Hrc.
  destruct Hrc as [_ Hrc]. rewrite Hrc in Hr.
  destruct (decide (h' = Safe.hashContent content)).
  - unfold inc_count in Hr. injection Hr as <-.
    destruct (refcount s h') as [r0|] eqn:E.
    + destruct (Hroom h' r0 E). unfold uint32_wrap. rewrite Z.mod_small; lia.
    + lia.
  - destruct (Hroom h' r Hr). lia.
Qed.

Lemma take_succ_insert (i : nat) (h : string) (hashes : list string) :
  (i < List.length hashes)%nat ->
  take (S i) (<[i := h]> hashes) = (take i hashes ++ [h])%list.
Proof.
  revert hashes. induction i as [|i IH]; intros [|x hashes] Hl; cbn in *; try lia.
  - reflexivity.
  - now rewrite IH by lia.
Qed.

Lemma StoreBatch_from_spec (contents : list (list byte)) :
  forall i hashes s,
    consistent s -> List.length hashes = (i + List.length contents)%nat ->
    room_for s (List.length contents) ->
    match Safe.StoreBatch_from i hashes contents s with
    | (Ok hs, s') => hs = (take i hashes ++ List.map Safe.hashContent contents)%list
    | (Err e, s') =>
        (exists k c e' s_fail,
            contents !! k = Some c /\ e = StoringContent (i + k) e' /\
            Safe.Store c (run (List.map OpStore (take k contents)) s) = (Err e', s_fail) /\
            s' = snd (Safe.rollback
                        (take i hashes ++ List.map Safe.hashContent (take k contents))%list
                        s_fail)) /\
        forall h', refcount s' h' =
                   Nat.iter (occurrences h' (take i hashes)) dec_count (refcount s h')
    end.
Proof.
  induction contents as [|c rest IH]; intros i hashes s Hs Hlen Hroom.
  - cbn. rewrite app_nil_r, take_ge; [reflexivity | cbn in Hlen; lia].
  - cbn [Safe.StoreBatch_from].
    pose proof (Store_consistent c s Hs) as Hs1.
    destruct (Safe.Store c s) as [[h|e] s1] eqn:Hst; cbn [snd] in Hs1.
    + pose proof (Store_refcount c s) as Hrc. rewrite Hst in Hrc.
      destruct (Hrc h Hs) as [-> _].
      cbn [List.length] in Hlen, Hroom.
      specialize (IH (S i) (<[i := Safe.hashContent c]> hashes) s1 Hs1
                     ltac:(rewrite length_insert; lia)
                     (room_for_after_Store c s s1 _ _ Hs Hroom Hst)).
      rewrite take_succ_insert in IH by lia.
      destruct (Safe.StoreBatch_from _ _ rest s1) as [[hs|e] s'].
      * rewrite IH, <- app_assoc. reflexivity.
      * destruct IH as [(k & c' & e' & s_fail & Hk & -> & Hfail & ->) IHrc]. split.
        -- exists (S k), c', e', s_fail. split; [exact Hk|].
           split; [f_equal; lia|]. split.
           ++ cbn [take List.map]. unfold run in *. cbn [foldl run_op].
              rewrite Hst. exact Hfail.
           ++ cbn [take List.map]. now rewrite <- app_assoc.
        -- intros h'. rewrite IHrc, occurrences_app.
           destruct (Hrc h' Hs) as [_ ->].
           unfold occurrences at 2. cbn [List.filter].
           destruct (String.eqb_spec h' (Safe.hashContent c)) as [->|Hne].
           ++ rewrite decide_True by reflexivity. cbn [List.length].
              rewrite Nat.add_1_r, Nat.iter_succ_r. f_equal.
              apply dec_inc_count. intros r Hr.
              destruct Hroom as [_ Hroom]. destruct (Hroom _ r Hr). lia.
           ++ rewrite decide_False by exact Hne. cbn [List.length].
              now rewrite Nat.add_0_r.
    + split.
      * exists 0%nat, c, e, s1. split; [reflexivity|].
        split; [f_equal; lia|]. split; [exact Hst|].
        cbn [take List.map]. now rewrite app_nil_r.
      * intros h'. rewrite rollback_refcount by exact Hs1. f_equal.
        pose proof (Store_refcount c s h' Hs) as Hrc. now rewrite Hst in Hrc.
Qed.

(** C8: in a consistent store whose counts leave room for the batch,
    [StoreBatch] either returns the hash of every item in order, or
    fails at the first item [i] whose [Store] fails, after calling
    [Delete] on the hashes of items [0..i-1]; every reference count is
    then what it was before the call. *)
Theorem StoreBatch_rolls_back (s : Safe.t) (contents : list (list byte)) :
  consistent s -> room_for s (List.length contents) ->
  match Safe.StoreBatch contents s with
  | (Ok hashes, s') => hashes = List.map Safe.hashContent contents
  | (Err e, s') =>
      (exists i c e' s_fail,
          contents !! i = Some c /\ e = StoringContent i e' /\
          Safe.Store c (run (List.map OpStore (take i contents)) s) = (Err e', s_fail) /\
          s' = snd (Safe.rollback (List.map Safe.hashContent (take i contents)) s_fail)) /\
      forall h, refcount s' h = refcount s h
  end.
Proof.
  intros Hs Hroom. unfold Safe.StoreBatch.
  pose proof (StoreBatch_from_spec contents 0 (replicate (List.length contents) "") s Hs
                ltac:(now rewrite length_replicate) Hroom) as H.
  destruct (Safe.StoreBatch_from _ _ contents s) as [[hs|e] s']; exact H.
Qed.

(** A store whose disk holds a directory where the blob of ["b"] would
    go: [Store "b"] fails there, after [Store "a"] has succeeded. *)
Lemma StoreBatch_rolls_back_witness :
  let a := list_byte_of_string "a" in
  let b := list_byte_of_string "b" in
  let s0 := Safe.mk "/r" (Lru.New 2) 1000 None (mkEnv {[ "/r" := Dir ]} ∅ 1000) in
  let s := Safe.set_fs (insert (Safe.contentPath s0 (Safe.hashContent b)) Dir) s0 in
  exists e s',
    Safe.StoreBatch [a; b] s = (Err e, s') /\
    forall h, refcount s' h = refcount s h.
Proof.
  intros a b s0 s.
  assert (Hs : consistent s).
  { constructor.
    - discriminate.
    - cbn. lia.
    - intros h v Hl. cbn in Hl. rewrite lookup_empty in Hl. discriminate.
    - intros h c Hc. discriminate. }
  assert (Hroom : room_for s 2).
  { split; [reflexivity|]. intros h r Hr. unfold refcount in Hr. cbn in Hr.
    rewrite lookup_empty in Hr. discriminate. }
  pose proof (StoreBatch_rolls_back s [a; b] Hs Hroom) as H.
  destruct (Safe.StoreBatch [a; b] s) as [[hs|e] s'] eqn:E.
  - vm_compute in E. discriminate.
  - exists e, s'. split; [reflexivity | exact (proj2 H)].
Defined.
(** ** Claim C6: hunks of the diff *)

(** What [Diff] returns on the scenario of the specification, with one
    line of context: two hunks of one changed line each, both preceded
    by the line ["b"] as context; no hunk holds the deletion together
    with the addition, and the lines ["a"] and ["c"] appear nowhere.
    The statistics are as specified. *)
Theorem Diff_scenario_result :
  Diff.Diff (Diff.NewEngine 1) scenario_old scenario_new =
  Ok (Diff.mkResult
        [ Diff.mkHunk 2 1 1 0
            [ Diff.mkLine Diff.Context "b" 0 0; Diff.mkLine Diff.Deletion "b" 0 0 ];
          Diff.mkHunk 2 0 2 1
            [ Diff.mkLine Diff.Context "b" 0 0; Diff.mkLine Diff.Addition "x" 0 0 ] ]
        (Diff.mkStats 1 1 2)).
Proof. vm_refl. Qed.

(** The closing test at the end of the loop body fires as soon as the
    current hunk has one line, so no hunk of [extractHunks] ever has
    more than one: runs of changed lines are not grouped. *)
Lemma walk_step_single (oldLines newLines : list (list byte)) (lcs : list (list Z))
      (w : Diff.walk) :
  Diff.currentHunk w = None ->
  Forall (fun h => List.length (Diff.Lines h) = 1%nat) (Diff.hunks w) ->
  Diff.currentHunk (Diff.walk_step oldLines newLines lcs w) = None /\
  Forall (fun h => List.length (Diff.Lines h) = 1%nat)
         (Diff.hunks (Diff.walk_step oldLines newLines lcs w)).
Proof.
  intros Hcur Hall. unfold Diff.walk_step. rewrite Hcur.
  destruct (_ && _ && Diff.bytes_Equal _ _); cbn; [now split|].
  destruct (_ && (_ || _)); cbn; [split; [reflexivity | now constructor]|].
  destruct (_ && (_ || _)); cbn; [split; [reflexivity | now constructor]|].
  now split.
Qed.

Lemma walk_loop_single (oldLines newLines : list (list byte)) (lcs : list (list Z))
      (fuel : nat) : forall w,
  Diff.currentHunk w = None ->
  Forall (fun h => List.length (Diff.Lines h) = 1%nat) (Diff.hunks w) ->
  Forall (fun h => List.length (Diff.Lines h) = 1%nat)
         (Diff.hunks (Diff.walk_loop fuel oldLines newLines lcs w)).
Proof.
  induction fuel as [|fuel IH]; intros w Hcur Hall; [exact Hall|].
  cbn [Diff.walk_loop]. destruct (_ || _); [|exact Hall].
  destruct (walk_step_single oldLines newLines lcs w Hcur Hall) as [H1 H2].
  now apply IH.
Qed.

Lemma extractHunks_single_lines (oldLines newLines : list (list byte))
      (lcs : list (list Z)) :
  Forall (fun h => List.length (Diff.Lines h) = 1%nat)
         (Diff.extractHunks oldLines newLines lcs).
Proof. unfold Diff.extractHunks. now apply walk_loop_single. Qed.

(** The loop of [extractHunks] ends within its fuel: each round lowers
    [i + j]. *)
Lemma walk_step_decreases (oldLines newLines : list (list byte)) (lcs : list (list Z))
      (w : Diff.walk) :
  0 <= Diff.wi w -> 0 <= Diff.wj w -> 0 < Diff.wi w \/ 0 < Diff.wj w ->
  let w' := Diff.walk_step oldLines newLines lcs w in
  0 <= Diff.wi w' /\ 0 <= Diff.wj w' /\
  Diff.wi w' + Diff.wj w' < Diff.wi w + Diff.wj w.
Proof.
  intros Hi Hj Hpos. unfold Diff.walk_step.
  destruct (Z.ltb_spec 0 (Diff.wi w)) as [Hi'|Hi'];
    destruct (Z.ltb_spec 0 (Diff.wj w)) as [Hj'|Hj']; cbn [andb]; try lia.
  - destruct (Diff.bytes_Equal _ _).
    + destruct (option_map _ _) as [h|]; [destruct (_ <? _)|]; cbn; lia.
    + destruct (Z.eqb_spec (Diff.wi w) 0); [lia|]. cbn [orb].
      destruct (Z.eqb_spec (Diff.wj w) 0); [lia|]. cbn [orb].
      destruct (Z.geb_spec (Diff.mget lcs (Diff.wi w) (Diff.wj w - 1))
                           (Diff.mget lcs (Diff.wi w - 1) (Diff.wj w))) as [Hge|Hlt].
      * destruct (_ <? _); cbn; lia.
      * destruct (Z.ltb_spec (Diff.mget lcs (Diff.wi w) (Diff.wj w - 1))
                             (Diff.mget lcs (Diff.wi w - 1) (Diff.wj w))); [|lia].
        destruct (_ <? _); cbn; lia.
  - destruct (Z.eqb_spec (Diff.wj w) 0); [|lia]. cbn [orb].
    destruct (_ <? _); cbn; lia.
  - destruct (Z.eqb_spec (Diff.wi w) 0); [|lia]. cbn [orb].
    destruct (_ <? _); cbn; lia.
Qed.

Lemma walk_loop_finishes (oldLines newLines : list (list byte)) (lcs : list (list Z))
      (fuel : nat) : forall w,
  0 <= Diff.wi w -> 0 <= Diff.wj w -> Diff.wi w + Diff.wj w <= Z.of_nat fuel ->
  let w' := Diff.walk_loop fuel oldLines newLines lcs w in
  Diff.wi w' = 0 /\ Diff.wj w' = 0.
Proof.
  induction fuel as [|fuel IH]; intros w Hi Hj Hf; cbn [Diff.walk_loop].
  - cbn in Hf. lia.
  - destruct (Z.ltb_spec 0 (Diff.wi w)); destruct (Z.ltb_spec 0 (Diff.wj w));
      cbn [orb]; try lia.
    all: destruct (walk_step_decreases oldLines newLines lcs w Hi Hj ltac:(lia))
           as (H1 & H2 & H3); apply IH; lia.
Qed.
(** ** Claim C4: [Ungate] and the durable record *)

Lemma gated_keys_differ (p p' : string) : "gated/" +:+ p <> "gated:" +:+ p'.
Proof. cbn. intros E. discriminate E. Qed.

Lemma Ungate_ok (paths : list string) : forall w,
  fst (LocalWorkspace.Ungate paths w) = Ok tt.
Proof. induction paths as [|p paths IH]; intros w; [reflexivity | apply IH]. Qed.

(** [Ungate] deletes keys of the form [gated/<path>] and no other. *)
Lemma Ungate_DB_other (paths : list string) (k : string) : forall w,
  (forall p, k <> "gated/" +:+ p) ->
  LocalWorkspace.DB (snd (LocalWorkspace.Ungate paths w)) !! k = LocalWorkspace.DB w !! k.
Proof.
  induction paths as [|p paths IH]; intros w Hk; [reflexivity|].
  change (snd (LocalWorkspace.Ungate (p :: paths) w))
    with (snd (LocalWorkspace.Ungate paths
                 (LocalWorkspace.set_DB (delete (LocalWorkspace.gatedChangePrefix +:+ p))
                    (LocalWorkspace.set_gated (delete p) w)))).
  rewrite IH by exact Hk.
  unfold LocalWorkspace.DB. cbn -[String.append].
  apply lookup_delete_ne. intros E. exact (Hk p (eq_sym E)).
Qed.

(** In particular the record that [LoadGatedChanges] reads, the file
    state and the metadata of the content store stay as they are. *)
Lemma Ungate_leaves_gated_namespace (paths : list string) (w : LocalWorkspace.t)
      (p : string) :
  LocalWorkspace.DB (snd (LocalWorkspace.Ungate paths w)) !! ("gated:" +:+ p) =
  LocalWorkspace.DB w !! ("gated:" +:+ p).
Proof. apply Ungate_DB_other. intros q E. exact (gated_keys_differ q p (eq_sym E)). Qed.

Lemma Ungate_leaves_FileState_and_refcount (paths : list string) (w : LocalWorkspace.t)
      (p h : string) :
  LocalWorkspace.DB (snd (LocalWorkspace.Ungate paths w)) !! ("file_state:" +:+ p) =
  LocalWorkspace.DB w !! ("file_state:" +:+ p) /\
  refcount (LocalWorkspace.ContentSafe (snd (LocalWorkspace.Ungate paths w))) h =
  refcount (LocalWorkspace.ContentSafe w) h.
Proof.
  split.
  - apply Ungate_DB_other. intros q E. cbn in E. discriminate E.
  - unfold refcount.
    change (db (Safe.env (LocalWorkspace.ContentSafe ?x))) with (LocalWorkspace.DB x).
    rewrite Ungate_DB_other; [reflexivity|].
    intros q E. unfold Safe.metaKey in E. cbn in E. discriminate E.
Qed.

(** What the code does on the scenario of the specification: after
    gating [file.txt], [Ungate(["file.txt"])] succeeds and clears the
    in-memory entry, but the record under [gated:file.txt] is still in
    the database, and [LoadGatedChanges] brings the gated change back. *)
Theorem Ungate_record_survives_reload :
  let w1 := scenario_gated in
  let w2 := snd (LocalWorkspace.Ungate ["file.txt"] w1) in
  let w3 := snd (LocalWorkspace.LoadGatedChanges w2) in
  LocalWorkspace.GatedChanges w1 !! "file.txt" = Some scenario_change /\
  fst (LocalWorkspace.Ungate ["file.txt"] w1) = Ok tt /\
  LocalWorkspace.GatedChanges w2 !! "file.txt" = None /\
  LocalWorkspace.DB w2 !! "gated:file.txt" = Some (VChange scenario_change) /\
  fst (LocalWorkspace.LoadGatedChanges w2) = Ok tt /\
  LocalWorkspace.GatedChanges w3 !! "file.txt" = Some scenario_change.
Proof.
  intros w1 w2 w3.
  split; [vm_refl|]. split; [vm_refl|]. split; [vm_refl|].
  split; [vm_refl|]. split; vm_refl.
Qed.

(** ** Claim C5: [CleanupGatedChanges] and live blobs *)

Lemma foldl_delete_lookup (l : list string) (p : string) :
  forall g : gmap string Change,
    foldl (fun g path => delete path g) g l !! p =
    if bool_decide (p ∈ l) then None else g !! p.
Proof.
  induction l as [|x l IH]; intros g; cbn [foldl].
  - rewrite bool_decide_eq_false_2 by apply not_elem_of_nil. reflexivity.
  - rewrite IH. destruct (decide (p = x)) as [->|Hne].
    + rewrite (bool_decide_eq_true_2 (x ∈ x :: l)) by apply list_elem_of_here.
      destruct (bool_decide (x ∈ l)); [reflexivity | apply lookup_delete_eq].
    + rewrite lookup_delete_ne by congruence.
      destruct (decide (p ∈ l)) as [Hin|Hnin].
      * rewrite !bool_decide_eq_true_2; [reflexivity | now apply list_elem_of_further | exact Hin].
      * rewrite !bool_decide_eq_false_2; [reflexivity | | exact Hnin].
        intros Hin. apply elem_of_cons in Hin as [?|?]; contradiction.
Qed.

(** The entry of [path] after [CleanupGatedChanges]. *)
Lemma Cleanup_lookup (w : LocalWorkspace.t) (path : string) :
  LocalWorkspace.GatedChanges (snd (LocalWorkspace.CleanupGatedChanges w)) !! path =
  match LocalWorkspace.GatedChanges w !! path with
  | Some changeObj =>
      if LocalWorkspace.orphaned w path changeObj then None else Some changeObj
  | None => None
  end.
Proof.
  unfold LocalWorkspace.CleanupGatedChanges. cbn [snd LocalWorkspace.set_gated
    LocalWorkspace.GatedChanges].
  rewrite foldl_delete_lookup.
  set (G := LocalWorkspace.GatedChanges w).
  destruct (G !! path) as [ch|] eqn:Hg.
  - destruct (LocalWorkspace.orphaned w path ch) eqn:Ho.
    + rewrite bool_decide_eq_true_2; [reflexivity|].
      apply list_elem_of_In, List.in_map_iff. exists (path, ch). split; [reflexivity|].
      apply List.filter_In. split; [|exact Ho].
      apply list_elem_of_In, elem_of_map_to_list, Hg.
    + rewrite bool_decide_eq_false_2; [reflexivity|].
      intros Hin. apply list_elem_of_In, List.in_map_iff in Hin as ([p' ch'] & Hp & Hin).
      cbn in Hp. subst p'. apply List.filter_In in Hin as [Hin Ho'].
      apply list_elem_of_In, elem_of_map_to_list in Hin. cbn in Ho'. congruence.
  - destruct (bool_decide _); reflexivity.
Qed.

(** The path consulted by [CleanupGatedChanges] ends in the whole hash,
    the path of the content store in the hash without its first two
    characters: for a store rooted at [<Root>/.tig/content] the two are
    never the same file. *)
Lemma Cleanup_path_is_no_blob (w : LocalWorkspace.t) (h h' : string) :
  LocalWorkspace.Root w <> "" ->
  Safe.root (LocalWorkspace.ContentSafe w) = LocalWorkspace.Root w +:+ "/.tig/content" ->
  String.length h = 64%nat -> String.length h' = 64%nat ->
  filepath_Join [LocalWorkspace.Root w; ".tig"; "content"; slice 0 2 h; h] <>
  Safe.contentPath (LocalWorkspace.ContentSafe w) h'.
Proof.
  intros Hroot Hsafe Hl Hl' E. apply (f_equal String.length) in E.
  rewrite contentPath_length in E.
  2:{ rewrite Hsafe. destruct (LocalWorkspace.Root w); discriminate. }
  2:{ exact Hl'. }
  rewrite Hsafe in E. unfold filepath_Join, slice in E. cbn [List.filter] in E.
  assert (H1 : negb (String.eqb (LocalWorkspace.Root w) "") = true).
  { destruct (LocalWorkspace.Root w); [congruence | reflexivity]. }
  assert (H2 : negb (String.eqb (substring 0 (2 - 0) h) "") = true).
  { apply nonempty_eqb. rewrite substring_length; cbn; lia. }
  assert (H3 : negb (String.eqb h "") = true).
  { apply nonempty_eqb. lia. }
  rewrite H1, H2, H3 in E. cbn [negb String.eqb Ascii.eqb Bool.eqb String.concat] in E.
  rewrite !string_length_app, substring_length in E by (cbn; lia).
  cbn [String.length] in E. lia.
Qed.

(** What the code does on the scenario of the specification: the
    working file of the gated path is gone, its blob is still at the
    location of the content store and [Get] still serves it, and yet
    [CleanupGatedChanges] discards the gated entry. *)
Theorem Cleanup_discards_entry_with_live_blob :
  let w := LocalWorkspace.set_safe (Safe.set_fs (delete "/repo/file.txt")) scenario_gated in
  let h := NewHash scenario_change in
  LocalWorkspace.GatedChanges w !! "file.txt" = Some scenario_change /\
  LocalWorkspace.FS w !! "/repo/file.txt" = None /\
  LocalWorkspace.FS w !! Safe.contentPath (LocalWorkspace.ContentSafe w) h =
    Some (File (list_byte_of_string "hello") 420 1000) /\
  fst (Safe.Get h (LocalWorkspace.ContentSafe w)) = Ok (list_byte_of_string "hello") /\
  fst (LocalWorkspace.CleanupGatedChanges w) = Ok tt /\
  LocalWorkspace.GatedChanges (snd (LocalWorkspace.CleanupGatedChanges w)) !! "file.txt"
    = None.
Proof.
  intros w h.
  split; [vm_refl|]. split; [vm_refl|]. split; [vm_refl|].
  split; [vm_refl|]. split; vm_refl.
Qed.
(** ** Claim C9: the persisted file state *)

(** [Store] writes to the database under [content:] keys only. *)
Lemma Store_db_other (content : list byte) (s : Safe.t) (k : string) :
  (forall h, k <> Safe.metaKey h) ->
  db (Safe.env (snd (Safe.Store content s))) !! k = db (Safe.env s) !! k.
Proof.
  intros Hk. set (h := Safe.hashContent content).
  destruct (db (Safe.env s) !! Safe.metaKey h) as [v|] eqn:Hl.
  - destruct v as [m| | |].
    + unfold h in Hl. rewrite (Store_existing content s m Hl). cbn.
      apply lookup_insert_ne. intros E. exact (Hk _ (eq_sym E)).
    + unfold Safe.Store, bind, wrap.
      rewrite Exists_eq by apply isValidHash_hashContent. fold h. rewrite Hl.
      destruct (Lru.Contains h (Safe.cache s)); [|reflexivity].
      unfold Safe.incrementRefCount, bind, Safe.getMeta. fold h. now rewrite Hl.
    + unfold Safe.Store, bind, wrap.
      rewrite Exists_eq by apply isValidHash_hashContent. fold h. rewrite Hl.
      destruct (Lru.Contains h (Safe.cache s)); [|reflexivity].
      unfold Safe.incrementRefCount, bind, Safe.getMeta. fold h. now rewrite Hl.
    + unfold Safe.Store, bind, wrap.
      rewrite Exists_eq by apply isValidHash_hashContent. fold h. rewrite Hl.
      destruct (Lru.Contains h (Safe.cache s)); [|reflexivity].
      unfold Safe.incrementRefCount, bind, Safe.getMeta. fold h. now rewrite Hl.
  - destruct (Lru.Contains h (Safe.cache s)) eqn:Hc.
    + unfold Safe.Store, bind, wrap.
      rewrite Exists_eq by apply isValidHash_hashContent. fold h. rewrite Hc.
      unfold Safe.incrementRefCount, bind, Safe.getMeta. fold h. now rewrite Hl.
    + unfold h in Hl, Hc. rewrite (Store_new content s Hc Hl).
      destruct (fs (Safe.env s) !! _) as [[d mo mt|]|]; [reflexivity| |].
      all: destruct (<[_ := Dir]> (fs (Safe.env s)) !! _) as [[d' mo' mt'|]|];
        try reflexivity.
      all: cbn; apply lookup_insert_ne; intros E; exact (Hk _ (eq_sym E)).
Qed.

Lemma file_state_key_not_meta (p h : string) : "file_state:" +:+ p <> Safe.metaKey h.
Proof. unfold Safe.metaKey. cbn. intros E. discriminate E. Qed.

Lemma os_ReadFile_state (p : string) (s : Safe.t) : snd (Safe.os_ReadFile p s) = s.
Proof.
  unfold Safe.os_ReadFile. destruct (fs (Safe.env s) !! p) as [[d mo mt|]|]; reflexivity.
Qed.

Lemma os_Stat_state (p : string) (s : Safe.t) : snd (Safe.os_Stat p s) = s.
Proof. unfold Safe.os_Stat. destruct (fs (Safe.env s) !! p); reflexivity. Qed.

(** The only call of [gateFile] that reaches the database is [Store]. *)
Lemma gateFile_DB (relPath : string) (w : LocalWorkspace.t) :
  LocalWorkspace.DB (snd (LocalWorkspace.gateFile relPath w)) = LocalWorkspace.DB w \/
  exists content,
    LocalWorkspace.DB (snd (LocalWorkspace.gateFile relPath w)) =
    db (Safe.env (snd (Safe.Store content (LocalWorkspace.ContentSafe w)))).
Proof.
  unfold LocalWorkspace.gateFile, bind, wrap, LocalWorkspace.lift. cbn [gets id].
  pose proof (os_ReadFile_state (filepath_Join [LocalWorkspace.Root w; relPath])
                (LocalWorkspace.ContentSafe w)) as Hr.
  destruct (Safe.os_ReadFile _ (LocalWorkspace.ContentSafe w)) as [[content|e] s1].
  2:{ left. cbn in Hr. subst s1. reflexivity. }
  cbn in Hr. subst s1. cbn [LocalWorkspace.ContentSafe LocalWorkspace.set_safe
                              LocalWorkspace.Root].
  destruct (Safe.Store content (LocalWorkspace.ContentSafe w)) as [[h|e] s2] eqn:Hst.
  2:{ right. exists content. now rewrite Hst. }
  cbn [LocalWorkspace.ContentSafe LocalWorkspace.set_safe LocalWorkspace.Root].
  pose proof (os_Stat_state (filepath_Join [LocalWorkspace.Root w; relPath]) s2) as Hs.
  destruct (Safe.os_Stat _ s2) as [[info|e] s3]; cbn in Hs; subst s3;
    right; exists content; now rewrite Hst.
Qed.

Lemma gateFile_leaves_FileState (relPath p : string) (w : LocalWorkspace.t) :
  LocalWorkspace.DB (snd (LocalWorkspace.gateFile relPath w)) !! ("file_state:" +:+ p) =
  LocalWorkspace.DB w !! ("file_state:" +:+ p).
Proof.
  destruct (gateFile_DB relPath w) as [->|[content ->]]; [reflexivity|].
  apply Store_db_other. intros h. apply file_state_key_not_meta.
Qed.

Lemma tracker_Gate_leaves_FileState (path p : string) (lt : LocalTracker.t) :
  LocalTracker.DB (snd (LocalTracker.Gate path lt)) !! ("file_state:" +:+ p) =
  LocalTracker.DB lt !! ("file_state:" +:+ p).
Proof.
  unfold LocalTracker.Gate, bind, wrap, LocalTracker.lift. cbn [gets id].
  pose proof (os_Stat_state (filepath_Join [LocalTracker.Root lt; path])
                (LocalTracker.ContentSafe lt)) as Hs.
  destruct (Safe.os_Stat _ (LocalTracker.ContentSafe lt)) as [[info|e] s1];
    cbn in Hs; subst s1; [|reflexivity].
  cbn [LocalTracker.ContentSafe LocalTracker.set_safe LocalTracker.Root].
  pose proof (os_ReadFile_state (filepath_Join [LocalTracker.Root lt; path])
                (LocalTracker.ContentSafe lt)) as Hr.
  destruct (Safe.os_ReadFile _ (LocalTracker.ContentSafe lt)) as [[content|e] s1];
    cbn in Hr; subst s1; [|reflexivity].
  cbn [LocalTracker.ContentSafe LocalTracker.set_safe LocalTracker.Root].
  pose proof (Store_db_other content (LocalTracker.ContentSafe lt) ("file_state:" +:+ p)
                (fun h => file_state_key_not_meta p h)) as Hst.
  destruct (Safe.Store content (LocalTracker.ContentSafe lt)) as [[h|e] s2];
    cbn [snd] in Hst; [|exact Hst].
  unfold LocalTracker.DB. cbn -[String.append].
  rewrite lookup_insert_ne by (cbn; intros E; discriminate E). exact Hst.
Qed.

Lemma auto_gateFile_leaves_FileState (relPath p : string) (lt : LocalTracker.t) :
  LocalTracker.DB (snd (AutoTracker.gateFile relPath lt)) !! ("file_state:" +:+ p) =
  LocalTracker.DB lt !! ("file_state:" +:+ p).
Proof.
  unfold AutoTracker.gateFile. destruct (AutoTracker.ShouldIgnore relPath); [reflexivity|].
  unfold bind, wrap, LocalTracker.lift. cbn [gets id].
  pose proof (os_ReadFile_state (filepath_Join [LocalTracker.Root lt; relPath])
                (LocalTracker.ContentSafe lt)) as Hr.
  destruct (Safe.os_ReadFile _ (LocalTracker.ContentSafe lt)) as [[content|e] s1];
    cbn in Hr; subst s1; [|reflexivity].
  cbn [LocalTracker.ContentSafe LocalTracker.set_safe LocalTracker.Root].
  pose proof (Store_db_other content (LocalTracker.ContentSafe lt) ("file_state:" +:+ p)
                (fun h => file_state_key_not_meta p h)) as Hst.
  destruct (Safe.Store content (LocalTracker.ContentSafe lt)) as [[h|e] s2];
    cbn [snd] in Hst; [|exact Hst].
  cbn [LocalTracker.ContentSafe LocalTracker.set_safe LocalTracker.Root].
  pose proof (os_Stat_state (filepath_Join [LocalTracker.Root lt; relPath]) s2) as Hs.
  destruct (Safe.os_Stat _ s2) as [[info|e] s3]; cbn in Hs; subst s3; exact Hst.
Qed.

(** [saveTrackedFiles] only touches keys that start with [tracked:]. *)
Lemma db_iterate_prefix (pre : string) (d : gmap string dbval) (kv : string * dbval) :
  kv ∈ db_iterate pre d -> String.prefix pre kv.1 = true.
Proof.
  unfold db_iterate. rewrite merge_sort_Permutation.
  intros Hin. apply list_elem_of_In, List.filter_In in Hin. exact (proj2 Hin).
Qed.

Lemma foldl_delete_other (l : list (string * dbval)) (k : string) :
  forall d : gmap string dbval,
    (forall kv, kv ∈ l -> kv.1 <> k) ->
    foldl (fun d kv => delete kv.1 d) d l !! k = d !! k.
Proof.
  induction l as [|kv l IH]; intros d Hne; [reflexivity|].
  cbn [foldl]. rewrite IH.
  - apply lookup_delete_ne, Hne, list_elem_of_here.
  - intros kv' Hin. apply Hne. now apply list_elem_of_further.
Qed.

Lemma prefix_app (pre s : string) : String.prefix pre (pre +:+ s) = true.
Proof.
  induction pre as [|c pre IH].
  - destruct s; reflexivity.
  - change (String c pre +:+ s) with (String c (pre +:+ s)). cbn [String.prefix].
    destruct (Ascii.ascii_dec c c); [exact IH | contradiction].
Qed.

Lemma saveTrackedFiles_other (lt : LocalTracker.t) (k : string) :
  String.prefix "tracked:" k = false ->
  LocalTracker.DB (snd (LocalTracker.saveTrackedFiles lt)) !! k = LocalTracker.DB lt !! k.
Proof.
  intros Hk. unfold LocalTracker.saveTrackedFiles.
  cbn [snd]. unfold LocalTracker.DB at 1. cbn -[String.append db_iterate].
  apply (map_fold_weak_ind
           (fun r (_ : gmap string bool) => r !! k = LocalTracker.DB lt !! k)).
  - apply foldl_delete_other. intros kv Hin E.
    apply db_iterate_prefix in Hin. rewrite E in Hin. congruence.
  - intros path b m r _ Hr. rewrite lookup_insert_ne; [exact Hr|].
    intros E. rewrite <- E, prefix_app in Hk. discriminate.
Qed.

Lemma Untrack_loop_spec (paths : list string) : forall lt,
  fst (LocalTracker.Untrack_loop paths lt) = Ok tt /\
  (forall p, p ∈ paths ->
     LocalTracker.DB (snd (LocalTracker.Untrack_loop paths lt)) !! ("file_state:" +:+ p)
       = None /\
     LocalTracker.Tracked (snd (LocalTracker.Untrack_loop paths lt)) !! p = None) /\
  (forall k, LocalTracker.DB lt !! k = None ->
     LocalTracker.DB (snd (LocalTracker.Untrack_loop paths lt)) !! k = None) /\
  (forall p, LocalTracker.Tracked lt !! p = None ->
     LocalTracker.Tracked (snd (LocalTracker.Untrack_loop paths lt)) !! p = None).
Proof.
  induction paths as [|path paths IH]; intros lt.
  - split; [reflexivity|]. split; [|split; auto].
    intros p Hin. now apply not_elem_of_nil in Hin.
  - set (lt2 := LocalTracker.set_DB (delete ("file_state:" +:+ path))
                  (LocalTracker.set_tracked (delete path) lt)).
    change (LocalTracker.Untrack_loop (path :: paths) lt)
      with (LocalTracker.Untrack_loop paths lt2).
    destruct (IH lt2) as (Hok & Hdel & Hdb & Htr).
    split; [exact Hok|]. split; [|split].
    + intros p Hin. apply elem_of_cons in Hin as [->|Hin]; [|now apply Hdel].
      split.
      * apply Hdb. unfold lt2, LocalTracker.DB. cbn -[String.append].
        apply lookup_delete_eq.
      * apply Htr. unfold lt2. cbn. apply lookup_delete_eq.
    + intros k Hk. apply Hdb. unfold lt2, LocalTracker.DB. cbn -[String.append].
      rewrite lookup_delete_None. now right.
    + intros p Hp. apply Htr. unfold lt2. cbn.
      rewrite lookup_delete_None. now right.
Qed.

(** C9, as the code has it: gating a file, by [LocalWorkspace.gateFile],
    [LocalTracker.Gate] or [AutoTracker.gateFile], leaves every
    persisted file state as it was (none is created, none is updated);
    [LocalTracker.Untrack] succeeds, removes each of its paths from the
    tracked set and deletes the file state of each of them. *)
Theorem FileState_untouched_by_gating_deleted_by_Untrack :
  (forall (w : LocalWorkspace.t) (relPath p : string),
      LocalWorkspace.DB (snd (LocalWorkspace.gateFile relPath w)) !! ("file_state:" +:+ p)
      = LocalWorkspace.DB w !! ("file_state:" +:+ p)) /\
  (forall (lt : LocalTracker.t) (path p : string),
      LocalTracker.DB (snd (LocalTracker.Gate path lt)) !! ("file_state:" +:+ p)
      = LocalTracker.DB lt !! ("file_state:" +:+ p)) /\
  (forall (lt : LocalTracker.t) (relPath p : string),
      LocalTracker.DB (snd (AutoTracker.gateFile relPath lt)) !! ("file_state:" +:+ p)
      = LocalTracker.DB lt !! ("file_state:" +:+ p)) /\
  (forall (lt : LocalTracker.t) (paths : list string) (p : string),
      In p paths ->
      fst (LocalTracker.Untrack paths lt) = Ok tt /\
      LocalTracker.Tracked (snd (LocalTracker.Untrack paths lt)) !! p = None /\
      LocalTracker.DB (snd (LocalTracker.Untrack paths lt)) !! ("file_state:" +:+ p)
      = None).
Proof.
  split; [|split; [|split]].
  - intros w relPath p. apply gateFile_leaves_FileState.
  - intros lt path p. apply tracker_Gate_leaves_FileState.
  - intros lt relPath p. apply auto_gateFile_leaves_FileState.
  - intros lt paths p Hin. apply list_elem_of_In in Hin.
    destruct (Untrack_loop_spec paths lt) as (Hok & Hdel & _).
    destruct (Hdel p Hin) as [Hfs Htr].
    unfold LocalTracker.Untrack, bind.
    destruct (LocalTracker.Untrack_loop paths lt) as [[[]|e] lt1]; cbn in Hok;
      [|discriminate].
    cbn [snd] in Hfs, Htr. split; [reflexivity|]. split; [exact Htr|].
    rewrite saveTrackedFiles_other by reflexivity. exact Hfs.
Qed.

Lemma FileState_untouched_by_gating_deleted_by_Untrack_witness :
  LocalWorkspace.DB (snd (LocalWorkspace.gateFile "file.txt" scenario_ws))
    !! "file_state:file.txt" = None /\
  LocalTracker.DB scenario_tracker !! "file_state:file.txt" <> None /\
  fst (LocalTracker.Untrack ["file.txt"] scenario_tracker) = Ok tt /\
  LocalTracker.DB (snd (LocalTracker.Untrack ["file.txt"] scenario_tracker))
    !! "file_state:file.txt" = None.
Proof.
  destruct FileState_untouched_by_gating_deleted_by_Untrack as (Hg & _ & _ & Hu).
  destruct (Hu scenario_tracker ["file.txt"] "file.txt" (or_introl eq_refl))
    as (Hok & _ & Hdel).
  split; [|split; [|split]].
  - transitivity (LocalWorkspace.DB scenario_ws !! "file_state:file.txt");
      [exact (Hg scenario_ws "file.txt" "file.txt") | vm_refl].
  - vm_compute. discriminate.
  - exact Hok.
  - exact Hdel.
Defined.

(** C9 as stated fails: gating [file.txt] succeeds, stores its content
    and records the gated change, but no file state is created for the
    path. *)
Lemma gateFile_creates_no_FileState :
  let w := snd (LocalWorkspace.gateFile "file.txt" scenario_ws) in
  fst (LocalWorkspace.gateFile "file.txt" scenario_ws) = Ok tt /\
  LocalWorkspace.GatedChanges w !! "file.txt" = Some scenario_change /\
  LocalWorkspace.DB w !! "file_state:file.txt" = None /\
  fst (LocalWorkspace.getFileState "file.txt" w) = Err ErrKeyNotFound.
Proof.
  intros w. split; [vm_refl|]. split; [vm_refl|]. split; vm_refl.
Qed.

(* ===================================================================== *)
(** * Further properties of the code *)
(* ===================================================================== *)

(** ** The content store *)

(** ** What [Store] returns *)

Lemma Store_bumps (content : list byte) (s s' : Safe.t) (h : string) (m : ContentMeta) :
  db (Safe.env s) !! Safe.metaKey (Safe.hashContent content) = Some (VMeta m) ->
  Safe.Store content s = (Ok h, s') ->
  h = Safe.hashContent content /\ is_Some (refcount s' h).
Proof.
  intros Hm. rewrite (Store_existing content s m Hm). intros [= <- <-].
  split; [reflexivity|]. unfold refcount. cbn.
  destruct (decide (Safe.metaKey (Hash m) = Safe.metaKey (Safe.hashContent content))) as [E|E].
  - rewrite E, lookup_insert_eq. eauto.
  - rewrite lookup_insert_ne by exact E. rewrite Hm. eauto.
Qed.

(** [Store] fails when the hash is cached but has no usable metadata. *)
Lemma Store_cached_without_meta (content : list byte) (s : Safe.t) :
  (forall m, db (Safe.env s) !! Safe.metaKey (Safe.hashContent content)
             <> Some (VMeta m)) ->
  Lru.Contains (Safe.hashContent content) (Safe.cache s) = true \/
  is_Some (db (Safe.env s) !! Safe.metaKey (Safe.hashContent content)) ->
  is_ok (fst (Safe.Store content s)) = false.
Proof.
  intros Hm Hc.
  pose proof (isValidHash_hashContent content) as Hv.
  unfold Safe.Store. unfold bind at 1. unfold wrap at 1.
  rewrite (Exists_eq _ s Hv).
  destruct (Lru.Contains _ _) eqn:Hcont.
  - unfold bind, wrap, Safe.incrementRefCount, bind, Safe.getMeta.
    destruct (db (Safe.env s) !! _) as [[m| | |]|] eqn:E; try reflexivity.
    now destruct (Hm m).
  - destruct Hc as [Hc|[v Hv']]; [discriminate|]. rewrite Hv'.
    destruct v as [m| | |]; try reflexivity. now destruct (Hm m).
Qed.

Lemma Store_ok_refcount (content : list byte) (s s' : Safe.t) (h : string) :
  Safe.Store content s = (Ok h, s') ->
  h = Safe.hashContent content /\ is_Some (refcount s' h).
Proof.
  intros Hst.
  destruct (db (Safe.env s) !! Safe.metaKey (Safe.hashContent content))
    as [v|] eqn:Hm.
  - destruct v as [m| | |]; [exact (Store_bumps content s s' h m Hm Hst)| | |].
    all: exfalso;
      pose proof (Store_cached_without_meta content s) as H;
      rewrite Hm, Hst in H; cbn in H;
      enough (true = false) by discriminate; apply H; [intros m; discriminate | eauto].
  - destruct (Lru.Contains (Safe.hashContent content) (Safe.cache s)) eqn:Hc.
    + exfalso. pose proof (Store_cached_without_meta content s) as H.
      rewrite Hm, Hst in H. cbn in H.
      enough (true = false) by discriminate. apply H; [intros m; discriminate | auto].
    + revert Hst. rewrite (Store_new content s Hc Hm). cbv zeta.
      destruct (fs (Safe.env s) !! _) as [[d mo mt|]|]; [discriminate| |].
      all: destruct (<[_ := Dir]> (fs (Safe.env s)) !! _) as [[d' mo' mt'|]|];
        try discriminate; intros [= <- <-]; (split; [reflexivity|]);
        unfold refcount; cbn; rewrite lookup_insert_eq; eauto.
Qed.

(** X1.  Whenever [Store] succeeds, in any state of the store, the hash it
    returns is the SHA-256 of the bytes written as 64 lowercase
    hexadecimal digits, and a metadata record is persisted under it. *)
Theorem Store_returns_content_hash
        (content : list byte) (s s' : Safe.t) (h : string) :
  Safe.Store content s = (Ok h, s') ->
  h = Safe.hashContent content /\ lower_hex64 h /\ is_Some (refcount s' h).
Proof.
  intros Hst. destruct (Store_ok_refcount content s s' h Hst) as [-> Hr].
  split; [reflexivity|]. split; [apply hashContent_lower_hex64 | exact Hr].
Qed.

Lemma Store_returns_content_hash_witness :
  let s := Safe.mk "/r" (Lru.New 2) 1000 None (mkEnv {[ "/r" := Dir ]} ∅ 1000) in
  let b := list_byte_of_string "hello" in
  let h := "2cf24dba5fb0a30e26e83b2ac5b9e29e1b161e5c1fa7425e73043362938b9824" in
  h = Safe.hashContent b /\ lower_hex64 h /\
  is_Some (refcount (snd (Safe.Store b s)) h).
Proof.
  intros s b h.
  apply (Store_returns_content_hash b s (snd (Safe.Store b s)) h). vm_refl.
Defined.

(** ** What the operations answer for known, unknown and malformed hashes *)

Lemma refcount_Some_meta (s : Safe.t) (h : string) (r : Z) :
  refcount s h = Some r ->
  exists m, db (Safe.env s) !! Safe.metaKey h = Some (VMeta m) /\ RefCount m = r.
Proof.
  unfold refcount. destruct (db (Safe.env s) !! Safe.metaKey h) as [[m| | |]|];
    try discriminate. intros [= <-]. eauto.
Qed.

Lemma consistent_refcount (s : Safe.t) (h : string) (v : dbval) :
  consistent s -> db (Safe.env s) !! Safe.metaKey h = Some v -> is_Some (refcount s h).
Proof.
  intros Hs Hv. destruct (cons_meta s Hs h v Hv) as (m & c & -> & _).
  unfold refcount. rewrite Hv. eauto.
Qed.

Lemma reachable_consistent (s0 : Safe.t) (ops : list op) :
  fresh s0 -> consistent (run ops s0).
Proof. intros Hf. apply run_consistent, fresh_consistent, Hf. Qed.

Lemma Exists_consistent (h : string) (s : Safe.t) :
  consistent s -> hex64 h ->
  Safe.Exists h s = (Ok (bool_decide (is_Some (refcount s h))), s).
Proof.
  intros Hs Hh. rewrite (Exists_eq h s) by now apply isValidHash_iff.
  destruct (Lru.Contains h (Safe.cache s)) eqn:Hc.
  - apply Contains_assoc in Hc as [c Hc].
    destruct (cons_cache s Hs h c Hc) as [[v Hv] _].
    now rewrite bool_decide_eq_true_2 by exact (consistent_refcount s h v Hs Hv).
  - destruct (db (Safe.env s) !! Safe.metaKey h) as [v|] eqn:Hv.
    + pose proof (consistent_refcount s h v Hs Hv) as Hr.
      destruct (cons_meta s Hs h v Hv) as (m & c & -> & _).
      now rewrite bool_decide_eq_true_2 by exact Hr.
    + rewrite bool_decide_eq_false_2; [reflexivity|].
      unfold refcount. rewrite Hv. now intros [? ?].
Qed.

(** X2.  In every store reached from a fresh one, [Exists] answers whether
    the hash has a metadata record, and changes nothing. *)
Theorem Exists_reports_metadata (s0 : Safe.t) (ops : list op) (h : string) :
  fresh s0 -> hex64 h ->
  Safe.Exists h (run ops s0) =
  (Ok (bool_decide (is_Some (refcount (run ops s0) h))), run ops s0).
Proof. intros Hf. apply Exists_consistent, reachable_consistent, Hf. Qed.

Lemma Exists_reports_metadata_witness :
  let s0 := Safe.mk "/r" (Lru.New 2) 1000 None (mkEnv {[ "/r" := Dir ]} ∅ 1000) in
  let ops := [OpStore []; OpGet (Safe.hashContent [])] in
  let h := Safe.hashContent [] in
  Safe.Exists h (run ops s0) =
  (Ok (bool_decide (is_Some (refcount (run ops s0) h))), run ops s0).
Proof.
  intros s0 ops h.
  exact (Exists_reports_metadata s0 ops h scenario_store_fresh (hashContent_hex64 [])).
Defined.

(** X3.  A well-formed hash that has no metadata: [Get] and [Delete] fail
    with the not-found error wrapped in "getting metadata", and leave
    the store as it was. *)
Theorem unknown_hash_not_found (s0 : Safe.t) (ops : list op) (h : string) :
  fresh s0 -> hex64 h -> refcount (run ops s0) h = None ->
  Safe.Get h (run ops s0) =
    (Err (Wrapped "getting metadata" ErrContentNotFound), run ops s0) /\
  Safe.Delete h (run ops s0) =
    (Err (Wrapped "getting metadata" ErrContentNotFound), run ops s0).
Proof.
  intros Hf Hh Hr. pose proof (reachable_consistent s0 ops Hf) as Hs.
  set (s := run ops s0) in *.
  assert (Hv : Safe.isValidHash h = true) by now apply isValidHash_iff.
  pose proof (refcount_None_consistent s h Hs Hr) as Hm.
  pose proof (consistent_not_cached s h Hs Hm) as Hc.
  apply Contains_false_assoc in Hc.
  split.
  - now rewrite (Get_miss h s Hv Hc), Hm.
  - now rewrite (Delete_eq h s Hv), Hm.
Qed.

Lemma unknown_hash_not_found_witness :
  let s0 := Safe.mk "/r" (Lru.New 2) 1000 None (mkEnv {[ "/r" := Dir ]} ∅ 1000) in
  let ops := [OpStore (list_byte_of_string "hello")] in
  let h := Safe.hashContent [] in
  Safe.Get h (run ops s0) =
    (Err (Wrapped "getting metadata" ErrContentNotFound), run ops s0) /\
  Safe.Delete h (run ops s0) =
    (Err (Wrapped "getting metadata" ErrContentNotFound), run ops s0).
Proof.
  intros s0 ops h.
  apply (unknown_hash_not_found s0 ops h scenario_store_fresh (hashContent_hex64 [])).
  vm_refl.
Defined.

(** X4.  A string that is not 64 hexadecimal characters is refused by
    [Exists], [Delete] and [Verify] with [ErrInvalidHash], and by
    [GetBatch] with that error wrapped for the offending hash; nothing
    is changed. *)
Theorem malformed_hash_rejected (h : string) (s : Safe.t) (rest : list string) :
  ~ hex64 h ->
  Safe.Exists h s = (Err ErrInvalidHash, s) /\
  Safe.Delete h s = (Err ErrInvalidHash, s) /\
  Safe.Verify h s = (Err ErrInvalidHash, s) /\
  Safe.GetBatch (h :: rest) s = (Err (GettingContent h ErrInvalidHash), s).
Proof.
  intros Hh.
  assert (Hv : Safe.isValidHash h = false).
  { destruct (Safe.isValidHash h) eqn:E; [|reflexivity].
    apply isValidHash_iff in E. contradiction. }
  split; [now apply Exists_invalid|]. split; [now apply Delete_invalid|]. split.
  - now rewrite Verify_eq, (Get_invalid h s Hv).
  - unfold Safe.GetBatch. cbn [Safe.GetBatch_from]. now rewrite (Get_invalid h s Hv).
Qed.

Lemma malformed_hash_rejected_witness :
  let s := Safe.mk "/r" (Lru.New 2) 1000 None (mkEnv {[ "/r" := Dir ]} ∅ 1000) in
  let h := "not-a-hash" in
  Safe.Exists h s = (Err ErrInvalidHash, s) /\
  Safe.Delete h s = (Err ErrInvalidHash, s) /\
  Safe.Verify h s = (Err ErrInvalidHash, s) /\
  Safe.GetBatch [h; Safe.hashContent []] s = (Err (GettingContent h ErrInvalidHash), s).
Proof.
  intros s h. apply (malformed_hash_rejected h s [Safe.hashContent []]).
  intros [Hlen _]. vm_compute in Hlen. discriminate.
Defined.

(** ** [Get] is read-only *)

Lemma Get_consistent_effect (h : string) (s : Safe.t) :
  consistent s ->
  fs (Safe.env (snd (Safe.Get h s))) = fs (Safe.env s) /\
  (forall h', refcount (snd (Safe.Get h s)) h' = refcount s h') /\
  (forall c, fst (Safe.Get h s) = Ok c -> blob_at s h c).
Proof.
  intros Hs. destruct (Safe.isValidHash h) eqn:Hv.
  2:{ rewrite (Get_invalid h s Hv). cbn. repeat split. discriminate. }
  destruct (Lru.assoc h (Lru.items (Safe.cache s))) as [c'|] eqn:Hc.
  - rewrite (Get_hit h s c' Hv Hc). cbn. split; [reflexivity|]. split; [reflexivity|].
    intros c [= <-]. exact (proj2 (cons_cache s Hs h c' Hc)).
  - rewrite (Get_miss h s Hv Hc).
    destruct (db (Safe.env s) !! Safe.metaKey h) as [v|] eqn:Hm.
    2:{ cbn. repeat split. discriminate. }
    destruct (cons_meta s Hs h v Hm) as (m & c0 & -> & HH & Hcomp & _ & Hb & Hc0).
    pose proof Hb as (mo & mt & Hfile). rewrite Hfile.
    unfold decoded. rewrite Hcomp, Hc0, String.eqb_refl. cbn [negb fst snd].
    split; [reflexivity|]. split.
    + intros h'. unfold refcount. cbn. rewrite HH.
      destruct (decide (h = h')) as [<-|Hne].
      * now rewrite lookup_insert_eq, Hm.
      * now rewrite lookup_insert_ne by (intros E; apply metaKey_inj in E; congruence).
    + intros c [= <-]. exact Hb.
Qed.

(** X5.  In every store reached from a fresh one, [Get] leaves the disk and
    every reference count as they were, and the bytes it returns are
    those of the blob file of the hash. *)
Theorem Get_read_only (s0 : Safe.t) (ops : list op) (h : string) :
  fresh s0 ->
  fs (Safe.env (snd (Safe.Get h (run ops s0)))) = fs (Safe.env (run ops s0)) /\
  (forall h', refcount (snd (Safe.Get h (run ops s0))) h' = refcount (run ops s0) h') /\
  (forall c, fst (Safe.Get h (run ops s0)) = Ok c -> blob_at (run ops s0) h c).
Proof. intros Hf. apply Get_consistent_effect, reachable_consistent, Hf. Qed.

Lemma Get_read_only_witness :
  let s0 := Safe.mk "/r" (Lru.New 2) 1000 None (mkEnv {[ "/r" := Dir ]} ∅ 1000) in
  let ops := [OpStore (list_byte_of_string "hello")] in
  let h := Safe.hashContent (list_byte_of_string "hello") in
  fs (Safe.env (snd (Safe.Get h (run ops s0)))) = fs (Safe.env (run ops s0)) /\
  (forall h', refcount (snd (Safe.Get h (run ops s0))) h' = refcount (run ops s0) h') /\
  (forall c, fst (Safe.Get h (run ops s0)) = Ok c -> blob_at (run ops s0) h c).
Proof.
  intros s0 ops h. exact (Get_read_only s0 ops h scenario_store_fresh).
Defined.

(** ** Invariants of the reachable stores *)

(** X6.  In every store reached from a fresh one, a hash that has a
    reference count is served: its blob file is on disk, hashes to it,
    and [Exists], [Get] and [Verify] all succeed on it. *)
Theorem reachable_hash_is_served (s0 : Safe.t) (ops : list op) (h : string) (r : Z) :
  fresh s0 -> refcount (run ops s0) h = Some r ->
  exists c,
    blob_at (run ops s0) h c /\ Safe.hashContent c = h /\
    fst (Safe.Exists h (run ops s0)) = Ok true /\
    fst (Safe.Get h (run ops s0)) = Ok c /\
    fst (Safe.Verify h (run ops s0)) = Ok tt.
Proof.
  intros Hf Hr. pose proof (reachable_consistent s0 ops Hf) as Hs.
  set (s := run ops s0) in *.
  destruct (refcount_Some_meta s h r Hr) as (m & Hm & _).
  destruct (cons_meta s Hs h _ Hm) as (_ & _ & _ & _ & _ & Hhex & _).
  destruct (Get_present h s _ Hs Hm) as (c & Hb & Hc & Hget).
  exists c. split; [exact Hb|]. split; [exact Hc|]. split; [|split; [exact Hget|]].
  - rewrite (Exists_consistent h s Hs Hhex).
    cbn. rewrite Hr. now rewrite bool_decide_eq_true_2 by eauto.
  - rewrite Verify_eq. destruct (Safe.Get h s) as [[c'|e] s'] eqn:E; cbn in Hget.
    + injection Hget as ->. now rewrite Hc, String.eqb_refl.
    + discriminate.
Qed.

Lemma reachable_hash_is_served_witness :
  let s0 := Safe.mk "/r" (Lru.New 2) 1000 None (mkEnv {[ "/r" := Dir ]} ∅ 1000) in
  let ops := [OpStore (list_byte_of_string "hello"); OpStore []] in
  let h := Safe.hashContent (list_byte_of_string "hello") in
  exists c,
    blob_at (run ops s0) h c /\ Safe.hashContent c = h /\
    fst (Safe.Exists h (run ops s0)) = Ok true /\
    fst (Safe.Get h (run ops s0)) = Ok c /\
    fst (Safe.Verify h (run ops s0)) = Ok tt.
Proof.
  intros s0 ops h.
  apply (reachable_hash_is_served s0 ops h 1 scenario_store_fresh). vm_refl.
Defined.

(** ** What is on disk *)

Lemma run_app (ops more : list op) (s : Safe.t) :
  run (ops ++ more) s = run more (run ops s).
Proof. unfold run. apply foldl_app. Qed.

(** The states [Store] and [Delete] can leave behind, in a consistent
    store. *)
Lemma Store_cases (content : list byte) (s : Safe.t) :
  consistent s ->
  let h := Safe.hashContent content in
  let s' := snd (Safe.Store content s) in
  (exists m, db (Safe.env s) !! Safe.metaKey h = Some (VMeta m) /\
             s' = Safe.set_db (insert (Safe.metaKey h) (VMeta (bumped m))) s) \/
  (db (Safe.env s) !! Safe.metaKey h = None /\
   (s' = s \/ s' = Safe.set_fs (insert (shardDir s h) Dir) s \/
    (fs (Safe.env s) !! Safe.contentPath s h <> Some Dir /\
     exists mode, s' = stored_state content mode s))).
Proof.
  intros Hs h s'. subst s'.
  destruct (db (Safe.env s) !! Safe.metaKey h) as [v|] eqn:Hl.
  - left. destruct (cons_meta s Hs h v Hl) as (m & c & -> & Hh & _).
    unfold h in Hl. rewrite (Store_existing content s m Hl). fold h. rewrite Hh. eauto.
  - right. split; [reflexivity|].
    pose proof (consistent_not_cached s h Hs Hl) as Hnc.
    pose proof (hashContent_hex64 content) as Hhex. fold h in Hhex.
    unfold h in Hl, Hnc. rewrite (Store_new content s Hnc Hl). fold h. cbv zeta.
    rewrite (Dir_contentPath s h (cons_root s Hs) Hhex).
    assert (Hne : Safe.contentPath s h <> shardDir s h).
    { apply contentPath_ne_shardDir; [exact (cons_root s Hs) | now apply hex64_length..]. }
    destruct (fs (Safe.env s) !! shardDir s h) as [[d mo mt|]|]; [now left| |].
    all: rewrite lookup_insert_ne by congruence.
    all: destruct (fs (Safe.env s) !! Safe.contentPath s h) as [[d' mo' mt'|]|] eqn:Hp;
      cbn [snd]; [right; right; split; [congruence | eauto]
                 | right; now left
                 | right; right; split; [congruence | eauto]].
Qed.

Lemma Delete_cases (h : string) (s : Safe.t) :
  consistent s ->
  let s' := snd (Safe.Delete h s) in
  s' = s \/
  (exists m, db (Safe.env s) !! Safe.metaKey h = Some (VMeta m) /\
             s' = Safe.set_db (insert (Safe.metaKey h) (VMeta (dropped m))) s) \/
  (hex64 h /\ exists c, blob_at s h c /\ s' = removed_state h s).
Proof.
  intros Hs s'. subst s'. destruct (Safe.isValidHash h) eqn:Hv.
  2:{ left. now rewrite (Delete_invalid h s Hv). }
  rewrite (Delete_eq h s Hv).
  destruct (db (Safe.env s) !! Safe.metaKey h) as [v|] eqn:Hl; [|now left].
  destruct (cons_meta s Hs h v Hl) as (m & c & -> & Hh & _ & Hhex & Hb & _).
  pose proof Hb as (mo & mt & Hfile). rewrite Hfile, Hh.
  destruct (uint32_wrap (RefCount m - 1) =? 0); cbn [snd]; right; [right|left]; eauto.
Qed.

Lemma Store_root (content : list byte) (s : Safe.t) :
  consistent s -> Safe.root (snd (Safe.Store content s)) = Safe.root s.
Proof.
  intros Hs. destruct (Store_cases content s Hs)
    as [(m & _ & ->)|(_ & [->|[->|(_ & mode & ->)]])]; reflexivity.
Qed.

Lemma Delete_root (h : string) (s : Safe.t) :
  consistent s -> Safe.root (snd (Safe.Delete h s)) = Safe.root s.
Proof.
  intros Hs. destruct (Delete_cases h s Hs) as [->|[(m & _ & ->)|(_ & c & _ & ->)]];
    reflexivity.
Qed.

Lemma Get_root (h : string) (s : Safe.t) :
  Safe.root (snd (Safe.Get h s)) = Safe.root s.
Proof.
  destruct (Safe.isValidHash h) eqn:Hv.
  2:{ now rewrite (Get_invalid h s Hv). }
  destruct (Lru.assoc h (Lru.items (Safe.cache s))) as [c'|] eqn:Hc.
  - now rewrite (Get_hit h s c' Hv Hc).
  - rewrite (Get_miss h s Hv Hc).
    destruct (db (Safe.env s) !! Safe.metaKey h) as [[m| | |]|]; try reflexivity.
    destruct (fs (Safe.env s) !! Safe.contentPath s h) as [[raw mo mt|]|];
      try reflexivity.
    destruct (decoded s m raw) as [content|]; [|reflexivity].
    now destruct (negb _).
Qed.

Lemma refcount_insert (s : Safe.t) (h h' : string) (m : ContentMeta) :
  is_Some (refcount s h') ->
  is_Some (refcount (Safe.set_db (insert (Safe.metaKey h) (VMeta m)) s) h').
Proof.
  unfold refcount. cbn. intros Hr. destruct (decide (h = h')) as [<-|Hne].
  - rewrite lookup_insert_eq. eauto.
  - now rewrite lookup_insert_ne by (intros E; apply metaKey_inj in E; congruence).
Qed.

Lemma Store_no_orphans (content : list byte) (s : Safe.t) :
  consistent s -> no_orphans s -> no_orphans (snd (Safe.Store content s)).
Proof.
  intros Hs Hno h1 c mo mt Hh1.
  rewrite (contentPath_root s) by now apply Store_root.
  pose proof (cons_root s Hs) as Hroot.
  pose proof (hashContent_hex64 content) as Hhex.
  assert (Hsd : Safe.contentPath s h1 <> shardDir s (Safe.hashContent content)).
  { apply contentPath_ne_shardDir; [exact Hroot | now apply hex64_length..]. }
  destruct (Store_cases content s Hs)
    as [(m & _ & ->)|(Hl & [->|[->|(_ & mode & ->)]])].
  - cbn [Safe.set_db Safe.set_env Safe.env fs]. intros Hf.
    apply refcount_insert. exact (Hno h1 c mo mt Hh1 Hf).
  - apply Hno; exact Hh1.
  - cbn. rewrite lookup_insert_ne by congruence.
    intros Hf. exact (Hno h1 c mo mt Hh1 Hf).
  - cbn. rewrite (Dir_contentPath s _ Hroot Hhex).
    destruct (decide (Safe.hashContent content = h1)) as [<-|Hne].
    + intros _. unfold refcount. cbn. rewrite lookup_insert_eq. eauto.
    + rewrite lookup_insert_ne.
      2:{ intros E. apply contentPath_inj in E;
            [congruence | assumption | now apply hex64_length..]. }
      rewrite lookup_insert_ne by congruence.
      intros Hf. pose proof (Hno h1 c mo mt Hh1 Hf) as Hr.
      unfold refcount in *. cbn.
      now rewrite lookup_insert_ne by (intros E; apply metaKey_inj in E; congruence).
Qed.

Lemma Get_no_orphans (h : string) (s : Safe.t) :
  consistent s -> no_orphans s -> no_orphans (snd (Safe.Get h s)).
Proof.
  intros Hs Hno h1 c mo mt Hh1.
  rewrite (contentPath_root s) by apply Get_root.
  destruct (Get_consistent_effect h s Hs) as (-> & Hr & _). rewrite Hr.
  now apply Hno.
Qed.

Lemma Delete_no_orphans (h : string) (s : Safe.t) :
  consistent s -> no_orphans s -> no_orphans (snd (Safe.Delete h s)).
Proof.
  intros Hs Hno h1 c mo mt Hh1.
  rewrite (contentPath_root s) by now apply Delete_root.
  destruct (Delete_cases h s Hs) as [->|[(m & Hm & ->)|(Hhex & c0 & Hb & ->)]].
  - now apply Hno.
  - cbn [Safe.set_db Safe.set_env Safe.env fs]. intros Hf.
    apply refcount_insert. exact (Hno h1 c mo mt Hh1 Hf).
  - cbn. destruct (decide (h = h1)) as [<-|Hne].
    + now rewrite lookup_delete_eq.
    + rewrite lookup_delete_ne.
      2:{ intros E. apply contentPath_inj in E;
            [congruence | exact (cons_root s Hs) | now apply hex64_length..]. }
      intros Hf. pose proof (Hno h1 c mo mt Hh1 Hf) as Hr.
      unfold refcount in *. cbn.
      now rewrite lookup_delete_ne by (intros E; apply metaKey_inj in E; congruence).
Qed.

Lemma run_no_orphans (ops : list op) : forall s,
  consistent s -> no_orphans s -> no_orphans (run ops s).
Proof.
  induction ops as [|o ops IH]; intros s Hs Hno; [exact Hno|].
  change (run (o :: ops) s) with (run ops (run_op s o)).
  destruct o as [content|hash|hash]; cbn [run_op]; apply IH.
  - now apply Store_consistent.
  - now apply Store_no_orphans.
  - now apply Get_consistent.
  - now apply Get_no_orphans.
  - now apply Delete_consistent.
  - now apply Delete_no_orphans.
Qed.

Lemma fresh_no_orphans (s : Safe.t) : fresh s -> no_orphans s.
Proof.
  intros Hf. destruct (fresh_inv s Hf) as (Root & n & b & clk & Hroot & Hn & ->).
  intros h c mo mt Hh. cbn [Safe.env fs]. intros Hp.
  apply lookup_singleton_Some in Hp as [_ ?]. discriminate.
Qed.

(** X7.  In every store reached from a fresh one the disk holds the root
    directory, shard directories [<root>/<hash[:2]>], and blob files
    [<root>/<hash[:2]>/<hash[2:]>], each holding bytes whose SHA-256 is
    its hash and each with a metadata record; nothing else. *)
Theorem reachable_disk_layout (s0 : Safe.t) (ops : list op) (p : string) (n : node) :
  fresh s0 ->
  fs (Safe.env (run ops s0)) !! p = Some n ->
  (p = Safe.root (run ops s0) /\ n = Dir) \/
  (exists h, hex64 h /\ p = shardDir (run ops s0) h /\ n = Dir) \/
  (exists h c mode mtime,
      hex64 h /\ p = Safe.contentPath (run ops s0) h /\ n = File c mode mtime /\
      Safe.hashContent c = h /\ is_Some (refcount (run ops s0) h)).
Proof.
  intros Hf Hp.
  destruct (run_well_formed ops s0 (fresh_consistent s0 Hf) (fresh_fs_shape s0 Hf))
    as [Hs Hsh].
  pose proof (run_no_orphans ops s0 (fresh_consistent s0 Hf) (fresh_no_orphans s0 Hf))
    as Hno.
  set (s := run ops s0) in *.
  destruct (Hsh p n Hp) as [H|[H|(h & c & mo & mt & Hh & -> & ->)]]; [auto | auto |].
  right. right. exists h, c, mo, mt.
  pose proof (Hno h c mo mt Hh Hp) as [r Hr].
  split; [exact Hh|]. split; [reflexivity|]. split; [reflexivity|]. split; [|eauto].
  destruct (refcount_Some_meta s h r Hr) as (m & Hm & _).
  destruct (cons_meta s Hs h _ Hm) as (_ & c' & _ & _ & _ & _ & Hb & Hc').
  rewrite (blob_at_functional s h c c'); [exact Hc' | | exact Hb].
  now exists mo, mt.
Qed.

Lemma reachable_disk_layout_witness :
  let s0 := Safe.mk "/r" (Lru.New 2) 1000 None (mkEnv {[ "/r" := Dir ]} ∅ 1000) in
  let ops := [OpStore (list_byte_of_string "hello")] in
  let s := run ops s0 in
  let p := "/r/2c/f24dba5fb0a30e26e83b2ac5b9e29e1b161e5c1fa7425e73043362938b9824" in
  let n := File (list_byte_of_string "hello") 420 1000 in
  (p = Safe.root s /\ n = Dir) \/
  (exists h, hex64 h /\ p = shardDir s h /\ n = Dir) \/
  (exists h c mode mtime,
      hex64 h /\ p = Safe.contentPath s h /\ n = File c mode mtime /\
      Safe.hashContent c = h /\ is_Some (refcount s h)).
Proof.
  intros s0 ops s p n.
  apply (reachable_disk_layout s0 ops p n scenario_store_fresh). vm_refl.
Defined.

Lemma Store_keeps_dirs (content : list byte) (s : Safe.t) (p : string) :
  consistent s -> fs (Safe.env s) !! p = Some Dir ->
  fs (Safe.env (snd (Safe.Store content s))) !! p = Some Dir.
Proof.
  intros Hs Hp.
  destruct (Store_cases content s Hs)
    as [(m & _ & ->)|(Hl & [->|[->|(Hnd & mode & ->)]])]; cbn; try exact Hp.
  - destruct (decide (shardDir s (Safe.hashContent content) = p)) as [<-|Hne].
    + apply lookup_insert_eq.
    + now rewrite lookup_insert_ne by exact Hne.
  - rewrite lookup_insert_ne by congruence.
    destruct (decide (filepath_Dir (Safe.contentPath s (Safe.hashContent content)) = p))
      as [<-|Hne].
    + apply lookup_insert_eq.
    + now rewrite lookup_insert_ne by exact Hne.
Qed.

Lemma Delete_keeps_dirs (h : string) (s : Safe.t) (p : string) :
  consistent s -> fs (Safe.env s) !! p = Some Dir ->
  fs (Safe.env (snd (Safe.Delete h s))) !! p = Some Dir.
Proof.
  intros Hs Hp.
  destruct (Delete_cases h s Hs) as [->|[(m & Hm & ->)|(Hhex & c0 & Hb & ->)]];
    cbn; try exact Hp.
  destruct Hb as (mo & mt & Hb).
  now rewrite lookup_delete_ne by congruence.
Qed.

Lemma run_keeps_dirs (ops : list op) (p : string) : forall s,
  consistent s -> fs (Safe.env s) !! p = Some Dir ->
  fs (Safe.env (run ops s)) !! p = Some Dir.
Proof.
  induction ops as [|o ops IH]; intros s Hs Hp; [exact Hp|].
  change (run (o :: ops) s) with (run ops (run_op s o)).
  destruct o as [content|hash|hash]; cbn [run_op]; apply IH.
  - now apply Store_consistent.
  - now apply Store_keeps_dirs.
  - now apply Get_consistent.
  - now rewrite (proj1 (Get_consistent_effect hash s Hs)).
  - now apply Delete_consistent.
  - now apply Delete_keeps_dirs.
Qed.

(** X8.  Directories are never removed: a directory that is on disk in a
    store reached from a fresh one is still there after any further
    calls, the shard directory of a deleted blob included. *)
Theorem directories_are_never_removed
        (s0 : Safe.t) (ops more : list op) (p : string) :
  fresh s0 ->
  fs (Safe.env (run ops s0)) !! p = Some Dir ->
  fs (Safe.env (run (ops ++ more) s0)) !! p = Some Dir.
Proof.
  intros Hf Hp. rewrite run_app.
  apply run_keeps_dirs; [now apply reachable_consistent | exact Hp].
Qed.

Lemma directories_are_never_removed_witness :
  let s0 := Safe.mk "/r" (Lru.New 2) 1000 None (mkEnv {[ "/r" := Dir ]} ∅ 1000) in
  let b := list_byte_of_string "hello" in
  fs (Safe.env (run ([OpStore b] ++ [OpDelete (Safe.hashContent b)]) s0)) !! "/r/2c"
  = Some Dir /\
  fs (Safe.env (run ([OpStore b] ++ [OpDelete (Safe.hashContent b)]) s0))
    !! Safe.contentPath s0 (Safe.hashContent b) = None.
Proof.
  intros s0 b. split.
  - apply (directories_are_never_removed s0 [OpStore b] [OpDelete (Safe.hashContent b)]
             "/r/2c" scenario_store_fresh).
    vm_refl.
  - vm_refl.
Defined.

(** ** [Delete] undoes [Store] *)

(** X9.  In a store reached from a fresh one by fewer than 2^32 - 1 calls of
    [Store], a [Store] followed by a [Delete] of the hash it returned
    succeeds and leaves every reference count as it was before. *)
Theorem Delete_undoes_Store (s0 : Safe.t) (ops : list op) (content : list byte) :
  fresh s0 -> stores ops + 1 < 2 ^ 32 ->
  exists h s1 s2,
    Safe.Store content (run ops s0) = (Ok h, s1) /\
    Safe.Delete h s1 = (Ok tt, s2) /\
    forall h', refcount s2 h' = refcount (run ops s0) h'.
Proof.
  intros Hf Hn.
  destruct (run_well_formed ops s0 (fresh_consistent s0 Hf) (fresh_fs_shape s0 Hf))
    as [Hs Hsh].
  assert (Hcnt : counts_between (run ops s0) (0 + stores ops)).
  { apply run_counts; [now apply fresh_consistent | lia | | lia].
    destruct (fresh_inv s0 Hf) as (Root & n & b & clk & _ & _ & ->).
    intros k m. cbn. now rewrite lookup_empty. }
  set (s := run ops s0) in *.
  destruct (Store_succeeds content s Hs Hsh) as [s1 Hst].
  set (h := Safe.hashContent content) in *.
  pose proof (Store_consistent content s Hs) as Hs1. rewrite Hst in Hs1. cbn [snd] in Hs1.
  assert (Hr1 : forall h', refcount s1 h' =
                  if decide (h' = h) then inc_count (refcount s h') else refcount s h').
  { intros h'. pose proof (Store_refcount content s h' Hs) as H.
    rewrite Hst in H. exact (proj2 H). }
  assert (Hv : Safe.isValidHash h = true) by apply isValidHash_hashContent.
  exists h, s1, (snd (Safe.Delete h s1)).
  split; [exact Hst|]. split.
  - destruct (Safe.Delete h s1) as [r s2] eqn:Hd. cbn [snd]. f_equal.
    rewrite (Delete_eq h s1 Hv) in Hd.
    pose proof (Hr1 h) as Hrh. rewrite decide_True in Hrh by reflexivity.
    destruct (refcount_Some_meta s1 h _ Hrh) as (m & Hm & _).
    rewrite Hm in Hd.
    destruct (cons_meta s1 Hs1 h _ Hm) as (_ & c & _ & _ & _ & _ & (mo & mt & Hb) & _).
    rewrite Hb in Hd. destruct (_ =? 0) in Hd; now injection Hd as <- _.
  - intros h'. rewrite (Delete_refcount h s1 h' Hs1), Hr1.
    destruct (decide (h' = h)) as [->|]; [|reflexivity].
    apply dec_inc_count. intros r Hr.
    destruct (refcount_Some_meta s h r Hr) as (m & Hm & <-).
    pose proof (Hcnt _ m Hm). lia.
Qed.

Lemma Delete_undoes_Store_witness :
  let s0 := Safe.mk "/r" (Lru.New 2) 1000 None (mkEnv {[ "/r" := Dir ]} ∅ 1000) in
  let b := list_byte_of_string "hello" in
  let ops := [OpStore b; OpStore []] in
  exists h s1 s2,
    Safe.Store b (run ops s0) = (Ok h, s1) /\
    Safe.Delete h s1 = (Ok tt, s2) /\
    forall h', refcount s2 h' = refcount (run ops s0) h'.
Proof.
  intros s0 b ops.
  apply (Delete_undoes_Store s0 ops b scenario_store_fresh).
  unfold Z.lt. vm_refl.
Defined.

(** ** Batches *)

Lemma take_S_insert {A} (i : nat) (x : A) (l : list A) :
  (i < List.length l)%nat -> take (S i) (<[i := x]> l) = (take i l ++ [x])%list.
Proof.
  revert l. induction i as [|i IH]; intros [|y l] Hl; cbn in *; try lia.
  - reflexivity.
  - now rewrite IH by lia.
Qed.

Lemma cached_hashes_to_key (s : Safe.t) (h : string) (v : list byte) :
  consistent s -> Lru.assoc h (Lru.items (Safe.cache s)) = Some v ->
  Safe.hashContent v = h.
Proof.
  intros Hs Hc. destruct (cons_cache s Hs h v Hc) as [[w Hw] Hb].
  destruct (cons_meta s Hs h w Hw) as (_ & c & _ & _ & _ & _ & Hb' & Hc').
  now rewrite (blob_at_functional s h v c Hb Hb').
Qed.

Lemma run_gets_effect (hashes : list string) : forall s,
  consistent s ->
  consistent (run (List.map OpGet hashes) s) /\
  fs (Safe.env (run (List.map OpGet hashes) s)) = fs (Safe.env s) /\
  forall h', refcount (run (List.map OpGet hashes) s) h' = refcount s h'.
Proof.
  induction hashes as [|h hashes IH]; intros s Hs; [split; [exact Hs | split; [reflexivity | intros; reflexivity]]|].
  cbn [List.map]. change (run (OpGet h :: ?l) s) with (run l (snd (Safe.Get h s))).
  destruct (IH _ (Get_consistent h s Hs)) as (Hs' & Hfs & Hr).
  destruct (Get_consistent_effect h s Hs) as (Hfs1 & Hr1 & _).
  split; [exact Hs'|]. split; [congruence|]. intros h'. now rewrite Hr, Hr1.
Qed.

(** The loop of [GetBatch]: it ends in the state the successive [Get]
    calls produce; the bytes hash to the requested keys; a failure is
    that of the first [Get] that fails. *)
Lemma GetBatch_from_spec (hashes : list string) :
  forall i acc s,
    consistent s -> List.length acc = (i + List.length hashes)%nat ->
    match Safe.GetBatch_from i acc hashes s with
    | (Ok cs, s') =>
        s' = run (List.map OpGet hashes) s /\
        exists got, cs = (take i acc ++ got)%list /\
                    List.map Safe.hashContent got = hashes
    | (Err e, s') =>
        exists k h e',
          hashes !! k = Some h /\ e = GettingContent h e' /\
          s' = run (List.map OpGet (take (S k) hashes)) s /\
          fst (Safe.Get h (run (List.map OpGet (take k hashes)) s)) = Err e'
    end.
Proof.
  induction hashes as [|h rest IH]; intros i acc s Hs Hlen.
  - cbn. split; [reflexivity|]. exists []. split; [|reflexivity].
    rewrite app_nil_r, take_ge; [reflexivity | cbn in Hlen; lia].
  - cbn [Safe.GetBatch_from].
    pose proof (Get_consistent h s Hs) as Hs1.
    destruct (Safe.Get h s) as [[c|e] s1] eqn:Hg; cbn [snd] in Hs1.
    + assert (Hc : Safe.hashContent c = h).
      { apply (Get_returns_matching h s c); [|now rewrite Hg].
        intros v. now apply cached_hashes_to_key. }
      cbn [List.length] in Hlen.
      specialize (IH (S i) (<[i := c]> acc) s1 Hs1 ltac:(rewrite length_insert; lia)).
      rewrite take_S_insert in IH by lia.
      assert (Hrun : forall l, run (OpGet h :: l) s = run l s1).
      { intros l. unfold run. cbn [foldl run_op]. now rewrite Hg. }
      destruct (Safe.GetBatch_from _ _ rest s1) as [[cs|e] s'].
      * destruct IH as (-> & got & -> & Hgot). split.
        -- cbn [List.map]. now rewrite Hrun.
        -- exists (c :: got). split; [now rewrite <- app_assoc|].
           cbn [List.map]. now rewrite Hc, Hgot.
      * destruct IH as (k & h' & e' & Hk & -> & -> & Hfail).
        exists (S k), h', e'. split; [exact Hk|]. split; [reflexivity|].
        cbn [take List.map]. rewrite !Hrun. split; [reflexivity | exact Hfail].
    + exists 0%nat, h, e. split; [reflexivity|]. split; [reflexivity|].
      cbn [take List.map]. unfold run. cbn [foldl run_op]. rewrite Hg. now split.
Qed.

(** X10.  In every store reached from a fresh one, [GetBatch] returns, in the
    order asked, bytes whose SHA-256 is the requested hash; when it
    fails, the error is that of a [Get] of one of the hashes, wrapped
    with that hash; either way the disk and the reference counts are
    left as they were. *)
Theorem GetBatch_returns_requested (s0 : Safe.t) (ops : list op) (hashes : list string) :
  fresh s0 ->
  (fs (Safe.env (snd (Safe.GetBatch hashes (run ops s0)))) = fs (Safe.env (run ops s0)) /\
   forall h, refcount (snd (Safe.GetBatch hashes (run ops s0))) h
             = refcount (run ops s0) h) /\
  match fst (Safe.GetBatch hashes (run ops s0)) with
  | Ok contents => List.map Safe.hashContent contents = hashes
  | Err e =>
      exists k h e',
        hashes !! k = Some h /\ e = GettingContent h e' /\
        fst (Safe.Get h (run (ops ++ List.map OpGet (take k hashes)) s0)) = Err e'
  end.
Proof.
  intros Hf. pose proof (reachable_consistent s0 ops Hf) as Hs.
  pose proof (GetBatch_from_spec hashes 0 (replicate (List.length hashes) []) (run ops s0)
                Hs ltac:(now rewrite length_replicate)) as H.
  unfold Safe.GetBatch.
  destruct (Safe.GetBatch_from _ _ hashes (run ops s0)) as [[cs|e] s'].
  - destruct H as (-> & got & -> & Hgot). cbn [fst snd]. split.
    + destruct (run_gets_effect hashes _ Hs) as (_ & Hfs & Hr). now split.
    + exact Hgot.
  - destruct H as (k & h & e' & Hk & -> & -> & Hfail). cbn [fst snd]. split.
    + destruct (run_gets_effect (take (S k) hashes) _ Hs) as (_ & Hfs & Hr). now split.
    + exists k, h, e'. rewrite run_app. now repeat split.
Qed.

Lemma GetBatch_returns_requested_witness :
  let s0 := Safe.mk "/r" (Lru.New 2) 1000 None (mkEnv {[ "/r" := Dir ]} ∅ 1000) in
  let a := list_byte_of_string "a" in
  let b := list_byte_of_string "b" in
  let ops := [OpStore a; OpStore b] in
  let hashes := [Safe.hashContent b; Safe.hashContent a] in
  (fs (Safe.env (snd (Safe.GetBatch hashes (run ops s0)))) = fs (Safe.env (run ops s0)) /\
   forall h, refcount (snd (Safe.GetBatch hashes (run ops s0))) h
             = refcount (run ops s0) h) /\
  match fst (Safe.GetBatch hashes (run ops s0)) with
  | Ok contents => List.map Safe.hashContent contents = hashes
  | Err e =>
      exists k h e',
        hashes !! k = Some h /\ e = GettingContent h e' /\
        fst (Safe.Get h (run (ops ++ List.map OpGet (take k hashes)) s0)) = Err e'
  end.
Proof.
  intros s0 a b ops hashes.
  exact (GetBatch_returns_requested s0 ops hashes scenario_store_fresh).
Defined.

Lemma StoreBatch_from_ok (contents : list (list byte)) :
  forall i acc s,
    consistent s -> fs_shape s -> List.length acc = (i + List.length contents)%nat ->
    Safe.StoreBatch_from i acc contents s =
    (Ok (take i acc ++ List.map Safe.hashContent contents)%list,
     run (List.map OpStore contents) s).
Proof.
  induction contents as [|c rest IH]; intros i acc s Hs Hsh Hlen.
  - cbn. rewrite app_nil_r, take_ge; [reflexivity | cbn in Hlen; lia].
  - cbn [Safe.StoreBatch_from List.map].
    destruct (Store_succeeds c s Hs Hsh) as [s1 Hst]. rewrite Hst.
    assert (Hrun : run (OpStore c :: List.map OpStore rest) s
                   = run (List.map OpStore rest) s1).
    { unfold run. cbn [foldl run_op]. now rewrite Hst. }
    rewrite Hrun. cbn [List.length] in Hlen.
    rewrite IH.
    + rewrite take_S_insert by lia. now rewrite <- app_assoc.
    + pose proof (Store_consistent c s Hs) as H. now rewrite Hst in H.
    + pose proof (Store_fs_shape c s Hs Hsh) as H. now rewrite Hst in H.
    + rewrite length_insert. lia.
Qed.

Lemma Store_keeps_refcount (c : list byte) (s : Safe.t) (h : string) :
  consistent s -> is_Some (refcount s h) -> is_Some (refcount (snd (Safe.Store c s)) h).
Proof.
  intros Hs Hr. pose proof (Store_refcount c s h Hs) as H.
  destruct (Safe.Store c s) as [[h0|e] s1]; cbn [snd].
  - destruct H as [_ ->]. destruct (decide _); [unfold inc_count; eauto | exact Hr].
  - now rewrite H.
Qed.

Lemma run_stores_refcount (contents : list (list byte)) : forall s c,
  consistent s -> fs_shape s -> c ∈ contents ->
  is_Some (refcount (run (List.map OpStore contents) s) (Safe.hashContent c)).
Proof.
  assert (Hkeep : forall l s h, consistent s ->
            is_Some (refcount s h) ->
            is_Some (refcount (run (List.map OpStore l) s) h)).
  { intros l. induction l as [|c rest IH]; intros s h Hs Hr; [exact Hr|].
    cbn [List.map]. change (run (OpStore c :: ?l) s) with (run l (snd (Safe.Store c s))).
    apply IH; [now apply Store_consistent | now apply Store_keeps_refcount]. }
  induction contents as [|c0 rest IH]; intros s c Hs Hsh Hin.
  - now apply elem_of_nil in Hin.
  - cbn [List.map]. change (run (OpStore c0 :: ?l) s) with (run l (snd (Safe.Store c0 s))).
    apply elem_of_cons in Hin as [->|Hin].
    + apply Hkeep; [now apply Store_consistent|].
      destruct (Store_succeeds c0 s Hs Hsh) as [s1 Hst]. rewrite Hst. cbn [snd].
      exact (proj2 (Store_ok_refcount c0 s s1 _ Hst)).
    + apply IH; [now apply Store_consistent | now apply Store_fs_shape | exact Hin].
Qed.

(** X11.  In every store reached from a fresh one, [StoreBatch] succeeds and
    returns the SHA-256 of each item in order, and a [GetBatch] of
    those hashes then succeeds and returns, in order, bytes with the
    same digests. *)
Theorem GetBatch_after_StoreBatch
        (s0 : Safe.t) (ops : list op) (contents : list (list byte)) :
  fresh s0 ->
  exists s1 cs s2,
    Safe.StoreBatch contents (run ops s0)
      = (Ok (List.map Safe.hashContent contents), s1) /\
    Safe.GetBatch (List.map Safe.hashContent contents) s1 = (Ok cs, s2) /\
    List.map Safe.hashContent cs = List.map Safe.hashContent contents.
Proof.
  intros Hf.
  destruct (run_well_formed ops s0 (fresh_consistent s0 Hf) (fresh_fs_shape s0 Hf))
    as [Hs Hsh].
  set (s := run ops s0) in *. set (hashes := List.map Safe.hashContent contents).
  set (s1 := run (List.map OpStore contents) s).
  assert (Hs1 : consistent s1) by now apply run_consistent.
  pose proof (GetBatch_from_spec hashes 0 (replicate (List.length hashes) []) s1
                Hs1 ltac:(now rewrite length_replicate)) as H.
  exists s1.
  destruct (Safe.GetBatch_from 0 _ hashes s1) as [[cs|e] s2] eqn:Hg.
  - exists cs, s2. split; [|split; [exact Hg|]].
    + unfold Safe.StoreBatch.
      now rewrite (StoreBatch_from_ok contents 0 _ s Hs Hsh)
        by now rewrite length_replicate.
    + destruct H as (_ & got & -> & Hgot). exact Hgot.
  - exfalso. destruct H as (k & h & e' & Hk & _ & _ & Hfail).
    destruct (run_gets_effect (take k hashes) s1 Hs1) as (Hs2 & _ & Hr).
    apply list_lookup_fmap_Some in Hk as (c & -> & Hc).
    pose proof (run_stores_refcount contents s c Hs Hsh
                  ltac:(eapply list_elem_of_lookup_2; eauto)) as [r Hrc].
    fold s1 in Hrc. rewrite <- Hr in Hrc.
    destruct (refcount_Some_meta _ _ _ Hrc) as (m & Hm & _).
    destruct (Get_present _ _ _ Hs2 Hm) as (c' & _ & _ & Hget).
    congruence.
Qed.

Lemma GetBatch_after_StoreBatch_witness :
  let s0 := Safe.mk "/r" (Lru.New 2) 1000 None (mkEnv {[ "/r" := Dir ]} ∅ 1000) in
  let a := list_byte_of_string "a" in
  let ops := [OpStore a; OpDelete (Safe.hashContent a)] in
  let contents := [a; []; a] in
  exists s1 cs s2,
    Safe.StoreBatch contents (run ops s0)
      = (Ok (List.map Safe.hashContent contents), s1) /\
    Safe.GetBatch (List.map Safe.hashContent contents) s1 = (Ok cs, s2) /\
    List.map Safe.hashContent cs = List.map Safe.hashContent contents.
Proof.
  intros s0 a ops contents.
  exact (GetBatch_after_StoreBatch s0 ops contents scenario_store_fresh).
Defined.

(** ** The diff engine on arbitrary inputs *)

Lemma bytes_Equal_refl (a : list byte) : Diff.bytes_Equal a a = true.
Proof.
  induction a as [|x a IH]; [reflexivity|]. cbn. rewrite IH, andb_true_r.
  now apply Byte.byte_dec_lb.
Qed.

(** The walk over two equal lists of lines only meets equal lines, and
    opens no hunk. *)
Lemma walk_loop_equal (lines : list (list byte)) (lcs : list (list Z)) (fuel : nat) :
  forall i, 0 <= i ->
    Diff.hunks (Diff.walk_loop fuel lines lines lcs (Diff.mkWalk i i None [])) = [].
Proof.
  induction fuel as [|fuel IH]; intros i Hi; [reflexivity|].
  cbn [Diff.walk_loop Diff.wi Diff.wj].
  destruct (Z.ltb_spec 0 i) as [Hpos|Hz]; cbn [orb]; [|reflexivity].
  unfold Diff.walk_step. cbn [Diff.wi Diff.wj Diff.currentHunk Diff.hunks].
  destruct (Z.ltb_spec 0 i); [|lia]. cbn [andb].
  rewrite bytes_Equal_refl. cbn [option_map]. apply IH. lia.
Qed.

Lemma Diff_identical_eq (e : Diff.Engine) (content : list byte) :
  Diff.Diff e content content = Ok (Diff.mkResult [] (Diff.mkStats 0 0 0)).
Proof.
  unfold Diff.Diff. cbv zeta. unfold Diff.extractHunks.
  rewrite walk_loop_equal by (unfold Diff.len; lia).
  unfold Diff.addContextLines. destruct (_ =? 0); reflexivity.
Qed.

(** X12.  Two contents that are equal, or that differ only by one final
    newline, compare as unchanged: no hunk and empty statistics,
    whatever the number of context lines. *)
Theorem Diff_identical (e : Diff.Engine) (oldContent newContent : list byte) :
  Diff.TrimSuffix_nl oldContent = Diff.TrimSuffix_nl newContent ->
  Diff.Diff e oldContent newContent = Ok (Diff.mkResult [] (Diff.mkStats 0 0 0)).
Proof.
  intros E. rewrite <- (Diff_identical_eq e newContent).
  unfold Diff.Diff. now rewrite E.
Qed.

Lemma Diff_identical_witness :
  Diff.Diff (Diff.NewEngine 3) (list_byte_of_string "a
b
") (list_byte_of_string "a
b")
  = Ok (Diff.mkResult [] (Diff.mkStats 0 0 0)).
Proof. apply Diff_identical. reflexivity. Defined.


(** Counting the lines of one type, hunk by hunk. *)
Lemma count_lines_shift (ty : Diff.LineType) (ls : list Diff.Line) (n : Z) :
  foldl (fun n l =>
           match Diff.Type_ l, ty with
           | Diff.Addition, Diff.Addition | Diff.Deletion, Diff.Deletion => n + 1
           | _, _ => n
           end) n ls = n + changed ty ls.
Proof.
  unfold changed. revert n. induction ls as [|l ls IH]; intros n; cbn [foldl].
  - lia.
  - rewrite IH, (IH (match _ with Diff.Context => _ | _ => _ end)).
    destruct (Diff.Type_ l), ty; lia.
Qed.

Lemma count_type_shift (ty : Diff.LineType) (hs : list Diff.Hunk) (n : Z) :
  foldl (fun n h =>
           foldl (fun n l =>
                    match Diff.Type_ l, ty with
                    | Diff.Addition, Diff.Addition | Diff.Deletion, Diff.Deletion => n + 1
                    | _, _ => n
                    end) n (Diff.Lines h)) n hs = n + Diff.count_type ty hs.
Proof.
  unfold Diff.count_type. revert n. induction hs as [|h hs IH]; intros n; cbn [foldl].
  - lia.
  - rewrite IH, (IH (foldl _ 0 _)), !count_lines_shift. lia.
Qed.

Lemma count_type_cons (ty : Diff.LineType) (h : Diff.Hunk) (hs : list Diff.Hunk) :
  Diff.count_type ty (h :: hs) = changed ty (Diff.Lines h) + Diff.count_type ty hs.
Proof.
  unfold Diff.count_type at 1. cbn [foldl].
  rewrite count_type_shift, count_lines_shift. lia.
Qed.

Lemma changed_cons (ty : Diff.LineType) (l : Diff.Line) (ls : list Diff.Line) :
  changed ty (l :: ls) =
  (match Diff.Type_ l, ty with
   | Diff.Addition, Diff.Addition | Diff.Deletion, Diff.Deletion => 1
   | _, _ => 0
   end) + changed ty ls.
Proof.
  unfold changed at 1. cbn [foldl]. rewrite count_lines_shift.
  destruct (Diff.Type_ l), ty; lia.
Qed.

Lemma changed_snoc (ty : Diff.LineType) (l : Diff.Line) (ls : list Diff.Line) :
  changed ty (ls ++ [l]) =
  changed ty ls +
  (match Diff.Type_ l, ty with
   | Diff.Addition, Diff.Addition | Diff.Deletion, Diff.Deletion => 1
   | _, _ => 0
   end).
Proof.
  induction ls as [|x ls IH]; cbn [app].
  - rewrite changed_cons. unfold changed. cbn. lia.
  - rewrite !changed_cons, IH. lia.
Qed.

(** The state of the walk: no hunk is open between two rounds, every
    closed hunk holds one changed line, and with [k] the number of
    common lines met so far, the additions and the lines of the new
    file still to visit add up to its length, likewise for the
    deletions and the old file. *)
Lemma walk_step_counts (oldLines newLines : list (list byte)) (lcs : list (list Z))
      (w : Diff.walk) (k : Z) :
  0 <= Diff.wi w -> 0 <= Diff.wj w -> 0 < Diff.wi w \/ 0 < Diff.wj w ->
  Diff.currentHunk w = None ->
  let w' := Diff.walk_step oldLines newLines lcs w in
  Diff.currentHunk w' = None /\
  exists k',
    k <= k' /\
    Diff.count_type Diff.Addition (Diff.hunks w') + Diff.wj w' + k'
    = Diff.count_type Diff.Addition (Diff.hunks w) + Diff.wj w + k /\
    Diff.count_type Diff.Deletion (Diff.hunks w') + Diff.wi w' + k'
    = Diff.count_type Diff.Deletion (Diff.hunks w) + Diff.wi w + k /\
    Z.of_nat (List.length (Diff.hunks w')) + Diff.wi w' + Diff.wj w' + 2 * k'
    = Z.of_nat (List.length (Diff.hunks w)) + Diff.wi w + Diff.wj w + 2 * k.
Proof.
  intros Hi Hj Hpos Hcur.
  pose proof (walk_step_decreases oldLines newLines lcs w Hi Hj Hpos) as Hdec.
  revert Hdec. unfold Diff.walk_step. rewrite Hcur. cbv zeta.
  set (c1 := (0 <? Diff.wi w) && (0 <? Diff.wj w)
             && Diff.bytes_Equal (Diff.line_at oldLines (Diff.wi w - 1))
                                 (Diff.line_at newLines (Diff.wj w - 1))).
  set (c2 := (0 <? Diff.wj w)
             && ((Diff.wi w =? 0)
                 || (Diff.mget lcs (Diff.wi w) (Diff.wj w - 1)
                     >=? Diff.mget lcs (Diff.wi w - 1) (Diff.wj w)))).
  set (c3 := (0 <? Diff.wi w)
             && ((Diff.wj w =? 0)
                 || (Diff.mget lcs (Diff.wi w) (Diff.wj w - 1)
                     <? Diff.mget lcs (Diff.wi w - 1) (Diff.wj w)))).
  destruct c1; [|destruct c2; [|destruct c3]];
    cbn - [Diff.count_type Diff.len]; try change (0 <? Diff.len [?x]) with true;
    cbn - [Diff.count_type]; intros Hdec.
  - split; [reflexivity|]. exists (k + 1). lia.
  - split; [reflexivity|]. exists k.
    rewrite !count_type_cons. cbn - [Diff.count_type]. unfold changed. cbn. lia.
  - split; [reflexivity|]. exists k.
    rewrite !count_type_cons. cbn - [Diff.count_type]. unfold changed. cbn. lia.
  - lia.
Qed.

Lemma walk_loop_counts (oldLines newLines : list (list byte)) (lcs : list (list Z))
      (fuel : nat) : forall w k,
  0 <= Diff.wi w -> 0 <= Diff.wj w -> Diff.wi w + Diff.wj w <= Z.of_nat fuel ->
  Diff.currentHunk w = None ->
  let w' := Diff.walk_loop fuel oldLines newLines lcs w in
  exists k',
    k <= k' /\
    Diff.count_type Diff.Addition (Diff.hunks w') + k'
    = Diff.count_type Diff.Addition (Diff.hunks w) + Diff.wj w + k /\
    Diff.count_type Diff.Deletion (Diff.hunks w') + k'
    = Diff.count_type Diff.Deletion (Diff.hunks w) + Diff.wi w + k /\
    Z.of_nat (List.length (Diff.hunks w')) + 2 * k'
    = Z.of_nat (List.length (Diff.hunks w)) + Diff.wi w + Diff.wj w + 2 * k.
Proof.
  induction fuel as [|fuel IH]; intros w k Hi Hj Hf Hcur; cbn [Diff.walk_loop].
  - exists k. cbn in Hf. lia.
  - destruct (Z.ltb_spec 0 (Diff.wi w)); destruct (Z.ltb_spec 0 (Diff.wj w));
      cbn [orb]; try (exists k; lia).
    all: destruct (walk_step_decreases oldLines newLines lcs w Hi Hj ltac:(lia))
           as (H1 & H2 & H3);
         destruct (walk_step_counts oldLines newLines lcs w k Hi Hj ltac:(lia) Hcur)
           as (Hc & k1 & Hk1 & Ha & Hd & Hn);
         destruct (IH _ k1 H1 H2 ltac:(lia) Hc) as (k' & Hk' & Ha' & Hd' & Hn');
         exists k'; lia.
Qed.

(** Context lines do not count. *)
Lemma changed_prepend_context (ty : Diff.LineType) (lines : list (list byte))
      (js : list Z) : forall h,
  changed ty (Diff.Lines (foldl (fun h j => Diff.prepend Diff.Context (Diff.line_at lines j) h) h js))
  = changed ty (Diff.Lines h).
Proof.
  induction js as [|j js IH]; intros h; cbn [foldl]; [reflexivity|].
  rewrite IH. cbn [Diff.prepend Diff.Lines]. rewrite changed_cons. cbn. destruct ty; lia.
Qed.

Lemma changed_append_context (ty : Diff.LineType) (lines : list (list byte))
      (js : list Z) : forall h,
  changed ty (Diff.Lines (foldl (fun h j => Diff.append Diff.Context (Diff.line_at lines j) h) h js))
  = changed ty (Diff.Lines h).
Proof.
  induction js as [|j js IH]; intros h; cbn [foldl]; [reflexivity|].
  rewrite IH. cbn [Diff.append Diff.Lines]. rewrite changed_snoc. cbn. destruct ty; lia.
Qed.

Lemma changed_addContext (ty : Diff.LineType) (e : Diff.Engine)
      (oldLines : list (list byte)) (count idx : Z) (h : Diff.Hunk) :
  changed ty (Diff.Lines (Diff.addContext e oldLines count idx h))
  = changed ty (Diff.Lines h).
Proof.
  unfold Diff.addContext. cbv zeta.
  destruct (idx <? count - 1).
  - now rewrite changed_append_context, changed_prepend_context.
  - now rewrite changed_prepend_context.
Qed.

Lemma count_type_imap (ty : Diff.LineType) (hs : list Diff.Hunk) :
  forall f : nat -> Diff.Hunk -> Diff.Hunk,
    (forall i h, changed ty (Diff.Lines (f i h)) = changed ty (Diff.Lines h)) ->
    Diff.count_type ty (imap f hs) = Diff.count_type ty hs.
Proof.
  induction hs as [|h hs IH]; intros f Hf; [reflexivity|].
  cbn [imap]. rewrite !count_type_cons, Hf, IH; [reflexivity|].
  intros i h'. apply Hf.
Qed.

Lemma addContextLines_counts (ty : Diff.LineType) (e : Diff.Engine)
      (hs : list Diff.Hunk) (oldLines : list (list byte)) :
  Diff.count_type ty (Diff.addContextLines e hs oldLines) = Diff.count_type ty hs /\
  List.length (Diff.addContextLines e hs oldLines) = List.length hs.
Proof.
  unfold Diff.addContextLines. destruct (_ =? 0); [now split|]. split.
  - apply count_type_imap. intros i h. apply changed_addContext.
  - apply length_imap.
Qed.

Lemma changed_nonneg (ty : Diff.LineType) (ls : list Diff.Line) : 0 <= changed ty ls.
Proof.
  induction ls as [|l ls IH]; [unfold changed; cbn; lia|].
  rewrite changed_cons. destruct (Diff.Type_ l), ty; lia.
Qed.

Lemma count_type_nonneg (ty : Diff.LineType) (hs : list Diff.Hunk) :
  0 <= Diff.count_type ty hs.
Proof.
  induction hs as [|h hs IH]; [unfold Diff.count_type; cbn; lia|].
  rewrite count_type_cons. pose proof (changed_nonneg ty (Diff.Lines h)). lia.
Qed.

Lemma Diff_counts (e : Diff.Engine) (oldContent newContent : list byte) :
  exists hs a d k,
    Diff.Diff e oldContent newContent
      = Ok (Diff.mkResult hs (Diff.mkStats a d (a + d))) /\
    0 <= k /\ 0 <= a /\ 0 <= d /\
    a + k = Diff.len (Diff.Split_nl (Diff.TrimSuffix_nl newContent)) /\
    d + k = Diff.len (Diff.Split_nl (Diff.TrimSuffix_nl oldContent)) /\
    Z.of_nat (List.length hs) = a + d.
Proof.
  unfold Diff.Diff. cbv zeta.
  set (oldLines := Diff.Split_nl (Diff.TrimSuffix_nl oldContent)).
  set (newLines := Diff.Split_nl (Diff.TrimSuffix_nl newContent)).
  set (lcs := Diff.computeLCS oldLines newLines).
  set (hs0 := Diff.extractHunks oldLines newLines lcs).
  destruct (addContextLines_counts Diff.Addition e hs0 oldLines) as [Ha Hlen].
  destruct (addContextLines_counts Diff.Deletion e hs0 oldLines) as [Hd _].
  destruct (walk_loop_counts oldLines newLines lcs
              (List.length oldLines + List.length newLines)
              (Diff.mkWalk (Diff.len oldLines) (Diff.len newLines) None []) 0)
    as (k & Hk & Hka & Hkd & Hkn); cbn [Diff.wi Diff.wj Diff.currentHunk Diff.hunks];
    try (unfold Diff.len; lia); [reflexivity|].
  cbn [Diff.wi Diff.wj Diff.currentHunk Diff.hunks] in *.
  change (Diff.hunks (Diff.walk_loop _ _ _ _ _)) with hs0 in *.
  change (Diff.count_type Diff.Addition []) with 0 in *.
  change (Diff.count_type Diff.Deletion []) with 0 in *.
  cbn [List.length] in Hkn.
  exists (Diff.addContextLines e hs0 oldLines),
         (Diff.count_type Diff.Addition (Diff.addContextLines e hs0 oldLines)),
         (Diff.count_type Diff.Deletion (Diff.addContextLines e hs0 oldLines)), k.
  split; [reflexivity|]. rewrite Ha, Hd, Hlen.
  pose proof (count_type_nonneg Diff.Addition hs0).
  pose proof (count_type_nonneg Diff.Deletion hs0).
  lia.
Qed.

(** X13.  The statistics of a diff balance: with [k] lines kept, the
    additions are the other lines of the new content and the deletions
    the other lines of the old one (the lines being those of
    [bytes.Split] after the final newline is trimmed), and [Changes] is
    their sum. *)
Theorem Diff_stats_balance (e : Diff.Engine) (oldContent newContent : list byte) :
  exists r k,
    Diff.Diff e oldContent newContent = Ok r /\
    0 <= k /\
    0 <= Diff.Additions (Diff.Stats_ r) /\ 0 <= Diff.Deletions (Diff.Stats_ r) /\
    Diff.Additions (Diff.Stats_ r) + k
      = Diff.len (Diff.Split_nl (Diff.TrimSuffix_nl newContent)) /\
    Diff.Deletions (Diff.Stats_ r) + k
      = Diff.len (Diff.Split_nl (Diff.TrimSuffix_nl oldContent)) /\
    Diff.Changes (Diff.Stats_ r)
      = Diff.Additions (Diff.Stats_ r) + Diff.Deletions (Diff.Stats_ r).
Proof.
  destruct (Diff_counts e oldContent newContent)
    as (hs & a & d & k & -> & Hk & Ha & Hd & Hna & Hnd & _).
  eexists _, k. split; [reflexivity|]. cbn. lia.
Qed.

Lemma walk_step_one_change (oldLines newLines : list (list byte)) (lcs : list (list Z))
      (w : Diff.walk) :
  Diff.currentHunk w = None ->
  Forall (fun h => changed Diff.Addition (Diff.Lines h)
                   + changed Diff.Deletion (Diff.Lines h) = 1) (Diff.hunks w) ->
  Diff.currentHunk (Diff.walk_step oldLines newLines lcs w) = None /\
  Forall (fun h => changed Diff.Addition (Diff.Lines h)
                   + changed Diff.Deletion (Diff.Lines h) = 1)
         (Diff.hunks (Diff.walk_step oldLines newLines lcs w)).
Proof.
  intros Hcur Hall. unfold Diff.walk_step. rewrite Hcur.
  destruct (_ && _ && Diff.bytes_Equal _ _); cbn; [now split|].
  destruct (_ && (_ || _)); cbn; [split; [reflexivity | now constructor]|].
  destruct (_ && (_ || _)); cbn; [split; [reflexivity | now constructor]|].
  now split.
Qed.

Lemma walk_loop_one_change (oldLines newLines : list (list byte)) (lcs : list (list Z))
      (fuel : nat) : forall w,
  Diff.currentHunk w = None ->
  Forall (fun h => changed Diff.Addition (Diff.Lines h)
                   + changed Diff.Deletion (Diff.Lines h) = 1) (Diff.hunks w) ->
  Forall (fun h => changed Diff.Addition (Diff.Lines h)
                   + changed Diff.Deletion (Diff.Lines h) = 1)
         (Diff.hunks (Diff.walk_loop fuel oldLines newLines lcs w)).
Proof.
  induction fuel as [|fuel IH]; intros w Hcur Hall; [exact Hall|].
  cbn [Diff.walk_loop]. destruct (_ || _); [|exact Hall].
  destruct (walk_step_one_change oldLines newLines lcs w Hcur Hall) as [H1 H2].
  now apply IH.
Qed.

Lemma Forall_imap_changed (hs : list Diff.Hunk) :
  forall f : nat -> Diff.Hunk -> Diff.Hunk,
    (forall ty i h, changed ty (Diff.Lines (f i h)) = changed ty (Diff.Lines h)) ->
    Forall (fun h => changed Diff.Addition (Diff.Lines h)
                     + changed Diff.Deletion (Diff.Lines h) = 1) hs ->
    Forall (fun h => changed Diff.Addition (Diff.Lines h)
                     + changed Diff.Deletion (Diff.Lines h) = 1) (imap f hs).
Proof.
  induction hs as [|h hs IH]; intros f Hf Hall; [constructor|].
  inversion Hall as [|? ? Hh Hrest]; subst. cbn [imap]. constructor.
  - now rewrite !Hf.
  - apply IH; [intros ty i h'; apply Hf | exact Hrest].
Qed.

(** X14.  Hunks are never grouped: every hunk of a diff holds exactly one
    changed line (an addition or a deletion), so a diff has as many
    hunks as it counts changes. *)
Theorem Diff_one_hunk_per_change (e : Diff.Engine) (oldContent newContent : list byte) :
  exists r,
    Diff.Diff e oldContent newContent = Ok r /\
    Forall (fun h => changed Diff.Addition (Diff.Lines h)
                     + changed Diff.Deletion (Diff.Lines h) = 1) (Diff.Hunks r) /\
    Z.of_nat (List.length (Diff.Hunks r)) = Diff.Changes (Diff.Stats_ r).
Proof.
  destruct (Diff_counts e oldContent newContent)
    as (hs & a & d & k & E & _ & _ & _ & _ & _ & Hlen).
  exists (Diff.mkResult hs (Diff.mkStats a d (a + d))).
  split; [exact E|]. split; [|exact Hlen].
  revert E. unfold Diff.Diff. cbv zeta. intros [= <- _ _]. clear Hlen.
  unfold Diff.addContextLines.
  assert (H0 : Forall (fun h => changed Diff.Addition (Diff.Lines h)
                                + changed Diff.Deletion (Diff.Lines h) = 1)
                      (Diff.extractHunks
                         (Diff.Split_nl (Diff.TrimSuffix_nl oldContent))
                         (Diff.Split_nl (Diff.TrimSuffix_nl newContent))
                         (Diff.computeLCS
                            (Diff.Split_nl (Diff.TrimSuffix_nl oldContent))
                            (Diff.Split_nl (Diff.TrimSuffix_nl newContent))))).
  { unfold Diff.extractHunks. now apply walk_loop_one_change. }
  destruct (_ =? 0); [exact H0|].
  apply Forall_imap_changed; [|exact H0].
  intros ty i h. apply changed_addContext.
Qed.

(** X15.  Comparing the empty (or nil) content with anything: the old side is
    one empty line, so either that line is reported as deleted and
    every line of the new content as added, or it is matched with an
    empty line of the new content and all the others are added. *)
Theorem Diff_against_empty (e : Diff.Engine) (newContent : list byte) :
  exists r,
    Diff.Diff e [] newContent = Ok r /\
    let n := Diff.len (Diff.Split_nl (Diff.TrimSuffix_nl newContent)) in
    (Diff.Additions (Diff.Stats_ r) = n /\ Diff.Deletions (Diff.Stats_ r) = 1) \/
    (Diff.Additions (Diff.Stats_ r) = n - 1 /\ Diff.Deletions (Diff.Stats_ r) = 0).
Proof.
  destruct (Diff_counts e [] newContent)
    as (hs & a & d & k & -> & Hk & Ha & Hd & Hna & Hnd & _).
  eexists. split; [reflexivity|]. cbn [Diff.Stats_ Diff.Additions Diff.Deletions].
  change (Diff.len (Diff.Split_nl (Diff.TrimSuffix_nl []))) with 1 in Hnd.
  cbv zeta. lia.
Qed.

(** ** Keys and prefixes *)

Lemma substring_skip (pre s : string) :
  substring (String.length pre) (String.length s) (pre +:+ s) = s.
Proof.
  induction pre as [|c pre IH]; [apply substring_full | exact IH].
Qed.

Lemma TrimPrefix_app (pre s : string) : TrimPrefix pre (pre +:+ s) = s.
Proof.
  unfold TrimPrefix, slice_from. rewrite prefix_app, string_length_app.
  replace (String.length pre + String.length s - String.length pre)%nat
    with (String.length s) by lia.
  apply substring_skip.
Qed.

Lemma prefix_split (pre k : string) :
  String.prefix pre k = true -> k = pre +:+ TrimPrefix pre k.
Proof.
  intros H. assert (E : exists s, k = pre +:+ s).
  { revert k H. induction pre as [|c pre IH]; intros k H; [now exists k|].
    destruct k as [|c' k]; [discriminate|]. cbn [String.prefix] in H.
    destruct (Ascii.ascii_dec c c') as [<-|]; [|discriminate].
    destruct (IH k H) as [s ->]. now exists s. }
  destruct E as [s ->]. now rewrite TrimPrefix_app.
Qed.

Lemma db_iterate_elem (pre : string) (d : gmap string dbval) (k : string) (v : dbval) :
  (k, v) ∈ db_iterate pre d <-> d !! k = Some v /\ String.prefix pre k = true.
Proof.
  unfold db_iterate. rewrite merge_sort_Permutation, list_elem_of_In, List.filter_In.
  rewrite <- list_elem_of_In, elem_of_map_to_list. reflexivity.
Qed.

Lemma db_iterate_NoDup (pre : string) (d : gmap string dbval) :
  NoDup (db_iterate pre d).*1.
Proof.
  unfold db_iterate. rewrite merge_sort_Permutation.
  pose proof (NoDup_fst_map_to_list d) as H. revert H.
  generalize (map_to_list d). intros l. induction l as [|[k v] l IH]; cbn; [auto|].
  intros Hnd. apply NoDup_cons in Hnd as [Hk Hnd].
  destruct (String.prefix pre k); cbn; [|now apply IH].
  apply NoDup_cons. split; [|now apply IH].
  intros Hin. apply Hk. apply list_elem_of_fmap in Hin as ([k' v'] & -> & Hin).
  apply list_elem_of_fmap. exists (k', v'). split; [reflexivity|].
  apply list_elem_of_In, List.filter_In in Hin. now apply list_elem_of_In.
Qed.

(** ** The gated changes and their durable records *)

(** The database after [saveGatedChanges]: each gated path has its
    record under [gated:<path>]; every other key is as before. *)
Lemma saveGatedChanges_lookup (w : LocalWorkspace.t) (k : string) :
  LocalWorkspace.DB (snd (LocalWorkspace.saveGatedChanges w)) !! k =
  if String.prefix "gated:" k then
    match LocalWorkspace.GatedChanges w !! TrimPrefix "gated:" k with
    | Some change => Some (VChange change)
    | None => LocalWorkspace.DB w !! k
    end
  else LocalWorkspace.DB w !! k.
Proof.
  unfold LocalWorkspace.saveGatedChanges.
  cbn [snd]. unfold LocalWorkspace.DB at 1. cbn -[String.append String.prefix TrimPrefix].
  fold (LocalWorkspace.DB w).
  revert k.
  apply (map_fold_weak_ind
           (fun r (g : gmap string Change) =>
              forall k, r !! k =
                if String.prefix "gated:" k then
                  match g !! TrimPrefix "gated:" k with
                  | Some change => Some (VChange change)
                  | None => LocalWorkspace.DB w !! k
                  end
                else LocalWorkspace.DB w !! k)).
  - intros k. rewrite lookup_empty. now destruct (String.prefix _ _).
  - intros path change g r Hnone IH k.
    destruct (decide (k = "gated:" +:+ path)) as [->|Hne].
    + now rewrite lookup_insert_eq, prefix_app, TrimPrefix_app, lookup_insert_eq.
    + rewrite lookup_insert_ne by congruence. rewrite IH.
      destruct (String.prefix "gated:" k) eqn:Hp; [|reflexivity].
      rewrite lookup_insert_ne; [reflexivity|].
      intros E. apply Hne. rewrite (prefix_split _ _ Hp). now rewrite <- E.
Qed.

(** The loop of [LoadGatedChanges] over records that all decode. *)
Lemma load_loop_changes (items : list (string * dbval)) : forall w,
  (forall k v, (k, v) ∈ items ->
     String.prefix "gated:" k = true /\ exists change, v = VChange change) ->
  NoDup items.*1 ->
  fst (LocalWorkspace.load_loop items w) = Ok tt /\
  LocalWorkspace.ContentSafe (snd (LocalWorkspace.load_loop items w))
    = LocalWorkspace.ContentSafe w /\
  (forall p change, ("gated:" +:+ p, VChange change) ∈ items ->
     LocalWorkspace.GatedChanges (snd (LocalWorkspace.load_loop items w)) !! p
     = Some change) /\
  (forall p, "gated:" +:+ p ∉ items.*1 ->
     LocalWorkspace.GatedChanges (snd (LocalWorkspace.load_loop items w)) !! p
     = LocalWorkspace.GatedChanges w !! p).
Proof.
  induction items as [|[k v] items IH]; intros w Hall Hnd.
  - cbn. split; [reflexivity|]. split; [reflexivity|]. split; [|reflexivity].
    intros p change Hin. now apply elem_of_nil in Hin.
  - destruct (Hall k v ltac:(apply list_elem_of_here)) as [Hpre [change ->]].
    cbn [LocalWorkspace.load_loop].
    set (w1 := LocalWorkspace.set_gated (insert (TrimPrefix "gated:" k) change) w).
    change ((modify (LocalWorkspace.set_gated (insert (TrimPrefix "gated:" k) change)) ;;;
             LocalWorkspace.load_loop items)%go w)
      with (LocalWorkspace.load_loop items w1).
    cbn [fmap list_fmap fst] in Hnd. apply NoDup_cons in Hnd as [Hk Hnd].
    destruct (IH w1 (fun k' v' H => Hall k' v' (list_elem_of_further _ _ _ H)) Hnd)
      as (Hok & Hsafe & Hin & Hout).
    pose proof (prefix_split _ _ Hpre) as Ek.
    split; [exact Hok|]. split; [exact Hsafe|]. split.
    + intros p c Hp. apply elem_of_cons in Hp as [E|Hp]; [|now apply Hin].
      injection E as E1 E2. subst c.
      rewrite Hout by (rewrite E1; exact Hk).
      unfold w1. cbn. rewrite <- E1, TrimPrefix_app. apply lookup_insert_eq.
    + intros p Hp. cbn [fmap list_fmap fst] in Hp.
      apply not_elem_of_cons in Hp as [Hne Hp]. rewrite (Hout p Hp).
      unfold w1. cbn. apply lookup_insert_ne. intros E. apply Hne.
      now rewrite Ek, E.
Qed.

(** X16.  Saving the gated changes and loading them again gives back the
    same in-memory map, provided every [gated:] record already in the
    database belongs to a path that is gated in memory. *)
Theorem saveGatedChanges_LoadGatedChanges_roundtrip (w : LocalWorkspace.t) :
  (forall p, is_Some (LocalWorkspace.DB w !! ("gated:" +:+ p)) ->
             is_Some (LocalWorkspace.GatedChanges w !! p)) ->
  let saved := snd (LocalWorkspace.saveGatedChanges w) in
  fst (LocalWorkspace.saveGatedChanges w) = Ok tt /\
  fst (LocalWorkspace.LoadGatedChanges saved) = Ok tt /\
  LocalWorkspace.GatedChanges (snd (LocalWorkspace.LoadGatedChanges saved))
    = LocalWorkspace.GatedChanges w /\
  LocalWorkspace.DB (snd (LocalWorkspace.LoadGatedChanges saved))
    = LocalWorkspace.DB saved.
Proof.
  intros Hdb saved. split; [reflexivity|].
  set (w0 := LocalWorkspace.set_gated (fun _ => ∅) saved).
  assert (E : LocalWorkspace.LoadGatedChanges saved
              = LocalWorkspace.load_loop (db_iterate "gated:" (LocalWorkspace.DB w0)) w0)
    by reflexivity.
  rewrite E. clear E.
  assert (Hsaved : forall k v,
             (k, v) ∈ db_iterate "gated:" (LocalWorkspace.DB w0) ->
             String.prefix "gated:" k = true /\
             exists change, v = VChange change /\
                            LocalWorkspace.GatedChanges w !! TrimPrefix "gated:" k
                            = Some change).
  { intros k v Hin. apply db_iterate_elem in Hin as [Hl Hp]. split; [exact Hp|].
    change (LocalWorkspace.DB w0) with (LocalWorkspace.DB saved) in Hl.
    unfold saved in Hl. rewrite saveGatedChanges_lookup, Hp in Hl.
    destruct (LocalWorkspace.GatedChanges w !! TrimPrefix "gated:" k) as [c|] eqn:Hg.
    - injection Hl as <-. eauto.
    - exfalso. destruct (Hdb (TrimPrefix "gated:" k)) as [c Hc].
      + rewrite <- (prefix_split _ _ Hp). eauto.
      + congruence. }
  destruct (load_loop_changes (db_iterate "gated:" (LocalWorkspace.DB w0)) w0)
    as (Hok & Hsafe & Hin & Hout).
  { intros k v Hkv. destruct (Hsaved k v Hkv) as [Hp (c & -> & _)]. eauto. }
  { apply db_iterate_NoDup. }
  split; [exact Hok|]. split.
  - apply map_eq. intros p.
    destruct (LocalWorkspace.GatedChanges w !! p) as [c|] eqn:Hg.
    + apply Hin, db_iterate_elem. split; [|apply prefix_app].
      change (LocalWorkspace.DB w0) with (LocalWorkspace.DB saved). unfold saved.
      now rewrite saveGatedChanges_lookup, prefix_app, TrimPrefix_app, Hg.
    + rewrite Hout; [apply lookup_empty|].
      intros Hk. apply list_elem_of_fmap in Hk as ([k v] & Ek & Hkv). cbn in Ek. subst k.
      destruct (Hsaved _ v Hkv) as [_ (c & _ & Hc)].
      rewrite TrimPrefix_app in Hc. congruence.
  - exact (f_equal (fun s => db (Safe.env s)) Hsafe).
Qed.

Lemma saveGatedChanges_LoadGatedChanges_roundtrip_witness :
  let w := snd (LocalWorkspace.gateFile "file.txt" scenario_ws) in
  let saved := snd (LocalWorkspace.saveGatedChanges w) in
  fst (LocalWorkspace.saveGatedChanges w) = Ok tt /\
  fst (LocalWorkspace.LoadGatedChanges saved) = Ok tt /\
  LocalWorkspace.GatedChanges (snd (LocalWorkspace.LoadGatedChanges saved))
    = LocalWorkspace.GatedChanges w /\
  LocalWorkspace.DB (snd (LocalWorkspace.LoadGatedChanges saved))
    = LocalWorkspace.DB saved.
Proof.
  intros w saved.
  apply (saveGatedChanges_LoadGatedChanges_roundtrip w).
  intros p [v Hv]. exfalso.
  assert (E : LocalWorkspace.DB w =
              {[ "content:2cf24dba5fb0a30e26e83b2ac5b9e29e1b161e5c1fa7425e73043362938b9824"
                 := VMeta (mkMeta
                      "2cf24dba5fb0a30e26e83b2ac5b9e29e1b161e5c1fa7425e73043362938b9824"
                      5 1 false 1000 1001) ]}) by vm_refl.
  rewrite E in Hv. apply lookup_singleton_Some in Hv as [Hk _].
  cbn in Hk. discriminate Hk.
Defined.

(** ** The tracked set and its durable records *)

Lemma foldl_delete_in (l : list (string * dbval)) (k : string) :
  forall d : gmap string dbval,
    k ∈ l.*1 -> foldl (fun d kv => delete kv.1 d) d l !! k = None.
Proof.
  induction l as [|kv l IH]; intros d Hin; [now apply elem_of_nil in Hin|].
  cbn [foldl]. cbn [fmap list_fmap] in Hin.
  destruct (decide (k ∈ l.*1)) as [Hl|Hl]; [now apply IH|].
  apply elem_of_cons in Hin as [->|Hin]; [|contradiction].
  assert (H : forall (l' : list (string * dbval)) (d' : gmap string dbval),
             d' !! kv.1 = None -> foldl (fun d kv => delete kv.1 d) d' l' !! kv.1 = None).
  { induction l' as [|kv' l' IH']; intros d' Hd'; [exact Hd'|].
    cbn [foldl]. apply IH'. rewrite lookup_delete_None. now right. }
  apply H, lookup_delete_eq.
Qed.

(** The database after [saveTrackedFiles]: a key [tracked:<path>] is
    there, with an empty value, exactly when [path] is a key of the
    tracked map; every other key is as before. *)
Lemma saveTrackedFiles_lookup (lt : LocalTracker.t) (k : string) :
  LocalTracker.DB (snd (LocalTracker.saveTrackedFiles lt)) !! k =
  if String.prefix "tracked:" k then
    match LocalTracker.Tracked lt !! TrimPrefix "tracked:" k with
    | Some _ => Some VNil
    | None => None
    end
  else LocalTracker.DB lt !! k.
Proof.
  destruct (String.prefix "tracked:" k) eqn:Hp.
  2:{ now apply saveTrackedFiles_other. }
  unfold LocalTracker.saveTrackedFiles.
  cbn [snd]. unfold LocalTracker.DB at 1. cbn -[String.append db_iterate TrimPrefix].
  assert (Hclr : foldl (fun d kv => delete kv.1 d) (LocalTracker.DB lt)
                       (db_iterate "tracked:" (LocalTracker.DB lt)) !! k = None).
  { destruct (LocalTracker.DB lt !! k) as [v|] eqn:Hv.
    - apply foldl_delete_in, list_elem_of_fmap. exists (k, v). split; [reflexivity|].
      now apply db_iterate_elem.
    - rewrite foldl_delete_other; [exact Hv|].
      intros [k' v'] Hin E. cbn in E. subst k'.
      apply db_iterate_elem in Hin as [Hin _]. congruence. }
  revert Hclr. generalize (foldl (fun d kv => delete kv.1 d) (LocalTracker.DB lt)
                                 (db_iterate "tracked:" (LocalTracker.DB lt))).
  intros cleared Hclr.
  apply (map_fold_weak_ind
           (fun r (m : gmap string bool) =>
              r !! k = match m !! TrimPrefix "tracked:" k with
                       | Some _ => Some VNil
                       | None => None
                       end)).
  - now rewrite lookup_empty.
  - intros path b m r Hnone IH.
    destruct (decide (k = "tracked:" +:+ path)) as [->|Hne].
    + now rewrite lookup_insert_eq, TrimPrefix_app, lookup_insert_eq.
    + rewrite lookup_insert_ne by congruence. rewrite IH.
      rewrite lookup_insert_ne; [reflexivity|].
      intros E. apply Hne. rewrite (prefix_split _ _ Hp). now rewrite <- E.
Qed.

(** X17.  [saveTrackedFiles] makes the [tracked:] keys of the database mirror
    the keys of the in-memory tracked map, whatever was recorded
    before, and touches no other key. *)
Theorem saveTrackedFiles_mirrors_tracked_map (lt : LocalTracker.t) :
  let lt' := snd (LocalTracker.saveTrackedFiles lt) in
  fst (LocalTracker.saveTrackedFiles lt) = Ok tt /\
  LocalTracker.Tracked lt' = LocalTracker.Tracked lt /\
  (forall p, LocalTracker.DB lt' !! ("tracked:" +:+ p) =
             match LocalTracker.Tracked lt !! p with
             | Some _ => Some VNil
             | None => None
             end) /\
  (forall k, String.prefix "tracked:" k = false ->
             LocalTracker.DB lt' !! k = LocalTracker.DB lt !! k).
Proof.
  intros lt'. split; [reflexivity|]. split; [reflexivity|]. split.
  - intros p. unfold lt'.
    now rewrite saveTrackedFiles_lookup, prefix_app, TrimPrefix_app.
  - intros k Hk. now apply saveTrackedFiles_other.
Qed.

Lemma Untrack_loop_tracked (paths : list string) (p : string) : forall lt,
  LocalTracker.Tracked (snd (LocalTracker.Untrack_loop paths lt)) !! p =
  if bool_decide (p ∈ paths) then None else LocalTracker.Tracked lt !! p.
Proof.
  induction paths as [|path paths IH]; intros lt.
  - now rewrite bool_decide_eq_false_2 by apply not_elem_of_nil.
  - set (lt2 := LocalTracker.set_DB (delete ("file_state:" +:+ path))
                  (LocalTracker.set_tracked (delete path) lt)).
    change (LocalTracker.Untrack_loop (path :: paths) lt)
      with (LocalTracker.Untrack_loop paths lt2).
    rewrite IH. unfold lt2. cbn.
    destruct (decide (p = path)) as [->|Hne].
    + rewrite (bool_decide_eq_true_2 (path ∈ path :: paths)) by apply list_elem_of_here.
      rewrite lookup_delete_eq. now destruct (bool_decide _).
    + rewrite lookup_delete_ne by congruence.
      destruct (decide (p ∈ paths)) as [Hin|Hnin].
      * now rewrite !bool_decide_eq_true_2
          by first [exact Hin | now apply list_elem_of_further].
      * rewrite !bool_decide_eq_false_2; [reflexivity | | exact Hnin].
        intros Hin. apply elem_of_cons in Hin as [?|?]; contradiction.
Qed.

Lemma foldl_delete_tracked (paths : list string) (p : string) :
  forall tr : gmap string bool,
    foldl (fun tr path => delete path tr) tr paths !! p =
    if bool_decide (p ∈ paths) then None else tr !! p.
Proof.
  induction paths as [|x l IH]; intros g; cbn [foldl].
  - rewrite bool_decide_eq_false_2 by apply not_elem_of_nil. reflexivity.
  - rewrite IH. destruct (decide (p = x)) as [->|Hne].
    + rewrite (bool_decide_eq_true_2 (x ∈ x :: l)) by apply list_elem_of_here.
      destruct (bool_decide (x ∈ l)); [reflexivity | apply lookup_delete_eq].
    + rewrite lookup_delete_ne by congruence.
      destruct (decide (p ∈ l)) as [Hin|Hnin].
      * rewrite !bool_decide_eq_true_2; [reflexivity | now apply list_elem_of_further | exact Hin].
      * rewrite !bool_decide_eq_false_2; [reflexivity | | exact Hnin].
        intros Hin. apply elem_of_cons in Hin as [?|?]; contradiction.
Qed.

(** X18.  Both [Untrack] methods succeed and leave the same tracked set, in
    memory and under the [tracked:] keys of the database: the former
    one without the given paths. *)
Theorem Untrack_tracked_set (paths : list string) (lt : LocalTracker.t) (p : string) :
  let remaining := if bool_decide (p ∈ paths) then None
                   else LocalTracker.Tracked lt !! p in
  let persisted := match remaining with Some _ => Some VNil | None => None end in
  let l := snd (LocalTracker.Untrack paths lt) in
  let a := snd (AutoTracker.Untrack paths lt) in
  fst (LocalTracker.Untrack paths lt) = Ok tt /\
  fst (AutoTracker.Untrack paths lt) = Ok tt /\
  LocalTracker.Tracked l !! p = remaining /\
  LocalTracker.Tracked a !! p = remaining /\
  LocalTracker.DB l !! ("tracked:" +:+ p) = persisted /\
  LocalTracker.DB a !! ("tracked:" +:+ p) = persisted.
Proof.
  intros remaining persisted l a.
  destruct (Untrack_loop_spec paths lt) as (Hok & _).
  assert (El : LocalTracker.Untrack paths lt
               = LocalTracker.saveTrackedFiles (snd (LocalTracker.Untrack_loop paths lt))).
  { unfold LocalTracker.Untrack, bind.
    destruct (LocalTracker.Untrack_loop paths lt) as [[[]|e] lt1]; [reflexivity|].
    discriminate. }
  assert (Ea : AutoTracker.Untrack paths lt
               = LocalTracker.saveTrackedFiles
                   (LocalTracker.set_tracked
                      (fun tr => foldl (fun tr path => delete path tr) tr paths) lt))
    by reflexivity.
  unfold l, a. rewrite El, Ea.
  split; [reflexivity|]. split; [reflexivity|].
  split; [apply Untrack_loop_tracked|].
  split; [apply foldl_delete_tracked|].
  rewrite !saveTrackedFiles_lookup, !prefix_app, !TrimPrefix_app.
  split.
  - now rewrite Untrack_loop_tracked.
  - cbn [LocalTracker.set_tracked LocalTracker.Tracked]. now rewrite foldl_delete_tracked.
Qed.

(** ** Gating one file *)


Lemma scenario_ws_consistent : consistent (LocalWorkspace.ContentSafe scenario_ws).
Proof.
  constructor.
  - discriminate.
  - cbn. lia.
  - intros k v Hl. cbn in Hl. rewrite lookup_empty in Hl. discriminate Hl.
  - intros k c Hk. discriminate Hk.
Qed.


(** ** [CleanupGatedChanges] *)

(** X20.  [CleanupGatedChanges] always succeeds and only ever drops entries
    of the in-memory map: the content store, the disk and the database
    are untouched, no entry is added or altered, and an entry is kept
    whenever its working file is on disk, or when it carries neither a
    new nor an old hash. *)
Theorem CleanupGatedChanges_keeps_present_files (w : LocalWorkspace.t) (path : string) :
  let w' := snd (LocalWorkspace.CleanupGatedChanges w) in
  fst (LocalWorkspace.CleanupGatedChanges w) = Ok tt /\
  LocalWorkspace.ContentSafe w' = LocalWorkspace.ContentSafe w /\
  match LocalWorkspace.GatedChanges w !! path with
  | None => LocalWorkspace.GatedChanges w' !! path = None
  | Some change =>
      (LocalWorkspace.GatedChanges w' !! path = Some change \/
       LocalWorkspace.GatedChanges w' !! path = None) /\
      (is_Some (LocalWorkspace.FS w !! filepath_Join [LocalWorkspace.Root w; path]) ->
       LocalWorkspace.GatedChanges w' !! path = Some change) /\
      (NewHash change = "" -> OldHash change = "" ->
       LocalWorkspace.GatedChanges w' !! path = Some change)
  end.
Proof.
  intros w'. split; [reflexivity|]. split; [reflexivity|].
  unfold w'. rewrite Cleanup_lookup.
  destruct (LocalWorkspace.GatedChanges w !! path) as [change|]; [|reflexivity].
  split; [destruct (LocalWorkspace.orphaned w path change); auto|]. split.
  - intros [n Hn]. unfold LocalWorkspace.orphaned, Safe.os_Stat.
    unfold LocalWorkspace.FS in Hn. now rewrite Hn.
  - intros HN HO. unfold LocalWorkspace.orphaned. rewrite HN, HO.
    destruct (fst (Safe.os_Stat _ _)) as [?|e]; [reflexivity|].
    now destruct (negb (Safe.os_IsNotExist e)).
Qed.

(** ** Paths *)

(** The cleaning of paths agrees with the standard library on the
    cases of its own test table. *)
Example Clean_examples :
  List.map filepath_Clean
    ["abc"; "abc/def"; "a/b/c"; "."; ".."; "../.."; "../../abc"; "/abc"; "/"; "";
     "abc/"; "abc/def/"; "a/b/c/"; "./"; "../"; "../../"; "/abc/";
     "abc//def//ghi"; "//abc"; "///abc"; "//abc//"; "abc//";
     "abc/./def"; "/./abc/def"; "abc/.";
     "abc/def/ghi/../jkl"; "abc/def/../ghi/../jkl"; "abc/def/.."; "abc/def/../..";
     "/abc/def/../.."; "abc/def/../../.."; "/abc/def/../../..";
     "abc/def/../../../ghi/jkl/../../../mno"; "/../abc";
     "abc/./../def"; "abc//./../def"; "abc/../../././../def"]
  = ["abc"; "abc/def"; "a/b/c"; "."; ".."; "../.."; "../../abc"; "/abc"; "/"; ".";
     "abc"; "abc/def"; "a/b/c"; "."; ".."; "../.."; "/abc";
     "abc/def/ghi"; "/abc"; "/abc"; "/abc"; "abc";
     "abc/def"; "/abc/def"; "abc";
     "abc/def/jkl"; "abc/jkl"; "abc"; ".";
     "/"; ".."; "/";
     "../../mno"; "/abc";
     "def"; "def"; "../../def"].
Proof. vm_refl. Qed.

Example Join_clean_examples :
  List.map filepath_Join_clean
    [["a"; "b"]; ["a"; ""]; [""; "b"]; ["/"; "a"]; ["/"; "a/b"]; ["/"; ""];
     ["/a"; "b"]; ["a"; "/b"]; ["a/"; "b"]; ["a/"; ""]; [""; ""]; ["/"; "a"; "b"];
     ["/repo"; "."]; ["/repo"; "x/.."]; []; ["a"]]
  = ["a/b"; "a"; "b"; "/a"; "/a/b"; "/";
     "/a/b"; "a/b"; "a/b"; "a"; ""; "/a/b";
     "/repo"; "/repo"; ""; "a"].
Proof. vm_refl. Qed.

(** ** The three ignore predicates *)

Lemma ignoreDirs_ignored_part (parts : list string) :
  existsb (fun part => existsb (String.eqb part) AutoTracker.ignoreDirs) parts = true ->
  ignored_part parts = true.
Proof.
  induction parts as [|part rest IH]; [discriminate|].
  cbn [existsb ignored_part]. intros H. apply orb_true_iff in H as [H|H].
  - unfold AutoTracker.ignoreDirs in H. cbn [existsb] in H.
    repeat (apply orb_true_iff in H as [H|H];
            [apply String.eqb_eq in H; subst part; reflexivity|]).
    discriminate.
  - specialize (IH H). destruct (String.eqb part ""); [exact IH|].
    destruct (String.prefix "." part); [reflexivity|].
    match goal with |- (if ?b then true else _) = true => destruct b end;
      [reflexivity | exact IH].
Qed.

(** X21.  What the tracker ignores, the parcel ignores too, but not the other
    way round (a hidden file such as [.env] is tracked by the one and
    refused by the other); the workspace ignores what the parcel
    ignores, except a non-empty path that joins to the root itself. *)
Theorem ignore_predicates_nested (w : LocalWorkspace.t) (path : string) :
  (AutoTracker.ShouldIgnore path = true -> Parcel.shouldIgnorePath path = true) /\
  (LocalWorkspace.shouldIgnore w path = true -> Parcel.shouldIgnorePath path = true) /\
  (Parcel.shouldIgnorePath path = true ->
   LocalWorkspace.shouldIgnore w path = true \/
   (path <> "" /\ filepath_Join_clean [LocalWorkspace.Root w; path]
                  = LocalWorkspace.Root w)) /\
  (AutoTracker.ShouldIgnore ".env" = false /\ Parcel.shouldIgnorePath ".env" = true).
Proof.
  unfold AutoTracker.ShouldIgnore, Parcel.shouldIgnorePath, LocalWorkspace.shouldIgnore.
  split; [|split; [|split]].
  - destruct (String.eqb path ""); [reflexivity | apply ignoreDirs_ignored_part].
  - destruct (String.eqb path ""); [reflexivity|]. cbv zeta.
    now destruct (String.eqb _ (LocalWorkspace.Root w)).
  - destruct (String.eqb_spec path "") as [->|Hne]; [now left|]. cbv zeta.
    destruct (String.eqb_spec (filepath_Join_clean [LocalWorkspace.Root w; path])
                              (LocalWorkspace.Root w)); [now right | now left].
  - split; reflexivity.
Qed.

(** ** The hash of a change set *)

Lemma list_byte_of_string_app (a b : string) :
  list_byte_of_string (a +:+ b) = (list_byte_of_string a ++ list_byte_of_string b)%list.
Proof.
  unfold list_byte_of_string. now rewrite list_ascii_app, List.map_app.
Qed.

(** X22.  [hashChangeSet] hashes the bytes of [Path], [Type], [NewHash] and
    [OldHash] of each change, one after the other with nothing in
    between, and nothing else: two change lists whose first changes
    spell the same bytes across those four fields have the same hash,
    whatever their other fields are. *)
Theorem hashChangeSet_field_boundaries (c c' : Change) (rest : list Change) :
  Path c +:+ Type_ c +:+ NewHash c +:+ OldHash c
  = Path c' +:+ Type_ c' +:+ NewHash c' +:+ OldHash c' ->
  LocalTracker.hashChangeSet (c :: rest) = LocalTracker.hashChangeSet (c' :: rest).
Proof.
  intros E. unfold LocalTracker.hashChangeSet. cbn [List.flat_map].
  rewrite <- !list_byte_of_string_app, E. reflexivity.
Qed.

Lemma hashChangeSet_field_boundaries_witness :
  let c := mkChange "src/a" "dd" "" "" "" 420 5 7 "" [] true "" in
  let c' := mkChange "src/" "add" "" "" "" 493 9 8 "" [] false "" in
  c <> c' /\ LocalTracker.hashChangeSet [c] = LocalTracker.hashChangeSet [c'].
Proof.
  intros c c'. split; [discriminate|].
  apply (hashChangeSet_field_boundaries c c' []). reflexivity.
Defined.

(** ** Diffs of a file against what was recorded *)

Lemma os_ReadFile_eq (p : string) (s : Safe.t) :
  Safe.os_ReadFile p s =
  (match fs (Safe.env s) !! p with
   | Some (File data _ _) => Ok data
   | Some Dir => Err (ErrOS EISDIR)
   | None => Err (ErrOS ENOENT)
   end, s).
Proof. unfold Safe.os_ReadFile. now destruct (fs (Safe.env s) !! p) as [[]|]. Qed.

Lemma tracker_set_safe_id (lt : LocalTracker.t) :
  LocalTracker.set_safe (fun _ => LocalTracker.ContentSafe lt) lt = lt.
Proof. now destruct lt. Qed.


(** X23.  [AutoTracker.ShowFileDiff] never shows the differences with an
    earlier version of the file: it fetches the "old" content under
    the hash of the current bytes, so with a consistent content store
    (and no collision of the digest on those bytes) it reports no
    change at all when the current bytes are in the store, and the diff
    against the empty content when they are not. *)
Theorem AutoTracker_ShowFileDiff_against_itself
        (DiffEngine : Diff.Engine) (path : string) (lt : LocalTracker.t)
        (current : list byte) (mode mtime : Z) :
  consistent (LocalTracker.ContentSafe lt) ->
  fs (Safe.env (LocalTracker.ContentSafe lt))
    !! filepath_Join [LocalTracker.Root lt; path] = Some (File current mode mtime) ->
  (forall old, blob_at (LocalTracker.ContentSafe lt) (Safe.hashContent current) old ->
               old = current) ->
  fst (AutoTracker.ShowFileDiff DiffEngine path lt) =
  match refcount (LocalTracker.ContentSafe lt) (Safe.hashContent current) with
  | Some _ => Ok (Diff.mkResult [] (Diff.mkStats 0 0 0))
  | None => Diff.Diff DiffEngine [] current
  end.
Proof.
  intros Hs Hfile Huniq.
  unfold AutoTracker.ShowFileDiff, bind, wrap, LocalTracker.lift. cbn [gets id].
  rewrite os_ReadFile_eq, Hfile, tracker_set_safe_id.
  cbn [LocalTracker.ContentSafe].
  change (HashContent current) with (Safe.hashContent current).
  set (h := Safe.hashContent current) in *.
  destruct (refcount (LocalTracker.ContentSafe lt) h) as [r|] eqn:Hr.
  - destruct (refcount_Some_meta _ _ _ Hr) as (m & Hm & _).
    destruct (Get_present h _ _ Hs Hm) as (c & Hb & _ & Hget).
    destruct (Safe.Get h (LocalTracker.ContentSafe lt)) as [[c'|e] s1];
      cbn [fst] in Hget; [|discriminate].
    injection Hget as ->. rewrite (Huniq c Hb). cbn [fst]. apply Diff_identical_eq.
  - pose proof (refcount_None_consistent _ _ Hs Hr) as Hm.
    pose proof (consistent_not_cached _ _ Hs Hm) as Hc.
    apply Contains_false_assoc in Hc.
    rewrite (Get_miss h _ (isValidHash_hashContent current) Hc), Hm. reflexivity.
Qed.

Lemma AutoTracker_ShowFileDiff_against_itself_witness :
  fst (AutoTracker.ShowFileDiff (Diff.NewEngine 3) "file.txt"
         (LocalTracker.mk "/repo"
            (snd (Safe.Store (list_byte_of_string "hello")
                             (LocalWorkspace.ContentSafe scenario_ws))) ∅ ∅))
  = Ok (Diff.mkResult [] (Diff.mkStats 0 0 0)).
Proof.
  etransitivity.
  - apply (AutoTracker_ShowFileDiff_against_itself (Diff.NewEngine 3) "file.txt"
             (LocalTracker.mk "/repo"
                (snd (Safe.Store (list_byte_of_string "hello")
                                 (LocalWorkspace.ContentSafe scenario_ws))) ∅ ∅)
             (list_byte_of_string "hello") 420 7).
    + apply Store_consistent, scenario_ws_consistent.
    + vm_refl.
    + intros old (mo & mt & E). vm_compute in E. injection E as <- _ _. reflexivity.
  - vm_refl.
Defined.

(** ** File states and the diffs that need them *)












(** ** [GetGatedChanges] *)

Lemma Get_without_meta (h : string) (s : Safe.t) :
  consistent s -> refcount s h = None -> exists e, fst (Safe.Get h s) = Err e.
Proof.
  intros Hs Hr. destruct (Safe.isValidHash h) eqn:Hv.
  2:{ rewrite (Get_invalid h s Hv). now eexists. }
  pose proof (refcount_None_consistent _ _ Hs Hr) as Hm.
  pose proof (consistent_not_cached _ _ Hs Hm) as Hc.
  apply Contains_false_assoc in Hc.
  rewrite (Get_miss h s Hv Hc), Hm. now eexists.
Qed.




(** ** The file store of the [content] package *)

Lemma Join_root (r a : string) (rest : list string) :
  a <> "" ->
  filepath_Join (r :: a :: rest) =
  (if String.eqb r "" then "" else r +:+ "/") +:+ filepath_Join (a :: rest).
Proof.
  intros Ha. unfold filepath_Join. cbn [List.filter].
  destruct (String.eqb_spec a "") as [->|_]; [congruence|].
  destruct (String.eqb_spec r "") as [->|Hr]; cbn [negb]; [reflexivity|].
  cbn [String.concat]. now rewrite string_app_assoc.
Qed.

Lemma FileStore_paths (r : string) (content : list byte) :
  exists c1 q,
    is_hex_char c1 = true /\
    filepath_Join [r; slice 0 2 (Hex.EncodeToString (Sha256.Sum256 content));
                      slice_from 2 (Hex.EncodeToString (Sha256.Sum256 content))]
    = (if String.eqb r "" then "" else r +:+ "/") +:+ String c1 q /\
    exists q',
      filepath_Dir
        (filepath_Join [r; slice 0 2 (Hex.EncodeToString (Sha256.Sum256 content));
                           slice_from 2 (Hex.EncodeToString (Sha256.Sum256 content))])
      = (if String.eqb r "" then "" else r +:+ "/") +:+ String c1 q'.
Proof.
  destruct (hashContent_lower_hex64 content) as [Hlen Hhex].
  change (Safe.hashContent content)
    with (Hex.EncodeToString (Sha256.Sum256 content)) in Hlen, Hhex.
  set (h := Hex.EncodeToString (Sha256.Sum256 content)) in *. clearbody h.
  destruct h as [|c1 [|c2 [|c3 rest]]]; try discriminate Hlen.
  cbn [list_ascii_of_string] in Hhex.
  apply Forall_cons in Hhex as [H1 Hhex]. apply Forall_cons in Hhex as [H2 Hhex].
  assert (Hs1 : slice 0 2 (String c1 (String c2 (String c3 rest)))
                = String c1 (String c2 "")) by reflexivity.
  assert (Hs2 : slice_from 2 (String c1 (String c2 (String c3 rest)))
                = String c3 rest).
  { unfold slice_from. cbn [String.length Nat.sub substring].
    change (String c3 (substring 0 (String.length rest) rest) = String c3 rest).
    now rewrite substring_full. }
  rewrite Hs1, Hs2. rewrite Join_root by discriminate.
  set (pre := if String.eqb r "" then "" else r +:+ "/").
  exists c1, (String c2 ("/" +:+ String c3 rest)).
  split; [now apply lower_hex_is_hex|]. split; [reflexivity|].
  exists (String c2 "").
  unfold filepath_Join. cbn [List.filter String.eqb negb String.concat].
  unfold filepath_Dir.
  replace (pre +:+ String c1 (String c2 "") +:+ "/" +:+ String c3 rest)
    with ((pre +:+ String c1 (String c2 "")) +:+ "/" +:+ String c3 rest)
    by now rewrite !string_app_assoc.
  rewrite list_ascii_app.
  change (list_ascii_of_string ("/" +:+ String c3 rest))
    with ("/"%char :: list_ascii_of_string (String c3 rest)).
  rewrite drop_last_app.
  2:{ eapply Forall_impl; [exact Hhex|].
      intros c Hc. apply hex_not_sep. now apply lower_hex_is_hex. }
  destruct (list_ascii_of_string (pre +:+ String c1 (String c2 ""))) eqn:E.
  - apply (f_equal string_of_list_ascii) in E.
    rewrite string_of_list_ascii_of_string in E.
    destruct pre; cbn in E; discriminate E.
  - rewrite <- E. apply string_of_list_ascii_of_string.
Qed.

Lemma FileStore_Store_eq (content : list byte) (s : FileStore.t) :
  FileStore.Store content s =
  match FileStore.disk s
          !! filepath_Dir
               (filepath_Join
                  [FileStore.root s;
                   slice 0 2 (Hex.EncodeToString (Sha256.Sum256 content));
                   slice_from 2 (Hex.EncodeToString (Sha256.Sum256 content))]) with
  | Some (File _ _ _) =>
      (Err (Wrapped "creating content directory" (ErrOS ENOTDIR)), s)
  | _ =>
      (Ok (Hex.EncodeToString (Sha256.Sum256 content)),
       FileStore.mk (FileStore.root s)
         (<[Hex.EncodeToString (Sha256.Sum256 content) := content]> (FileStore.cache s))
         (match <[filepath_Dir
                    (filepath_Join
                       [FileStore.root s;
                        slice 0 2 (Hex.EncodeToString (Sha256.Sum256 content));
                        slice_from 2 (Hex.EncodeToString (Sha256.Sum256 content))])
                  := Dir]> (FileStore.disk s)
                !! filepath_Join
                     [FileStore.root s;
                      slice 0 2 (Hex.EncodeToString (Sha256.Sum256 content));
                      slice_from 2 (Hex.EncodeToString (Sha256.Sum256 content))] with
          | Some _ =>
              <[filepath_Dir
                  (filepath_Join
                     [FileStore.root s;
                      slice 0 2 (Hex.EncodeToString (Sha256.Sum256 content));
                      slice_from 2 (Hex.EncodeToString (Sha256.Sum256 content))])
                := Dir]> (FileStore.disk s)
          | None =>
              <[filepath_Join
                  [FileStore.root s;
                   slice 0 2 (Hex.EncodeToString (Sha256.Sum256 content));
                   slice_from 2 (Hex.EncodeToString (Sha256.Sum256 content))]
                := File content 420 (FileStore.now s)]>
                (<[filepath_Dir
                     (filepath_Join
                        [FileStore.root s;
                         slice 0 2 (Hex.EncodeToString (Sha256.Sum256 content));
                         slice_from 2 (Hex.EncodeToString (Sha256.Sum256 content))])
                   := Dir]> (FileStore.disk s))
          end)
         (FileStore.now s))
  end.
Proof.
  unfold FileStore.Store, seq, bind, wrap, modify, ret, FileStore.os_MkdirAll,
         FileStore.os_WriteFile, FileStore.set_disk, FileStore.set_cache.
  cbn [gets id].
  set (path := filepath_Join _).
  destruct (FileStore.disk s !! filepath_Dir path) as [[data mo mt|]|];
    [reflexivity| |];
    cbn [FileStore.disk FileStore.root FileStore.cache FileStore.now fst snd];
    destruct (<[filepath_Dir path:=Dir]> (FileStore.disk s) !! path) as [n|] eqn:Hfile;
    cbn [FileStore.disk FileStore.root FileStore.cache FileStore.now fst snd];
    try rewrite Hfile; reflexivity.
Qed.

Lemma FileStore_Store_disk (content : list byte) (s : FileStore.t) (p : string) :
  p <> filepath_Join [FileStore.root s;
                      slice 0 2 (Hex.EncodeToString (Sha256.Sum256 content));
                      slice_from 2 (Hex.EncodeToString (Sha256.Sum256 content))] ->
  p <> filepath_Dir
         (filepath_Join [FileStore.root s;
                         slice 0 2 (Hex.EncodeToString (Sha256.Sum256 content));
                         slice_from 2 (Hex.EncodeToString (Sha256.Sum256 content))]) ->
  FileStore.disk (snd (FileStore.Store content s)) !! p = FileStore.disk s !! p /\
  FileStore.root (snd (FileStore.Store content s)) = FileStore.root s.
Proof.
  intros Hp Hd. rewrite FileStore_Store_eq.
  set (path := filepath_Join _) in *.
  destruct (FileStore.disk s !! filepath_Dir path) as [[data mo mt|]|];
    [split; reflexivity| |];
    cbn [snd FileStore.disk FileStore.root];
    (split; [|reflexivity]);
    destruct (<[filepath_Dir path:=Dir]> (FileStore.disk s) !! path);
    rewrite ?lookup_insert_ne by congruence; reflexivity.
Qed.

Lemma FileStore_Store_ok (content : list byte) (s s' : FileStore.t) (h : string) :
  FileStore.Store content s = (Ok h, s') ->
  h = Hex.EncodeToString (Sha256.Sum256 content) /\
  FileStore.cache s' !! h = Some content.
Proof.
  rewrite FileStore_Store_eq.
  destruct (FileStore.disk s !! filepath_Dir _) as [[data mo mt|]|];
    [discriminate| |];
    intros [= <- <-]; cbn [FileStore.cache];
    (split; [reflexivity | apply lookup_insert_eq]).
Qed.

(** X27.  The file store writes a content under [<root>/<hash[:2]>/<hash[2:]>]
    while [Get] reads [<root>/.tig/content/<hash[:2]>/<hash>]: a
    successful [Store] returns the SHA-256 of the content in lowercase
    hexadecimal and makes [Exists] true for it, but it changes the
    answer of [Get] for no hash, the hash just stored included. *)
Theorem FileStore_Get_never_sees_Store
        (content : list byte) (s s' : FileStore.t) (h : string) :
  FileStore.Store content s = (Ok h, s') ->
  h = Hex.EncodeToString (Sha256.Sum256 content) /\
  FileStore.Exists h s' = Some true /\
  forall h', hex64 h' -> FileStore.Get h' s' = FileStore.Get h' s.
Proof.
  intros Hst. destruct (FileStore_Store_ok content s s' h Hst) as [Hh Hc].
  split; [exact Hh|]. split.
  - unfold FileStore.Exists. rewrite Hc.
    destruct (String.eqb_spec h "") as [E|_]; [|reflexivity].
    pose proof (EncodeToString_length (Sha256.Sum256 content)) as Hl.
    rewrite <- Hh, E, Sum256_length in Hl. discriminate Hl.
  - intros h' _. unfold FileStore.Get.
    destruct (String.length h' <? 2)%nat eqn:Hlen; [reflexivity|].
    apply Nat.ltb_ge in Hlen.
    destruct (FileStore_paths (FileStore.root s) content)
      as (c1 & q & Hc1 & Hpath & q' & Hdir).
    assert (Hg : filepath_Join [FileStore.root s; ".tig"; "content"; slice 0 2 h'; h']
                 = (if String.eqb (FileStore.root s) "" then ""
                    else FileStore.root s +:+ "/")
                   +:+ String "." ("tig" +:+ "/" +:+
                                   filepath_Join ["content"; slice 0 2 h'; h'])).
    { rewrite Join_root by discriminate. reflexivity. }
    assert (Hne : forall q0,
               filepath_Join [FileStore.root s; ".tig"; "content"; slice 0 2 h'; h']
               <> (if String.eqb (FileStore.root s) "" then ""
                   else FileStore.root s +:+ "/") +:+ String c1 q0).
    { intros q0 E. rewrite Hg in E. apply String.app_inj in E.
      injection E as E _. subst c1. vm_compute in Hc1. discriminate Hc1. }
    destruct (FileStore_Store_disk content s
                (filepath_Join [FileStore.root s; ".tig"; "content"; slice 0 2 h'; h']))
      as [Hdisk Hroot].
    + rewrite Hpath. apply Hne.
    + rewrite Hdir. apply Hne.
    + rewrite Hst in Hdisk, Hroot. cbn [snd] in Hdisk, Hroot.
      now rewrite Hroot, Hdisk.
Qed.

Lemma FileStore_Get_never_sees_Store_witness :
  let s := FileStore.mk "/objects" ∅ {[ "/objects" := Dir ]} 1000 in
  exists s',
    FileStore.Store [] s =
      (Ok "e3b0c44298fc1c149afbf4c8996fb92427ae41e4649b934ca495991b7852b855", s') /\
    FileStore.Exists "e3b0c44298fc1c149afbf4c8996fb92427ae41e4649b934ca495991b7852b855" s'
      = Some true /\
    FileStore.Get "e3b0c44298fc1c149afbf4c8996fb92427ae41e4649b934ca495991b7852b855" s'
      = Some (Err (ErrMsg "content not found")).
Proof.
  intros s.
  assert (Hst : FileStore.Store [] s =
                (Ok "e3b0c44298fc1c149afbf4c8996fb92427ae41e4649b934ca495991b7852b855",
                 snd (FileStore.Store [] s))) by vm_refl.
  exists (snd (FileStore.Store [] s)). split; [exact Hst|].
  destruct (FileStore_Get_never_sees_Store [] s _ _ Hst) as (_ & He & Hg).
  split; [exact He|]. rewrite Hg; [reflexivity|].
  apply isValidHash_iff. vm_refl.
Defined.
